(** * MeshBeat: clock synchronisation, chunked transfer and playback scheduling

    A shallow embedding of [src/lib/protocol.ts], [src/lib/sync-engine.ts],
    [src/lib/audio-engine.ts] and [src/lib/peer-manager.ts], followed by the
    properties of the specification that concern them.

    Modelling conventions.
    - A JavaScript [number] holding a time or a duration is an exact rational
      ([Q]).  The timestamps come from [Date.now()] and are integers far below
      2^53, on which the subtractions and the halving of [calculateOffset] are
      exact in IEEE doubles; NaN and the infinities are not modelled.
    - A [number] used as a count or an index is a [nat].
    - An [ArrayBuffer] is a [list byte]; a binary string and a Base64 string
      are [string]s (a Stdlib [ascii] is exactly one Latin-1 code unit).
    - A [Map<string, V>] is a [gmap string V].
    - Mutable objects are threaded explicitly: every method takes the state
      it reads and returns the state it leaves.
    - The clocks ([Date.now()], [performance.now()], [Tone.now()]) are
      arguments supplied by the caller of the embedded method. *)

From Stdlib Require Import ZArith NArith QArith Qabs Qround Qminmax Lqa Lia.
From Stdlib Require Import ZifyNat ZifyN.
From Stdlib.Strings Require Import Ascii String Byte.
From stdpp Require Import base option list sorting strings gmap.
From Equations Require Import Equations.

(** [x < y] on numbers, as a boolean. *)
Definition Qlt_bool (x y : Q) : bool := negb (Qle_bool y x).

(** ** [src/lib/protocol.ts] *)

Module Protocol.

(** The members of [ProtocolMessage], one constructor per [MessageType];
    the [type] tag of the wire object is the constructor. *)
Inductive ProtocolMessage :=
| SYNC_REQUEST (t1 : Q)
| SYNC_RESPONSE (t1 t2 t3 : Q)
| AUDIO_META (name : string) (size : nat) (duration : Q)
             (mimeType : string) (totalChunks : nat)
| AUDIO_CHUNK (chunkIndex totalChunks : nat) (data : string)
| AUDIO_COMPLETE
| SCHEDULE_PLAY (startTime seekPosition : Q)
| SCHEDULE_PAUSE
| SCHEDULE_STOP
| SCHEDULE_SEEK (position startTime : Q)
| REQUEST_MASTER (peerId : string)
| GRANT_MASTER (peerId : string)
| REVOKE_MASTER
| PEER_INFO (peerId name : string)
| HEARTBEAT (timestamp : Q)
| PLAYBACK_STATE (isPlaying : bool) (seekPosition startTime : Q).

(** [AudioMeta], kept by the receiver while a transfer is open. *)
Record AudioMeta := {
  meta_name : string;
  meta_size : nat;
  meta_duration : Q;
  meta_mimeType : string;
  meta_totalChunks : nat
}.

(** The [PlaybackState] message, queued while the audio is not ready. *)
Record PlaybackStateMsg := {
  isPlaying : bool;
  seekPosition : Q;
  startTime : Q
}.

Definition CHUNK_SIZE : nat := 16 * 1024.
Definition SYNC_INTERVAL : Q := 1000.
Definition SCHEDULE_BUFFER : Q := 300.

End Protocol.

(** ** [src/lib/sync-engine.ts] *)

Module SyncEngine.
Import Protocol.
Local Open Scope Q_scope.

Record SyncResult := {
  roundTripTime : Q;
  clockOffset : Q
}.

(** [calculateOffset(t1, t2, t3, t4)]. *)
Definition calculateOffset (t1 t2 t3 t4 : Q) : SyncResult :=
  let rtt := (t4 - t1) - (t3 - t2) in
  let offset := ((t2 - t1) + (t3 - t4)) / 2 in
  let sanitizedOffset := if Qlt_bool 10000 (Qabs offset) then 0 else offset in
  let sanitizedRTT := if Qlt_bool rtt 0 then Qabs rtt else rtt in
  {| roundTripTime := sanitizedRTT; clockOffset := sanitizedOffset |}.

(** The two fields of the class that the methods below read and write
    ([maxSamples] is the constant 10). *)
Record SyncEngine := {
  samples : list SyncResult;
  intervalId : option nat
}.

Definition maxSamples : nat := 10.

Definition new : SyncEngine := {| samples := []; intervalId := None |}.

(** [addSample(result)]: [push], then [shift] when the length exceeds
    [maxSamples]. *)
Definition addSample (result : SyncResult) (e : SyncEngine) : SyncEngine :=
  let pushed := samples e ++ [result] in
  {| samples := if (maxSamples <? length pushed)%nat then tail pushed else pushed;
     intervalId := intervalId e |}.

(** [[...samples].sort(cmp)].  [Array.prototype.sort] is stable, so for a
    comparator that is a consistent ordering its result is the stable sort
    of the array; [sortBy] is the stable insertion sort ([a] stays before
    [b] when [cmp a b <= 0]). *)
Fixpoint insertBy {A} (cmp : A -> A -> Q) (x : A) (l : list A) : list A :=
  match l with
  | [] => [x]
  | y :: l' => if Qle_bool (cmp x y) 0 then x :: y :: l' else y :: insertBy cmp x l'
  end.

Definition sortBy {A} (cmp : A -> A -> Q) (l : list A) : list A :=
  foldr (insertBy cmp) [] l.

(** The comparator [(a, b) => a.roundTripTime - b.roundTripTime]. *)
Definition byRTT (a b : SyncResult) : Q := roundTripTime a - roundTripTime b.

(** [arr.slice(start, end)] for [0 <= start] and [0 <= end]. *)
Definition slice {A} (start stop : nat) (l : list A) : list A :=
  drop start (take stop l).

(** [Math.floor(n * 0.2)] for an array length [n]. *)
Definition trimCountOf (n : nat) : nat :=
  Z.to_nat (Qfloor (inject_Z (Z.of_nat n) * (2 # 10))).

(** [sorted.slice(trimCount, sorted.length - trimCount || sorted.length)]. *)
Definition trimOutliers (sorted : list SyncResult) : list SyncResult :=
  let trimCount := trimCountOf (length sorted) in
  let stop := (length sorted - trimCount)%nat in
  slice trimCount (if (stop =? 0)%nat then length sorted else stop) sorted.

(** [arr.reduce((sum, s) => sum + f(s), 0)]. *)
Definition reduceSum (f : SyncResult -> Q) (l : list SyncResult) : Q :=
  foldl (fun sum s => sum + f s) 0 l.

(** Lines 146-153 of [getAverageResult]: the fallback on an empty trimmed
    set, and the two means.  [fallback] stands for the value of
    [this.samples[this.samples.length - 1]]. *)
Definition averageOrFallback (fallback : SyncResult)
    (trimmed : list SyncResult) : SyncResult :=
  if (length trimmed =? 0)%nat then fallback
  else
    let avgRTT := reduceSum roundTripTime trimmed / inject_Z (Z.of_nat (length trimmed)) in
    let avgOffset := reduceSum clockOffset trimmed / inject_Z (Z.of_nat (length trimmed)) in
    {| roundTripTime := avgRTT; clockOffset := avgOffset |}.

(** [getAverageResult()]. *)
Definition getAverageResult (e : SyncEngine) : SyncResult :=
  match samples e with
  | [] => {| roundTripTime := 0; clockOffset := 0 |}
  | s0 :: _ =>
      let sorted := sortBy byRTT (samples e) in
      let trimmed := trimOutliers sorted in
      averageOrFallback (default s0 (last (samples e))) trimmed
  end.

(** The order that sorting by [byRTT] establishes, and the sum of a list of
    numbers, in which the aggregate is specified. *)
Definition rttLe (a b : SyncResult) : Prop := roundTripTime a <= roundTripTime b.

Definition Qsum (l : list Q) : Q := foldr Qplus 0 l.

(** [stopSync()]: [clearInterval] leaves no interval to fire, which is what
    [intervalId = None] stands for. *)
Definition stopSync (e : SyncEngine) : SyncEngine :=
  {| samples := [];
     intervalId := match intervalId e with Some _ => None | None => None end |}.

(** *** The engine on its connection

    [startSync] and [performSync] register listeners and timers on objects
    outside the engine.  [World] gathers the engine and what it touches: the
    ['data'] listeners of the connection, the messages handed to
    [connection.send], the pending timeouts, and the calls of
    [onSyncComplete]. *)

(** A pending [setTimeout(() => connection.off('data', handleResponse), 1000)]:
    the listener it will remove, and the time at which it is due. *)
Record Timeout := {
  timeout_listener : nat;
  timeout_due : Q
}.

Record World := {
  engine : SyncEngine;
  (** the [handleResponse] closures registered with [connection.on('data', _)],
      one per probe, named by a fresh number, in registration order *)
  listeners : list nat;
  (** the arguments of [connection.send], oldest first *)
  sent : list ProtocolMessage;
  timeouts : list Timeout;
  (** the next unused closure or timer name *)
  nextId : nat;
  (** the arguments of the calls of [onSyncComplete], oldest first *)
  completed : list SyncResult
}.

Definition initial : World :=
  {| engine := new; listeners := []; sent := []; timeouts := [];
     nextId := 0%nat; completed := [] |}.

(** [connection.off('data', h)]. *)
Definition off (h : nat) (ls : list nat) : list nat :=
  filter (fun h' => h' <> h) ls.

(** [performSync(connection, onSyncComplete)], with [now] the value of
    [Date.now()]. *)
Definition performSync (now : Q) (w : World) : World :=
  let t1 := now in
  let request := SYNC_REQUEST t1 in
  let handleResponse := nextId w in
  {| engine := engine w;
     listeners := listeners w ++ [handleResponse];
     sent := sent w ++ [request];
     timeouts := timeouts w ++
       [{| timeout_listener := handleResponse; timeout_due := now + 1000 |}];
     nextId := S (nextId w);
     completed := completed w |}.

(** The closure [handleResponse] of [performSync], named [h], called with
    [data] while [Date.now()] is [now].  Data that is not an object with a
    [type] field is ignored by the closure just as a message of another
    type is, and is not modelled apart. *)
Definition handleResponse (h : nat) (data : ProtocolMessage) (now : Q)
    (w : World) : World :=
  match data with
  | SYNC_RESPONSE t1 t2 t3 =>
      let t4 := now in
      let result := calculateOffset t1 t2 t3 t4 in
      let e := addSample result (engine w) in
      {| engine := e;
         listeners := off h (listeners w);
         sent := sent w;
         timeouts := timeouts w;
         nextId := nextId w;
         completed := completed w ++ [getAverageResult e] |}
  | _ => w
  end.

(** [startSync(connection, onSyncComplete)]: the interval timer takes the
    next fresh name. *)
Definition startSync (now : Q) (w : World) : World :=
  let w1 := performSync now
    {| engine := stopSync (engine w); listeners := listeners w; sent := sent w;
       timeouts := timeouts w; nextId := nextId w; completed := completed w |} in
  {| engine := {| samples := samples (engine w1); intervalId := Some (nextId w1) |};
     listeners := listeners w1; sent := sent w1; timeouts := timeouts w1;
     nextId := S (nextId w1); completed := completed w1 |}.

(** What can happen to the engine: the two public calls, and the three
    kinds of callback the event loop may run. *)
Inductive Event :=
| CallStartSync (now : Q)
| CallStopSync
| IntervalFires (id : nat) (now : Q)
| TimeoutFires (h : nat) (now : Q)
| DataArrives (data : ProtocolMessage) (now : Q).

Definition isDue (h : nat) (now : Q) (t : Timeout) : bool :=
  (timeout_listener t =? h)%nat && Qle_bool (timeout_due t) now.

Definition step (w : World) (ev : Event) : World :=
  match ev with
  | CallStartSync now => startSync now w
  | CallStopSync =>
      {| engine := stopSync (engine w); listeners := listeners w; sent := sent w;
         timeouts := timeouts w; nextId := nextId w; completed := completed w |}
  | IntervalFires id now =>
      (* a cleared interval does not fire *)
      if decide (intervalId (engine w) = Some id) then performSync now w else w
  | TimeoutFires h now =>
      (* a timeout runs once, and not before it is due *)
      if existsb (isDue h now) (timeouts w) then
        {| engine := engine w; listeners := off h (listeners w); sent := sent w;
           timeouts := filter (fun t => timeout_listener t <> h) (timeouts w);
           nextId := nextId w; completed := completed w |}
      else w
  | DataArrives data now =>
      (* the emitter calls every listener registered when the event is emitted *)
      foldl (fun w' h => handleResponse h data now w') w (listeners w)
  end.

Definition run (w : World) (evs : list Event) : World := foldl step w evs.

End SyncEngine.

(** ** [src/lib/sync-engine.ts] on JavaScript numbers, with the timers of
    the event loop

    [SyncEngine] above takes the numbers to be rationals, and reads off
    [intervalId] whether the interval timer is alive.  Two things fall
    outside it.  The closure [handleResponse] takes [data: unknown], checks
    its [type] tag only, and casts: the fields [t1], [t2], [t3] of a response
    may be missing or may hold anything, and as operands of [-] they are
    converted to a number that may be [NaN] or an infinity.  And
    [clearInterval] acts on the timers of the event loop, not on the field.
    This module translates the same methods again with both written out.
    Finite numbers are the rationals, added and subtracted exactly: the
    rounding of doubles, and the overflow of very large ones to an infinity,
    are not modelled, and what is stated of finite results is stated of
    numbers within [maxSafe], as every timestamp is. *)

Module SyncRuntime.
Import Protocol.
Local Open Scope Q_scope.

(** A JavaScript number: a finite number, an infinity, or [NaN]. *)
Inductive Num :=
| Fin (q : Q)
| PosInf
| NegInf
| NaN.

(** [x + y]. *)
Definition add (x y : Num) : Num :=
  match x, y with
  | NaN, _ | _, NaN => NaN
  | Fin a, Fin b => Fin (a + b)
  | PosInf, NegInf | NegInf, PosInf => NaN
  | PosInf, _ | _, PosInf => PosInf
  | NegInf, _ | _, NegInf => NegInf
  end.

(** [x - y]. *)
Definition sub (x y : Num) : Num :=
  match x, y with
  | NaN, _ | _, NaN => NaN
  | Fin a, Fin b => Fin (a - b)
  | PosInf, PosInf | NegInf, NegInf => NaN
  | PosInf, _ | _, NegInf => PosInf
  | NegInf, _ | _, PosInf => NegInf
  end.

(** [x / d] for a finite [d > 0]: the code divides by [2] and by the
    length of a non-empty array only. *)
Definition div (x : Num) (d : Q) : Num :=
  match x with
  | Fin a => Fin (a / d)
  | PosInf => PosInf
  | NegInf => NegInf
  | NaN => NaN
  end.

(** [Math.abs(x)]. *)
Definition abs (x : Num) : Num :=
  match x with
  | Fin a => Fin (Qabs a)
  | PosInf | NegInf => PosInf
  | NaN => NaN
  end.

(** [x < y], which is false when either side is [NaN]. *)
Definition lt (x y : Num) : bool :=
  match x, y with
  | NaN, _ | _, NaN => false
  | Fin a, Fin b => Qlt_bool a b
  | PosInf, _ => false
  | NegInf, NegInf => false
  | NegInf, _ => true
  | Fin _, PosInf => true
  | Fin _, NegInf => false
  end.

(** [x > y]. *)
Definition gt (x y : Num) : bool := lt y x.

Record SyncResult := {
  roundTripTime : Num;
  clockOffset : Num
}.

(** [calculateOffset(t1, t2, t3, t4)]. *)
Definition calculateOffset (t1 t2 t3 t4 : Num) : SyncResult :=
  let rtt := sub (sub t4 t1) (sub t3 t2) in
  let offset := div (add (sub t2 t1) (sub t3 t4)) 2 in
  let sanitizedOffset := if gt (abs offset) (Fin 10000) then Fin 0 else offset in
  let sanitizedRTT := if lt rtt (Fin 0) then abs rtt else rtt in
  {| roundTripTime := sanitizedRTT; clockOffset := sanitizedOffset |}.

Record SyncEngine := {
  samples : list SyncResult;
  (** the handle that [setInterval] returned; a handle is truthy *)
  intervalId : option nat
}.

Definition new : SyncEngine := {| samples := []; intervalId := None |}.

(** [addSample(result)]. *)
Definition addSample (result : SyncResult) (e : SyncEngine) : SyncEngine :=
  let pushed := samples e ++ [result] in
  {| samples := if (SyncEngine.maxSamples <? length pushed)%nat then tail pushed else pushed;
     intervalId := intervalId e |}.

(** [arr.reduce((sum, s) => sum + f(s), 0)]. *)
Definition reduceSum (f : SyncResult -> Num) (l : list SyncResult) : Num :=
  foldl (fun sum s => add sum (f s)) (Fin 0) l.

(** The argument of a ['data'] event as [handleResponse] sees it: an
    object whose [type] is [SYNC_RESPONSE], with the numbers that its fields
    [t1], [t2], [t3] give as operands of [-] ([NaN] for a missing field); or
    anything else. *)
Inductive Data :=
| Response (t1 t2 t3 : Num)
| Other.

Record Timeout := {
  timeout_listener : nat;
  timeout_due : Q
}.

Record World := {
  engine : SyncEngine;
  listeners : list nat;
  sent : list ProtocolMessage;
  timeouts : list Timeout;
  (** the interval timers that are set and not cleared: each, when it comes
      due, calls [performSync] *)
  intervals : list nat;
  nextId : nat;
  completed : list SyncResult
}.

Definition initial : World :=
  {| engine := new; listeners := []; sent := []; timeouts := []; intervals := [];
     nextId := 0%nat; completed := [] |}.

(** [stopSync()]: [clearInterval(this.intervalId)] takes the timer off the
    event loop. *)
Definition stopSync (w : World) : World :=
  {| engine := {| samples := []; intervalId := None |};
     listeners := listeners w; sent := sent w; timeouts := timeouts w;
     intervals :=
       match intervalId (engine w) with
       | Some id => filter (fun i => i <> id) (intervals w)
       | None => intervals w
       end;
     nextId := nextId w; completed := completed w |}.

(** [performSync(connection, onSyncComplete)], with [now] the value of
    [Date.now()]. *)
Definition performSync (now : Q) (w : World) : World :=
  let t1 := now in
  let request := SYNC_REQUEST t1 in
  let handleResponse := nextId w in
  {| engine := engine w;
     listeners := listeners w ++ [handleResponse];
     sent := sent w ++ [request];
     timeouts := timeouts w ++
       [{| timeout_listener := handleResponse; timeout_due := now + 1000 |}];
     intervals := intervals w;
     nextId := S (nextId w);
     completed := completed w |}.

(** [startSync(connection, onSyncComplete)]: [setInterval] puts a timer
    with a fresh handle on the event loop. *)
Definition startSync (now : Q) (w : World) : World :=
  let w1 := performSync now (stopSync w) in
  let id := nextId w1 in
  {| engine := {| samples := samples (engine w1); intervalId := Some id |};
     listeners := listeners w1; sent := sent w1; timeouts := timeouts w1;
     intervals := intervals w1 ++ [id];
     nextId := S id; completed := completed w1 |}.

Inductive Event :=
| CallStartSync (now : Q)
| CallStopSync
| IntervalFires (id : nat) (now : Q)
| TimeoutFires (h : nat) (now : Q)
| DataArrives (data : Data) (now : Q).

Definition isDue (h : nat) (now : Q) (t : Timeout) : bool :=
  (timeout_listener t =? h)%nat && Qle_bool (timeout_due t) now.

Section Sorting.

(** [[...this.samples].sort((a, b) => a.roundTripTime - b.roundTripTime)].
    When a round-trip time is [NaN] the comparator is not a consistent
    ordering, and the order of the result is then left to the
    implementation: [sort] stands for what the implementation does. *)
Variable sort : list SyncResult -> list SyncResult.

(** [getAverageResult()]. *)
Definition getAverageResult (e : SyncEngine) : SyncResult :=
  match samples e with
  | [] => {| roundTripTime := Fin 0; clockOffset := Fin 0 |}
  | s0 :: _ =>
      let sorted := sort (samples e) in
      let trimCount := SyncEngine.trimCountOf (length sorted) in
      let stop := (length sorted - trimCount)%nat in
      let trimmed :=
        SyncEngine.slice trimCount (if (stop =? 0)%nat then length sorted else stop)
          sorted in
      if (length trimmed =? 0)%nat then default s0 (last (samples e))
      else
        let count := inject_Z (Z.of_nat (length trimmed)) in
        {| roundTripTime := div (reduceSum roundTripTime trimmed) count;
           clockOffset := div (reduceSum clockOffset trimmed) count |}
  end.

(** The closure [handleResponse] of [performSync], named [h], called with
    [data] while [Date.now()] is [now]. *)
Definition handleResponse (h : nat) (data : Data) (now : Q) (w : World) : World :=
  match data with
  | Response t1 t2 t3 =>
      let t4 := Fin now in
      let result := calculateOffset t1 t2 t3 t4 in
      let e := addSample result (engine w) in
      {| engine := e;
         listeners := SyncEngine.off h (listeners w);
         sent := sent w;
         timeouts := timeouts w;
         intervals := intervals w;
         nextId := nextId w;
         completed := completed w ++ [getAverageResult e] |}
  | Other => w
  end.

Definition step (w : World) (ev : Event) : World :=
  match ev with
  | CallStartSync now => startSync now w
  | CallStopSync => stopSync w
  | IntervalFires id now =>
      (* a timer fires while it is on the event loop *)
      if decide (id ∈ intervals w) then performSync now w else w
  | TimeoutFires h now =>
      if existsb (isDue h now) (timeouts w) then
        {| engine := engine w; listeners := SyncEngine.off h (listeners w);
           sent := sent w;
           timeouts := filter (fun t => timeout_listener t <> h) (timeouts w);
           intervals := intervals w;
           nextId := nextId w; completed := completed w |}
      else w
  | DataArrives data now =>
      foldl (fun w' h => handleResponse h data now w') w (listeners w)
  end.

Definition run (w : World) (evs : list Event) : World := foldl step w evs.

End Sorting.

(** One implementation of the sort: the stable insertion sort in which,
    as in [Array.prototype.sort], a comparator value that is [NaN] counts
    as [0]. *)
Definition keepsBefore (a b : SyncResult) : bool :=
  negb (gt (sub (roundTripTime a) (roundTripTime b)) (Fin 0)).

Fixpoint insertByRTT (x : SyncResult) (l : list SyncResult) : list SyncResult :=
  match l with
  | [] => [x]
  | y :: l' => if keepsBefore x y then x :: y :: l' else y :: insertByRTT x l'
  end.

Definition sortByRTT (l : list SyncResult) : list SyncResult :=
  foldr insertByRTT [] l.

(** The bounds in which the estimates are specified: a number that is not
    negative, a number of absolute value at most [b], each or [NaN]. *)
Definition nanOrNonNegative (x : Num) : Prop :=
  match x with
  | Fin a => 0 <= a
  | PosInf => True
  | NegInf => False
  | NaN => True
  end.

Definition nanOrWithin (b : Q) (x : Num) : Prop :=
  match x with
  | Fin a => Qabs a <= b
  | PosInf | NegInf => False
  | NaN => True
  end.

Definition isFinite (x : Num) : Prop :=
  match x with Fin _ => True | _ => False end.

(** [2 ** 53]: up to it the doubles hold every integer, and sums and
    differences of a few numbers within it are far from overflow. *)
Definition maxSafe : Q := 9007199254740992.

(** A finite number within [maxSafe], as every value of [Date.now()] is. *)
Definition inRange (x : Num) : Prop :=
  match x with Fin a => Qabs a <= maxSafe | _ => False end.

(** An event that brings no response with a field that is not a number
    in range, read while the clock is in range. *)
Definition wellFormed (ev : Event) : Prop :=
  match ev with
  | DataArrives (Response t1 t2 t3) now =>
      inRange t1 /\ inRange t2 /\ inRange t3 /\ inRange (Fin now)
  | _ => True
  end.

End SyncRuntime.

(** ** The platform's [btoa] and [atob]

    The two built-ins that [arrayBufferToBase64] and [base64ToArrayBuffer]
    call are not code of the repository; they are written out here after the
    HTML standard ([btoa]: forgiving-base64 encode; [atob]: forgiving-base64
    decode).  A code unit is an [ascii], its code an [N] below 256. *)

Module Base64.
Local Open Scope N_scope.

Definition alphabet : list ascii :=
  list_ascii_of_string
    "ABCDEFGHIJKLMNOPQRSTUVWXYZabcdefghijklmnopqrstuvwxyz0123456789+/".

Definition charOfSextet (n : N) : ascii := nth (N.to_nat n) alphabet "="%char.

Definition sextetOfChar (c : ascii) : option N :=
  let n := N_of_ascii c in
  if (65 <=? n) && (n <=? 90) then Some (n - 65)
  else if (97 <=? n) && (n <=? 122) then Some (n - 71)
  else if (48 <=? n) && (n <=? 57) then Some (n + 4)
  else if n =? 43 then Some 62
  else if n =? 47 then Some 63
  else None.

(** The 6-bit groups of a byte sequence, three bytes to four groups; a
    final group of one or two bytes is filled up with zero bits. *)
Fixpoint sextets (bs : list N) : list N :=
  match bs with
  | [] => []
  | [x] => [x / 4; (x mod 4) * 16]
  | [x; y] => [x / 4; (x mod 4) * 16 + y / 16; (y mod 16) * 4]
  | x :: y :: z :: rest =>
      x / 4 :: (x mod 4) * 16 + y / 16 :: (y mod 16) * 4 + z / 64 :: z mod 64
      :: sextets rest
  end.

(** The [=] characters that fill the encoding of [n] bytes up to a multiple
    of four characters. *)
Definition padding (n : nat) : list ascii :=
  match (n mod 3)%nat with
  | 1%nat => ["="; "="]%char
  | 2%nat => ["="%char]
  | _ => []
  end.

(** The encoding: one character per group, then the padding. *)
Definition encode (bs : list N) : list ascii :=
  map charOfSextet (sextets bs) ++ padding (length bs).

(** [btoa(binary)]. *)
Definition btoa (binary : string) : string :=
  string_of_list_ascii (encode (map N_of_ascii (list_ascii_of_string binary))).

(** ASCII whitespace: TAB, LF, FF, CR and SPACE. *)
Definition isWhitespace (c : ascii) : bool :=
  let n := N_of_ascii c in
  (n =? 9) || (n =? 10) || (n =? 12) || (n =? 13) || (n =? 32).

(** "If data ends with one or two U+003D (=) code points, then remove them." *)
Definition stripPadding (data : list ascii) : list ascii :=
  match rev data with
  | c1 :: r1 =>
      if Ascii.eqb c1 "=" then
        match r1 with
        | c2 :: r2 => if Ascii.eqb c2 "=" then rev r2 else rev r1
        | [] => rev r1
        end
      else data
  | [] => data
  end.

(** The bytes of a sequence of 6-bit groups, four groups to three bytes;
    of a final two or three groups the bits that do not fill a byte are
    discarded. *)
Fixpoint bytesOfSextets (ss : list N) : list N :=
  match ss with
  | a :: b :: c :: d :: rest =>
      a * 4 + b / 16 :: (b mod 16) * 16 + c / 4 :: (c mod 4) * 64 + d
      :: bytesOfSextets rest
  | [a; b; c] => [a * 4 + b / 16; (b mod 16) * 16 + c / 4]
  | [a; b] => [a * 4 + b / 16]
  | _ => []
  end.

(** [atob(data)]; [None] stands for the [InvalidCharacterError] it throws. *)
Definition atob (data : string) : option string :=
  let data1 := filter (fun c => isWhitespace c = false) (list_ascii_of_string data) in
  let data2 :=
    if (length data1 mod 4 =? 0)%nat then stripPadding data1 else data1 in
  if (length data2 mod 4 =? 1)%nat then None
  else
    match mapM sextetOfChar data2 with
    | None => None
    | Some ss => Some (string_of_list_ascii (map ascii_of_N (bytesOfSextets ss)))
    end.

End Base64.

(** ** [src/lib/audio-engine.ts] *)

Module AudioEngine.
Import Protocol.
Local Open Scope Q_scope.

(** *** The [AudioEngine] class *)

(** The calls made on the [Tone.Player] and on the Tone.js transport. *)
Inductive PlayerCall :=
| PlayerSeek (offset : Q)          (* player.seek(offset) *)
| PlayerStart (time offset : Q)    (* player.start(time, offset) *)
| PlayerStop.                      (* player.stop() *)

Inductive TransportCall :=
| TransportClear (id : nat)        (* Tone.getTransport().clear(id) *)
| TransportCancel                  (* Tone.getTransport().cancel() *)
| TransportStop.                   (* Tone.getTransport().stop() *)

Record AudioEngine := {
  (** [null], or the player, which is the calls made on it, oldest first *)
  player : option (list PlayerCall);
  (** [null], or the [ToneAudioBuffer], of which only [duration] is read *)
  buffer : option Q;
  scheduledEventId : option nat;
  isReady : bool;
  (** the calls made on [Tone.getTransport()], oldest first *)
  transport : list TransportCall
}.

Definition new : AudioEngine :=
  {| player := None; buffer := None; scheduledEventId := None;
     isReady := false; transport := [] |}.

Definition withPlayer (p : option (list PlayerCall)) (a : AudioEngine) : AudioEngine :=
  {| player := p; buffer := buffer a; scheduledEventId := scheduledEventId a;
     isReady := isReady a; transport := transport a |}.

(** [cancelScheduled()]. *)
Definition cancelScheduled (a : AudioEngine) : AudioEngine :=
  match scheduledEventId a with
  | Some id =>
      {| player := player a; buffer := buffer a; scheduledEventId := None;
         isReady := isReady a; transport := transport a ++ [TransportClear id] |}
  | None => a
  end.

(** [getDuration()], which is also the [this.buffer?.duration || 0] of
    [schedulePlay]. *)
Definition getDuration (a : AudioEngine) : Q :=
  match buffer a with
  | Some duration => duration
  | None => 0
  end.

Definition getIsReady (a : AudioEngine) : bool := isReady a.

(** [schedulePlay(scheduledTime, seekPosition, clockOffset)], with [now] the
    value of [performance.now()] and [toneNow] the value of [Tone.now()]. *)
Definition schedulePlay (scheduledTime seekPosition clockOffset : Q)
    (now toneNow : Q) (a : AudioEngine) : AudioEngine :=
  match player a with
  | None => a
  | Some calls =>
      if negb (isReady a) then a
      else
        let localTime := scheduledTime - clockOffset in
        let delay := Qmax 0 ((localTime - now) / 1000) in
        let a1 := cancelScheduled a in
        let transport1 := transport a1 ++ [TransportCancel; TransportStop] in
        let calls1 := calls ++ [PlayerSeek seekPosition] in
        let calls2 :=
          if Qlt_bool 0 delay then
            let startTimeAudioContext := toneNow + delay in
            calls1 ++ [PlayerStart startTimeAudioContext seekPosition]
          else
            let lateBy := - delay in
            let adjustedSeek := seekPosition + lateBy in
            if Qlt_bool adjustedSeek (getDuration a)
            then calls1 ++ [PlayerStart toneNow adjustedSeek]
            else calls1 in
        {| player := Some calls2; buffer := buffer a1;
           scheduledEventId := scheduledEventId a1; isReady := isReady a1;
           transport := transport1 |}
  end.

(** [pause()]. *)
Definition pause (a : AudioEngine) : AudioEngine :=
  match player a with
  | Some calls => withPlayer (Some (calls ++ [PlayerStop])) a
  | None => a
  end.

(** [stop()]. *)
Definition stop (a : AudioEngine) : AudioEngine :=
  let a1 := cancelScheduled a in
  match player a1 with
  | Some calls => withPlayer (Some (calls ++ [PlayerStop])) a1
  | None => a1
  end.

(** [loadFromArrayBuffer(arrayBuffer, name)] is asynchronous: it changes
    nothing until [decodeAudioData] settles.  [loadFromArrayBuffer_settled]
    is what it does then: when decoding gave an audio buffer of [duration]
    seconds it installs the buffer and a fresh player (the previous one is
    disposed of) and returns the duration ([Some]); when decoding failed it
    rethrows ([None]) and leaves the engine as it was. *)
Definition loadFromArrayBuffer_settled (decoded : option Q) (a : AudioEngine)
    : AudioEngine * option Q :=
  match decoded with
  | Some duration =>
      ({| player := Some []; buffer := Some duration;
          scheduledEventId := scheduledEventId a; isReady := true;
          transport := transport a |}, Some duration)
  | None => (a, None)
  end.

Local Close Scope Q_scope.

(** *** Chunking and reassembly *)

Definition ArrayBuffer := list byte.

(** What the two functions that can fail throw. *)
Inductive Error :=
| NoValidChunks     (* Error('No valid audio chunks received') *)
| InvalidBase64.    (* Error('Invalid Base64 audio data') *)

Inductive Result (A : Type) :=
| Ok (value : A)
| Throw (error : Error).
Arguments Ok {A} value.
Arguments Throw {A} error.

(** [arrayBufferToBase64(buffer)]: [String.fromCharCode] of every byte, then
    [btoa]. *)
Definition arrayBufferToBase64 (buffer : ArrayBuffer) : string :=
  let binary := string_of_list_ascii (map ascii_of_byte buffer) in
  Base64.btoa binary.

(** [base64ToArrayBuffer(base64)]: [atob], then [charCodeAt] of every code
    unit; whatever is thrown inside is rethrown as [InvalidBase64]. *)
Definition base64ToArrayBuffer (base64 : string) : Result ArrayBuffer :=
  match Base64.atob base64 with
  | Some binary => Ok (map byte_of_ascii (list_ascii_of_string binary))
  | None => Throw InvalidBase64
  end.

(** [buffer.slice(begin, end)] for [0 <= begin] and [0 <= end]. *)
Definition slice (start stop : nat) (buffer : ArrayBuffer) : ArrayBuffer :=
  drop start (take stop buffer).

Opaque CHUNK_SIZE.

(** The [while] loop of [chunkArrayBuffer], from the state [(offset, chunks)].
    It ends because every turn advances [offset] by at least one byte. *)
Equations? chunkLoop (buffer : ArrayBuffer) (offset : nat) (chunks : list string)
    : list string by wf (length buffer - offset) lt :=
  chunkLoop buffer offset chunks with decide (offset < length buffer) := {
    | left _ =>
        let chunkSize := CHUNK_SIZE `min` (length buffer - offset) in
        let chunkBuffer := slice offset (offset + chunkSize) buffer in
        let base64 := arrayBufferToBase64 chunkBuffer in
        chunkLoop buffer (offset + chunkSize) (chunks ++ [base64]);
    | right _ => chunks }.
Proof.
  assert (Hpos : 0 < CHUNK_SIZE) by (apply Nat.ltb_lt; vm_compute; reflexivity).
  lia.
Qed.

Transparent CHUNK_SIZE.

(** [chunkArrayBuffer(buffer)]. *)
Definition chunkArrayBuffer (buffer : ArrayBuffer) : list string :=
  chunkLoop buffer 0 [].

(** [buffers.map(base64ToArrayBuffer)]: the first chunk that fails to
    decode throws. *)
Fixpoint decodeAll (validChunks : list string) : Result (list ArrayBuffer) :=
  match validChunks with
  | [] => Ok []
  | chunk :: rest =>
      match base64ToArrayBuffer chunk with
      | Throw err => Throw err
      | Ok buf =>
          match decodeAll rest with
          | Throw err => Throw err
          | Ok bufs => Ok (buf :: bufs)
          end
      end
  end.

(** The test of the [filter] in [reassembleChunks]:
    [typeof chunk === 'string' && chunk.length > 0].  An array slot that is
    a hole or holds [undefined] is [None]. *)
Definition isValidChunk (chunk : option string) : bool :=
  match chunk with
  | Some s => (0 <? String.length s)%nat
  | None => false
  end.

(** [reassembleChunks(chunks)]: the buffers are copied one after the other
    into a [Uint8Array] of their total size. *)
Definition reassembleChunks (chunks : list (option string)) : Result ArrayBuffer :=
  let validChunks := omap id (filter (fun c => isValidChunk c = true) chunks) in
  if (length validChunks =? 0)%nat then Throw NoValidChunks
  else
    match decodeAll validChunks with
    | Throw err => Throw err
    | Ok buffers => Ok (concat buffers)
    end.

End AudioEngine.

(** ** [src/lib/store.ts] *)

Module Store.

Inductive PlaybackState := stopped | playing | paused | loading.

Record ConnectedPeer := {
  peer_name : string;
  latencyOffset : Q;
  lastPing : Q
}.

Record AudioFile := {
  file_name : string;
  file_size : nat;
  file_duration : Q;
  file_buffer : list byte
}.

(** The fields of [MeshBeatState] that the peer manager's message handling
    reads or writes. *)
Record MeshBeatState := {
  peerId : option string;
  connectedPeers : gmap string ConnectedPeer;
  audioFile : option AudioFile;
  playbackState : PlaybackState;
  isMaster : bool;
  clockOffset : Q
}.

Definition initialState : MeshBeatState :=
  {| peerId := None; connectedPeers := ∅; audioFile := None;
     playbackState := stopped; isMaster := false; clockOffset := 0 |}.

Definition setConnectedPeers (v : gmap string ConnectedPeer) (s : MeshBeatState) :=
  {| peerId := peerId s; connectedPeers := v; audioFile := audioFile s;
     playbackState := playbackState s; isMaster := isMaster s;
     clockOffset := clockOffset s |}.

Definition setAudioFile (v : option AudioFile) (s : MeshBeatState) :=
  {| peerId := peerId s; connectedPeers := connectedPeers s; audioFile := v;
     playbackState := playbackState s; isMaster := isMaster s;
     clockOffset := clockOffset s |}.

Definition setPlaybackState (v : PlaybackState) (s : MeshBeatState) :=
  {| peerId := peerId s; connectedPeers := connectedPeers s;
     audioFile := audioFile s; playbackState := v; isMaster := isMaster s;
     clockOffset := clockOffset s |}.

Definition setIsMaster (v : bool) (s : MeshBeatState) :=
  {| peerId := peerId s; connectedPeers := connectedPeers s;
     audioFile := audioFile s; playbackState := playbackState s; isMaster := v;
     clockOffset := clockOffset s |}.

Definition setClockOffset (v : Q) (s : MeshBeatState) :=
  {| peerId := peerId s; connectedPeers := connectedPeers s;
     audioFile := audioFile s; playbackState := playbackState s;
     isMaster := isMaster s; clockOffset := v |}.

(** [updatePeerLatency(id, latency)], with [now] the value of [Date.now()]. *)
Definition updatePeerLatency (id : string) (latency now : Q) (s : MeshBeatState) :=
  match connectedPeers s !! id with
  | Some peer =>
      setConnectedPeers
        (<[id := {| peer_name := peer_name peer; latencyOffset := latency;
                    lastPing := now |}]> (connectedPeers s)) s
  | None => s
  end.

End Store.

(** ** [src/lib/peer-manager.ts] *)

Module PeerManager.
Import Protocol.

(** The three clocks a handler may read. *)
Record Clocks := {
  dateNow : Q;          (* Date.now() *)
  performanceNow : Q;   (* performance.now() *)
  toneNow : Q           (* Tone.now() *)
}.

(** The console lines of the transfer, which tell what a handler did. *)
Inductive Log :=
| LogAllChunksReceived           (* 'All chunks received, processing...' *)
| LogNoMetaOrStorage             (* 'Received chunk but no meta/storage initialized' *)
| LogAlreadyProcessed            (* 'Audio already processed' *)
| LogMetaAlreadyCleared          (* 'Audio meta already cleared, skipping duplicate process' *)
| LogNoChunksReceived            (* 'No chunks received!' *)
| LogCannotProcess               (* 'Cannot process audio - missing meta or chunks' *)
| LogReassembled (bytes : nat)   (* `Reassembled ${buffer.byteLength} bytes` *)
| LogLoaded                      (* 'Audio loaded successfully' *)
| LogFailedToLoad.               (* 'Failed to load audio:' *)

(** A call of [processReceivedAudio] suspended at
    [await audioEngine.loadFromArrayBuffer(buffer, savedMeta.name)]: what its
    continuation still holds. *)
Record PendingLoad := {
  load_peerId : string;
  load_savedMeta : AudioMeta;
  load_buffer : list byte;
  (** [store.clockOffset] of the state snapshot the handler was given *)
  load_clockOffset : Q
}.

(** The fields of the class that the message handling reads or writes.  A
    connection is the list of the messages sent on it, oldest first; an
    entry of [audioChunks] is a JavaScript array, whose holes are [None]. *)
Record PeerManager := {
  connections : gmap string (list ProtocolMessage);
  audioChunks : gmap string (list (option string));
  audioMeta : option AudioMeta;
  pendingPlaybackState : option PlaybackStateMsg
}.

(** The peer manager with the singletons it drives: the store, the audio
    engine, the suspended loads, and the console. *)
Record System := {
  pm : PeerManager;
  store : Store.MeshBeatState;
  audio : AudioEngine.AudioEngine;
  loads : list PendingLoad;
  console : list Log
}.

Definition initial : System :=
  {| pm := {| connections := ∅; audioChunks := ∅; audioMeta := None;
              pendingPlaybackState := None |};
     store := Store.initialState; audio := AudioEngine.new; loads := [];
     console := [] |}.

Definition withPm (v : PeerManager) (s : System) : System :=
  {| pm := v; store := store s; audio := audio s; loads := loads s;
     console := console s |}.

Definition withStore (v : Store.MeshBeatState) (s : System) : System :=
  {| pm := pm s; store := v; audio := audio s; loads := loads s;
     console := console s |}.

Definition withAudio (v : AudioEngine.AudioEngine) (s : System) : System :=
  {| pm := pm s; store := store s; audio := v; loads := loads s;
     console := console s |}.

Definition withLoads (v : list PendingLoad) (s : System) : System :=
  {| pm := pm s; store := store s; audio := audio s; loads := v;
     console := console s |}.

Definition log (l : Log) (s : System) : System :=
  {| pm := pm s; store := store s; audio := audio s; loads := loads s;
     console := console s ++ [l] |}.

Definition setConnections (v : gmap string (list ProtocolMessage)) (s : System) :=
  withPm {| connections := v; audioChunks := audioChunks (pm s);
            audioMeta := audioMeta (pm s);
            pendingPlaybackState := pendingPlaybackState (pm s) |} s.

Definition setAudioChunks (v : gmap string (list (option string))) (s : System) :=
  withPm {| connections := connections (pm s); audioChunks := v;
            audioMeta := audioMeta (pm s);
            pendingPlaybackState := pendingPlaybackState (pm s) |} s.

Definition setAudioMeta (v : option AudioMeta) (s : System) :=
  withPm {| connections := connections (pm s); audioChunks := audioChunks (pm s);
            audioMeta := v;
            pendingPlaybackState := pendingPlaybackState (pm s) |} s.

Definition setPendingPlaybackState (v : option PlaybackStateMsg) (s : System) :=
  withPm {| connections := connections (pm s); audioChunks := audioChunks (pm s);
            audioMeta := audioMeta (pm s); pendingPlaybackState := v |} s.

(** [useMeshBeatStore.getState().setPlaybackState(v)], and likewise. *)
Definition storeSetPlaybackState (v : Store.PlaybackState) (s : System) :=
  withStore (Store.setPlaybackState v (store s)) s.

Definition storeSetIsMaster (v : bool) (s : System) :=
  withStore (Store.setIsMaster v (store s)) s.

(** [conn.send(message)] on the connection to [peer]. *)
Definition send (peer : string) (message : ProtocolMessage) (s : System) : System :=
  setConnections (alter (fun sent => sent ++ [message]) peer (connections (pm s))) s.

(** [array[index] = value] on a JavaScript array: past the end, the array
    grows and the slots in between are holes. *)
Definition arraySet {A} (index : nat) (value : A) (array : list (option A))
    : list (option A) :=
  if (index <? length array)%nat then <[index := Some value]> array
  else array ++ replicate (index - length array) None ++ [Some value].

(** [array.filter(c => c !== undefined).length]. *)
Definition countDefined {A} (array : list (option A)) : nat :=
  length (filter (fun c => is_Some c) array).

(** [processReceivedAudio(peerId, store)] up to its first [await].  When
    [reassembleChunks] throws, the [catch] and the [finally] blocks run at
    once.  When it returns, the call is suspended on the decoding of the
    buffer: the [finally] block, which closes the session, has not run.
    [snapshot] is the [store] argument, the state the store had when the
    handler started. *)
Definition processReceivedAudio (peerId : string) (snapshot : Store.MeshBeatState)
    (s : System) : System :=
  match audioMeta (pm s), audioChunks (pm s) !! peerId with
  | Some meta, Some receivedChunks =>
      let savedMeta := meta in
      match AudioEngine.reassembleChunks receivedChunks with
      | AudioEngine.Ok buffer =>
          let s1 := log (LogReassembled (length buffer)) s in
          withLoads (loads s1 ++
            [{| load_peerId := peerId; load_savedMeta := savedMeta;
                load_buffer := buffer;
                load_clockOffset := Store.clockOffset snapshot |}]) s1
      | AudioEngine.Throw _ =>
          let s1 := storeSetPlaybackState Store.stopped (log LogFailedToLoad s) in
          setAudioMeta None (setAudioChunks (delete peerId (audioChunks (pm s1))) s1)
      end
  | _, _ => log LogCannotProcess s
  end.

(** The rest of [processReceivedAudio], run when the decoding of the
    suspended load [l] settles: with [Some duration] when it succeeded, with
    [None] when it failed. *)
Definition processReceivedAudio_settled (clk : Clocks) (l : PendingLoad)
    (decoded : option Q) (s : System) : System :=
  let (audio1, loaded) := AudioEngine.loadFromArrayBuffer_settled decoded (audio s) in
  let s1 := withAudio audio1 s in
  let s2 :=
    match loaded with
    | Some _ =>
        let savedMeta := load_savedMeta l in
        let s3 := withStore
          (Store.setAudioFile
             (Some {| Store.file_name := meta_name savedMeta;
                      Store.file_size := meta_size savedMeta;
                      Store.file_duration := meta_duration savedMeta;
                      Store.file_buffer := load_buffer l |}) (store s1)) s1 in
        let s4 := log LogLoaded (storeSetPlaybackState Store.stopped s3) in
        match pendingPlaybackState (pm s4) with
        | Some pendingState =>
            let s5 := setPendingPlaybackState None s4 in
            if isPlaying pendingState then
              storeSetPlaybackState Store.playing
                (withAudio
                   (AudioEngine.schedulePlay
                      (performanceNow clk + SCHEDULE_BUFFER)%Q
                      (seekPosition pendingState) (load_clockOffset l)
                      (performanceNow clk) (toneNow clk) (audio s5)) s5)
            else s5
        | None => s4
        end
    | None => storeSetPlaybackState Store.stopped (log LogFailedToLoad s1)
    end in
  (* finally *)
  setAudioMeta None (setAudioChunks (delete (load_peerId l) (audioChunks (pm s2))) s2).

(** [handleMessage(conn, message)], with [peer] the value of [conn.peer].
    The handler returns (or is suspended) with the state it gives here; a
    load it has started is settled later, by [DecodeSettles]. *)
Definition handleMessage (clk : Clocks) (peer : string) (message : ProtocolMessage)
    (s : System) : System :=
  let snapshot := store s in
  match message with
  | SYNC_REQUEST t1 =>
      (* syncEngine.handleSyncRequest(conn, message) *)
      send peer (SYNC_RESPONSE t1 (dateNow clk) (dateNow clk)) s
  | PEER_INFO _ name =>
      match Store.connectedPeers snapshot !! peer with
      | Some p =>
          withStore (Store.setConnectedPeers
            (<[peer := {| Store.peer_name := name;
                          Store.latencyOffset := Store.latencyOffset p;
                          Store.lastPing := Store.lastPing p |}]>
               (Store.connectedPeers (store s))) (store s)) s
      | None => s
      end
  | AUDIO_META name size duration mimeType totalChunks =>
      let metaMsg := {| meta_name := name; meta_size := size;
                        meta_duration := duration; meta_mimeType := mimeType;
                        meta_totalChunks := totalChunks |} in
      storeSetPlaybackState Store.loading
        (setAudioChunks (<[peer := []]> (audioChunks (pm s)))
           (setAudioMeta (Some metaMsg) s))
  | AUDIO_CHUNK chunkIndex _ data =>
      match audioChunks (pm s) !! peer, audioMeta (pm s) with
      | Some chunkArray, Some meta =>
          let chunkArray1 := arraySet chunkIndex data chunkArray in
          let s1 := setAudioChunks (<[peer := chunkArray1]> (audioChunks (pm s))) s in
          let receivedCount := countDefined chunkArray1 in
          if (receivedCount =? meta_totalChunks meta)%nat then
            processReceivedAudio peer snapshot (log LogAllChunksReceived s1)
          else s1
      | _, _ => log LogNoMetaOrStorage s
      end
  | AUDIO_COMPLETE =>
      match audioChunks (pm s) !! peer with
      | None => log LogAlreadyProcessed s
      | Some completeChunks =>
          match audioMeta (pm s) with
          | None => log LogMetaAlreadyCleared s
          | Some _ =>
              let totalReceived := countDefined completeChunks in
              if (0 <? totalReceived)%nat then processReceivedAudio peer snapshot s
              else storeSetPlaybackState Store.stopped (log LogNoChunksReceived s)
          end
      end
  | SCHEDULE_PLAY startTime seekPosition =>
      if negb (AudioEngine.getIsReady (audio s)) then
        setPendingPlaybackState
          (Some {| isPlaying := true; seekPosition := seekPosition;
                   startTime := startTime |}) s
      else
        storeSetPlaybackState Store.playing
          (withAudio
             (AudioEngine.schedulePlay startTime seekPosition
                (Store.clockOffset snapshot) (performanceNow clk) (toneNow clk)
                (audio s)) s)
  | SCHEDULE_PAUSE =>
      storeSetPlaybackState Store.paused (withAudio (AudioEngine.pause (audio s)) s)
  | SCHEDULE_STOP =>
      storeSetPlaybackState Store.stopped (withAudio (AudioEngine.stop (audio s)) s)
  | REQUEST_MASTER _ => s
  | GRANT_MASTER peerId =>
      if decide (Some peerId = Store.peerId snapshot) then storeSetIsMaster true s
      else s
  | REVOKE_MASTER => storeSetIsMaster false s
  | HEARTBEAT timestamp =>
      withStore (Store.updatePeerLatency peer (dateNow clk - timestamp)%Q
                   (dateNow clk) (store s)) s
  | PLAYBACK_STATE isPlaying seekPosition startTime =>
      if negb (AudioEngine.getIsReady (audio s)) then
        setPendingPlaybackState
          (Some {| Protocol.isPlaying := isPlaying;
                   Protocol.seekPosition := seekPosition;
                   Protocol.startTime := startTime |}) s
      else if isPlaying then
        storeSetPlaybackState Store.playing
          (withAudio
             (AudioEngine.schedulePlay startTime seekPosition
                (Store.clockOffset snapshot) (performanceNow clk) (toneNow clk)
                (audio s)) s)
      else storeSetPlaybackState Store.stopped s
  (* no case of the switch *)
  | SYNC_RESPONSE _ _ _ => s
  | SCHEDULE_SEEK _ _ => s
  end.

(** [grantMaster(peerId)]. *)
Definition grantMaster (peerId : string) (s : System) : System :=
  match connections (pm s) !! peerId with
  | Some _ => storeSetIsMaster false (send peerId (GRANT_MASTER peerId) s)
  | None => s
  end.

(** The ['open'] and ['close'] handlers of a connection keep [connections]
    the map of the open connections: [this.connections.set(conn.peer, conn)]
    and [this.connections.delete(conn.peer)]. *)
Definition connectionOpened (peer : string) (s : System) : System :=
  setConnections (<[peer := []]> (connections (pm s))) s.

Definition connectionClosed (peer : string) (s : System) : System :=
  setConnections (delete peer (connections (pm s))) s.

(** What the event loop runs on the receiver: a message handler, or the
    continuation of the [i]-th suspended load when its decoding settles. *)
Inductive Event :=
| Receive (clk : Clocks) (peer : string) (message : ProtocolMessage)
| DecodeSettles (clk : Clocks) (i : nat) (decoded : option Q).

Definition step (s : System) (ev : Event) : System :=
  match ev with
  | Receive clk peer message => handleMessage clk peer message s
  | DecodeSettles clk i decoded =>
      match loads s !! i with
      | Some l =>
          processReceivedAudio_settled clk l decoded
            (withLoads (delete i (loads s)) s)
      | None => s
      end
  end.

Definition run (s : System) (evs : list Event) : System := foldl step s evs.

(** The number of times [reassembleChunks] returned a buffer, read off the
    console. *)
Definition isReassembled (l : Log) : bool :=
  match l with LogReassembled _ => true | _ => false end.

Definition reassemblies (s : System) : nat :=
  length (filter (fun l => isReassembled l = true) (console s)).

(** The chunk messages of [streamAudioToPeer], in the order it sends them. *)
Definition chunkMessages (chunks : list string) : list ProtocolMessage :=
  imap (fun i chunk => AUDIO_CHUNK i (length chunks) chunk) chunks.

(** All that [streamAudioToPeer(conn, buffer, name, duration)] sends on
    [conn], in order: the metadata, the chunks, the completion sentinel. *)
Definition streamedMessages (buffer : list byte) (name : string) (duration : Q)
    : list ProtocolMessage :=
  let chunks := AudioEngine.chunkArrayBuffer buffer in
  let meta := AUDIO_META name (length buffer) duration "audio/mpeg" (length chunks) in
  meta :: chunkMessages chunks ++ [AUDIO_COMPLETE].

(** [streamAudioToPeer(conn, buffer, name, duration)], with [peer] the value
    of [conn.peer].  The pauses it takes after every tenth chunk let other
    handlers run in between; they do not change what it sends on [conn]. *)
Definition streamAudioToPeer (peer : string) (buffer : list byte) (name : string)
    (duration : Q) (s : System) : System :=
  foldl (fun s' message => send peer message s') s
        (streamedMessages buffer name duration).

(** [this.connections.forEach(conn => conn.send(message))]. *)
Definition sendToAll (message : ProtocolMessage) (s : System) : System :=
  setConnections ((fun sent => sent ++ [message]) <$> connections (pm s)) s.

(** [broadcastPlay(seekPosition)]: [clk] holds the clocks as
    [broadcastPlay] reads them, [clk'] as [schedulePlay] reads them a moment
    later. *)
Definition broadcastPlay (clk clk' : Clocks) (seekPosition : Q) (s : System) : System :=
  let startTime := (performanceNow clk + SCHEDULE_BUFFER)%Q in
  let message := SCHEDULE_PLAY startTime seekPosition in
  let s1 := sendToAll message s in
  storeSetPlaybackState Store.playing
    (withAudio
       (AudioEngine.schedulePlay startTime seekPosition 0
          (performanceNow clk') (toneNow clk') (audio s1)) s1).

(** [withRetry(operation, maxRetries, baseDelayMs)].  [operation] is a
    call with effects: [operation k] is what its call number [k] settles
    with, a value or an error (the error as [lastError] holds it, an
    [Error] object).  The loop is run from [attempt] with
    [remaining = maxRetries - attempt]; it returns what [withRetry] settles
    with, the number of calls of [operation] made so far, and the time
    spent so far in the delays between attempts, in ms. *)
Fixpoint retryFrom {T E} (operation : nat -> T + E) (baseDelayMs : nat)
    (attempt remaining slept : nat) : (T + E) * nat * nat :=
  match operation attempt with
  | inl value => (inl value, S attempt, slept)
  | inr lastError =>
      match remaining with
      | O => (inr lastError, S attempt, slept)
      | S remaining' =>
          retryFrom operation baseDelayMs (S attempt) remaining' (slept + baseDelayMs)
      end
  end.

Definition withRetry {T E} (operation : nat -> T + E) (maxRetries baseDelayMs : nat)
    : (T + E) * nat * nat :=
  retryFrom operation baseDelayMs 0 maxRetries 0.

(** *** The ['data'] event on a guest

    On a guest the connection has two kinds of ['data'] listener: the one
    of [setupDataHandler], which runs [handleMessage], and the closures of
    the sync engine, started in [initAsGuestOnce] with the callback
    [(result) => store.setClockOffset(result.clockOffset)].  [handleMessage]
    has no case for [SYNC_RESPONSE]; what a response does to the guest is
    the call of that callback with the engine's estimate. *)
Inductive GuestEvent :=
| Handled (ev : Event)
| SyncCompleted (result : SyncEngine.SyncResult).

(** The callback given to [syncEngine.startSync]. *)
Definition onSyncComplete (result : SyncEngine.SyncResult) (s : System) : System :=
  withStore (Store.setClockOffset (SyncEngine.clockOffset result) (store s)) s.

Definition guestStep (s : System) (gev : GuestEvent) : System :=
  match gev with
  | Handled ev => step s ev
  | SyncCompleted result => onSyncComplete result s
  end.

Definition guestRun (s : System) (gevs : list GuestEvent) : System :=
  foldl guestStep s gevs.

(** The offset of the estimate that an event hands to the callback. *)
Definition estimateOf (gev : GuestEvent) : option Q :=
  match gev with
  | Handled _ => None
  | SyncCompleted result => Some (SyncEngine.clockOffset result)
  end.

End PeerManager.


(** * Properties *)

(** ** Comparisons of numbers *)

Lemma Qlt_bool_true (x y : Q) : Qlt_bool x y = true <-> (x < y)%Q.
Proof.
  unfold Qlt_bool. rewrite negb_true_iff.
  destruct (Qle_bool y x) eqn:E.
  - apply Qle_bool_iff in E. split; [discriminate | intros H; exfalso; lra].
  - split; [intros _ | reflexivity].
    destruct (Qlt_le_dec x y) as [H|H]; [exact H |].
    apply Qle_bool_iff in H. congruence.
Qed.

Lemma Qlt_bool_false (x y : Q) : Qlt_bool x y = false <-> (y <= x)%Q.
Proof.
  unfold Qlt_bool. rewrite negb_false_iff. apply Qle_bool_iff.
Qed.

(** ** The clock-synchronisation engine *)

Section SyncEngineProperties.
Import Protocol SyncEngine.
Local Open Scope Q_scope.

(** [lra] with the halving of [calculateOffset] made a product. *)
Ltac lra_half := unfold Qdiv in *; change (/ 2) with (1 # 2) in *; lra.

(** The unsanitised values of [calculateOffset]. *)
Lemma calculateOffset_unfold (t1 t2 t3 t4 : Q) :
  calculateOffset t1 t2 t3 t4 =
  {| roundTripTime :=
       if Qlt_bool ((t4 - t1) - (t3 - t2)) 0
       then Qabs ((t4 - t1) - (t3 - t2)) else (t4 - t1) - (t3 - t2);
     clockOffset :=
       if Qlt_bool 10000 (Qabs (((t2 - t1) + (t3 - t4)) / 2))
       then 0 else ((t2 - t1) + (t3 - t4)) / 2 |}.
Proof. reflexivity. Qed.

(** C1.  For timestamps in order, [t1 <= t2 <= t3 <= t4], that span at most
    20000 ms, neither sanity rule of [calculateOffset] applies, and the
    sample it returns is exactly the closed form:
    [roundTripTime = (t4 - t1) - (t3 - t2)] and
    [clockOffset = ((t2 - t1) + (t3 - t4)) / 2]. *)
Theorem calculateOffset_closed_form (t1 t2 t3 t4 : Q) :
  t1 <= t2 -> t2 <= t3 -> t3 <= t4 -> t4 - t1 <= 20000 ->
  calculateOffset t1 t2 t3 t4 =
  {| roundTripTime := (t4 - t1) - (t3 - t2);
     clockOffset := ((t2 - t1) + (t3 - t4)) / 2 |}.
Proof.
  intros H12 H23 H34 Hspan. rewrite calculateOffset_unfold.
  assert (Hrtt : Qlt_bool ((t4 - t1) - (t3 - t2)) 0 = false)
    by (apply Qlt_bool_false; lra).
  assert (Hoff : Qlt_bool 10000 (Qabs (((t2 - t1) + (t3 - t4)) / 2)) = false).
  { apply Qlt_bool_false, Qabs_Qle_condition. split; lra_half. }
  rewrite Hrtt, Hoff. reflexivity.
Qed.

Lemma calculateOffset_closed_form_witness :
  calculateOffset 5000 5040 5045 5100 =
  {| roundTripTime := (5100 - 5000) - (5045 - 5040);
     clockOffset := ((5040 - 5000) + (5045 - 5100)) / 2 |}.
Proof.
  apply (calculateOffset_closed_form 5000 5040 5045 5100); lra.
Defined.

(** C8 (as the code computes it).  For the probe [t1 = 1000], [t2 = 1050],
    [t3 = 1060], [t4 = 1120] the offset computation yields
    [roundTripTime = 110] and [clockOffset = -5]. *)
Theorem probe_example_110_minus_5 :
  roundTripTime (calculateOffset 1000 1050 1060 1120) == 110 /\
  clockOffset (calculateOffset 1000 1050 1060 1120) == -5.
Proof. split; vm_compute; reflexivity. Qed.

(** C8 as stated fails: the sample of that probe has neither
    [roundTripTime = 50] nor [clockOffset = 15]. *)
Lemma probe_example_not_50_15 :
  ~ roundTripTime (calculateOffset 1000 1050 1060 1120) == 50 /\
  ~ clockOffset (calculateOffset 1000 1050 1060 1120) == 15.
Proof. split; vm_compute; discriminate. Qed.

(** The newest entry of the ring after [addSample] is the sample added. *)
Lemma last_addSample (r : SyncResult) (e : SyncEngine) :
  last (samples (addSample r e)) = Some r.
Proof.
  unfold addSample; simpl.
  destruct (samples e) as [|a l]; [reflexivity |].
  destruct (maxSamples <? length ((a :: l) ++ [r]))%nat; apply last_snoc.
Qed.

(** C5.  Whatever the four timestamps: when the raw offset
    [((t2 - t1) + (t3 - t4)) / 2] exceeds 10000 ms in absolute value, the
    sample returned carries [clockOffset = 0], still carries the (sanitised)
    round-trip time, and is the entry that [addSample] appends to the ring;
    when the raw round-trip time [(t4 - t1) - (t3 - t2)] is negative, the
    sample carries its absolute value. *)
Theorem calculateOffset_sanity (t1 t2 t3 t4 : Q) :
  let rtt := (t4 - t1) - (t3 - t2) in
  let offset := ((t2 - t1) + (t3 - t4)) / 2 in
  let sample := calculateOffset t1 t2 t3 t4 in
  (10000 < Qabs offset ->
     clockOffset sample = 0 /\
     roundTripTime sample == Qabs rtt /\
     forall e, last (samples (addSample sample e)) = Some sample) /\
  (rtt < 0 -> roundTripTime sample = Qabs rtt).
Proof.
  intros rtt offset sample. subst sample.
  rewrite calculateOffset_unfold. cbn [roundTripTime clockOffset].
  fold rtt offset. split.
  - intros Hbig. apply Qlt_bool_true in Hbig. rewrite Hbig.
    split; [reflexivity | split].
    + destruct (Qlt_bool rtt 0) eqn:E; [reflexivity |].
      apply Qlt_bool_false in E. symmetry. apply Qabs_pos, E.
    + intros e. apply last_addSample.
  - intros Hneg. apply Qlt_bool_true in Hneg. rewrite Hneg. reflexivity.
Qed.

Lemma calculateOffset_sanity_witness :
  clockOffset (calculateOffset 0 0 30000 50) = 0 /\
  roundTripTime (calculateOffset 0 0 30000 50) = Qabs ((50 - 0) - (30000 - 0)).
Proof.
  destruct (calculateOffset_sanity 0 0 30000 50) as [Hoff Hrtt]. split.
  - apply Hoff. vm_compute. reflexivity.
  - apply Hrtt. vm_compute. reflexivity.
Defined.

(** [addSample] keeps a ring of at most 10 entries at most 10 long. *)
Lemma addSample_length (r : SyncResult) (e : SyncEngine) :
  (length (samples e) <= 10)%nat -> (length (samples (addSample r e)) <= 10)%nat.
Proof.
  intros Hle. unfold addSample, maxSamples; simpl.
  destruct (Nat.ltb_spec 10 (length (samples e ++ [r]))) as [Hgt|Hok]; [|exact Hok].
  rewrite length_tl, length_app; simpl. lia.
Qed.

Lemma addSample_full (r : SyncResult) (e : SyncEngine) :
  length (samples e) = 10%nat ->
  samples (addSample r e) = tail (samples e) ++ [r].
Proof.
  intros Hlen. unfold addSample, maxSamples; simpl.
  rewrite length_app, Hlen; simpl.
  destruct (samples e); [discriminate | reflexivity].
Qed.

Lemma handleResponse_length (h : nat) (data : ProtocolMessage) (now : Q) (w : World) :
  (length (samples (engine w)) <= 10)%nat ->
  (length (samples (engine (handleResponse h data now w))) <= 10)%nat.
Proof.
  intros Hle. destruct data; simpl; try exact Hle.
  apply addSample_length, Hle.
Qed.

Lemma step_length (w : World) (ev : Event) :
  (length (samples (engine w)) <= 10)%nat ->
  (length (samples (engine (step w ev))) <= 10)%nat.
Proof.
  intros Hle. destruct ev as [now| |id now|h now|data now]; simpl.
  - lia.
  - lia.
  - destruct (decide _); [exact Hle | exact Hle].
  - destruct (existsb _ _); exact Hle.
  - remember (listeners w) as hs eqn:Hhs. clear Hhs. revert w Hle.
    induction hs as [|h hs IH]; intros w' Hle; simpl; [exact Hle |].
    apply IH, handleResponse_length, Hle.
Qed.

Lemma run_length (evs : list Event) (w : World) :
  (length (samples (engine w)) <= 10)%nat ->
  (length (samples (engine (run w evs))) <= 10)%nat.
Proof.
  revert w. induction evs as [|ev evs IH]; intros w Hle; simpl; [exact Hle |].
  apply IH, step_length, Hle.
Qed.

Lemma tail_drop {A} (l : list A) (k : nat) : tail (drop k l) = drop (S k) l.
Proof.
  revert k. induction l as [|x l IH]; intros [|k]; try reflexivity.
  apply IH.
Qed.

Lemma addSample_room (r : SyncResult) (e : SyncEngine) :
  (length (samples e) < 10)%nat ->
  samples (addSample r e) = samples e ++ [r].
Proof.
  intros Hlen. unfold addSample, maxSamples; simpl.
  rewrite length_app; simpl.
  destruct (Nat.ltb_spec 10 (length (samples e) + 1)); [lia | reflexivity].
Qed.

(** The ring after the samples [rs] have been added to a fresh engine, one
    call of [addSample] each: the last 10 of them, in the order added. *)
Lemma addSample_last_10 (rs : list SyncResult) :
  samples (foldl (fun e' r' => addSample r' e') new rs) = drop (length rs - 10) rs.
Proof.
  induction rs as [|r rs IH] using rev_ind; [reflexivity |].
  rewrite foldl_snoc, length_app. cbn [length].
  set (e := foldl (fun e' r' => addSample r' e') new rs) in *.
  destruct (Nat.lt_ge_cases (length rs) 10) as [Hlt|Hge].
  - replace (length rs - 10)%nat with 0%nat in IH by lia. rewrite drop_0 in IH.
    rewrite addSample_room by (rewrite IH; exact Hlt).
    rewrite IH. replace (length rs + 1 - 10)%nat with 0%nat by lia. reflexivity.
  - assert (Hfull : length (samples e) = 10%nat)
      by (rewrite IH, length_drop; lia).
    rewrite (addSample_full r e Hfull), IH.
    replace (length rs + 1 - 10)%nat with (S (length rs - 10)) by lia.
    rewrite drop_app_le by lia. rewrite tail_drop. reflexivity.
Qed.

(** C4.  Whatever samples are added to a fresh engine, in whatever number,
    the ring holds exactly the last 10 of them (all of them while there are
    at most 10), in the order added: it never holds more than 10 entries,
    the first 10 insertions evict nothing, and the 11th, like every later
    one, evicts the oldest entry and leaves the other 9 in their order,
    followed by the new one.  The bound is also kept by every call and
    callback the engine goes through on its connection.  One call of
    [addSample] on a ring with room appends and evicts nothing; on a ring
    that holds 10 it drops the head and appends. *)
Theorem sample_ring_bounded_fifo
    (rs : list SyncResult) (evs : list Event) (e : SyncEngine) (r : SyncResult) :
  let ring := fun rs' => samples (foldl (fun e' r' => addSample r' e') new rs') in
  ring rs = drop (length rs - 10) rs /\
  length (ring rs) = Nat.min (length rs) 10 /\
  ((length rs <= 10)%nat -> ring rs = rs) /\
  (length rs = 10%nat -> ring (rs ++ [r]) = tail rs ++ [r]) /\
  (length (samples (engine (run initial evs))) <= 10)%nat /\
  ((length (samples e) <= 10)%nat -> (length (samples (addSample r e)) <= 10)%nat) /\
  ((length (samples e) < 10)%nat -> samples (addSample r e) = samples e ++ [r]) /\
  (length (samples e) = 10%nat ->
     samples (addSample r e) = tail (samples e) ++ [r] /\
     length (samples (addSample r e)) = 10%nat).
Proof.
  intros ring. unfold ring.
  split; [apply addSample_last_10 | split; [| split; [| split; [| split; [| split; [| split]]]]]].
  - rewrite addSample_last_10, length_drop. lia.
  - intros Hrs. rewrite addSample_last_10.
    replace (length rs - 10)%nat with 0%nat by lia. apply drop_0.
  - intros Hrs. rewrite addSample_last_10, length_app, Hrs. cbn [length Nat.add Nat.sub].
    destruct rs; [discriminate | reflexivity].
  - apply run_length. simpl. lia.
  - apply addSample_length.
  - apply addSample_room.
  - intros Hfull. split; [apply addSample_full, Hfull |].
    rewrite (addSample_full r e Hfull), length_app, length_tl, Hfull. reflexivity.
Qed.

Lemma sample_ring_bounded_fifo_witness :
  let mk n := {| roundTripTime := inject_Z n; clockOffset := 0 |} in
  samples (addSample (mk 11%Z)
    {| samples := map mk [1; 2; 3; 4; 5; 6; 7; 8; 9; 10]%Z; intervalId := None |}) =
  map mk [2; 3; 4; 5; 6; 7; 8; 9; 10; 11]%Z /\
  samples (foldl (fun e' r' => addSample r' e') new
             (map mk [1; 2; 3; 4; 5; 6; 7; 8; 9; 10]%Z ++ [mk 11%Z])) =
  map mk [2; 3; 4; 5; 6; 7; 8; 9; 10; 11]%Z.
Proof.
  intros mk.
  destruct (sample_ring_bounded_fifo
    (map mk [1; 2; 3; 4; 5; 6; 7; 8; 9; 10]%Z)
    [CallStartSync 0; DataArrives (SYNC_RESPONSE 0 1 2) 3]
    {| samples := map mk [1; 2; 3; 4; 5; 6; 7; 8; 9; 10]%Z; intervalId := None |}
    (mk 11%Z)) as (_ & _ & _ & Heleventh & _ & _ & _ & Hfifo).
  split; [apply Hfifo; reflexivity | apply Heleventh; reflexivity].
Defined.

(** *** The aggregate estimate *)

Lemma insertBy_perm {A} (cmp : A -> A -> Q) (x : A) (l : list A) :
  insertBy cmp x l ≡ₚ x :: l.
Proof.
  induction l as [|y l IH]; simpl; [reflexivity |].
  destruct (Qle_bool (cmp x y) 0); [reflexivity |].
  rewrite IH. apply Permutation_swap.
Qed.

Lemma sortBy_perm {A} (cmp : A -> A -> Q) (l : list A) : sortBy cmp l ≡ₚ l.
Proof.
  induction l as [|x l IH]; simpl; [reflexivity |].
  rewrite insertBy_perm, IH. reflexivity.
Qed.

Lemma sortBy_length {A} (cmp : A -> A -> Q) (l : list A) :
  length (sortBy cmp l) = length l.
Proof. apply Permutation_length, sortBy_perm. Qed.

Lemma insertBy_sorted (x : SyncResult) (l : list SyncResult) :
  StronglySorted rttLe l -> StronglySorted rttLe (insertBy byRTT x l).
Proof.
  induction l as [|y l IH]; intros Hs; simpl.
  - repeat constructor.
  - apply StronglySorted_inv in Hs as [Hs Hy].
    destruct (Qle_bool (byRTT x y) 0) eqn:E.
    + apply Qle_bool_iff in E. unfold byRTT in E.
      assert (Hxy : rttLe x y) by (unfold rttLe; lra).
      constructor; [constructor; assumption |].
      constructor; [exact Hxy |].
      eapply Forall_impl; [exact Hy |].
      intros z Hz. unfold rttLe in *. lra.
    + assert (Hyx : rttLe y x).
      { unfold rttLe. destruct (Qlt_le_dec (roundTripTime x) (roundTripTime y)) as [Hlt|Hle];
          [| exact Hle].
        assert (Hc : Qle_bool (byRTT x y) 0 = true)
          by (apply Qle_bool_iff; unfold byRTT; lra).
        congruence. }
      constructor; [apply IH, Hs |].
      rewrite (insertBy_perm byRTT x l). constructor; assumption.
Qed.

Lemma sortBy_sorted (l : list SyncResult) : StronglySorted rttLe (sortBy byRTT l).
Proof.
  induction l as [|x l IH]; simpl; [constructor | apply insertBy_sorted, IH].
Qed.

Lemma reduceSum_Qsum (f : SyncResult -> Q) (l : list SyncResult) :
  reduceSum f l == Qsum (map f l).
Proof.
  unfold reduceSum.
  assert (Hgen : forall a, foldl (fun sum s => sum + f s) a l == a + Qsum (map f l)).
  { induction l as [|x l IH]; intros a; simpl.
    - lra.
    - rewrite IH. lra. }
  rewrite Hgen. lra.
Qed.

(** [Math.floor(n * 0.2)] is the integer quotient of [n] by 5. *)
Lemma trimCountOf_div (n : nat) : trimCountOf n = (n / 5)%nat.
Proof.
  unfold trimCountOf, Qfloor. cbn [Qmult inject_Z Qnum Qden Pos.mul].
  apply Nat2Z.inj. rewrite Z2Nat.id, Nat2Z.inj_div by (apply Z.div_pos; lia).
  change (Z.of_nat 5) with 5%Z.
  change (Z.pos (1 * 10)) with 10%Z.
  generalize (Z.of_nat n). intros z. Z.div_mod_to_equations. lia.
Qed.

(** Trimming never empties a non-empty set: the fallback of
    [getAverageResult] on an empty trimmed set is never taken. *)
Lemma trimOutliers_nonempty (sorted : list SyncResult) :
  sorted <> [] -> trimOutliers sorted <> [].
Proof.
  intros Hne Hnil. apply (f_equal length) in Hnil.
  change (length (@nil SyncResult)) with 0%nat in Hnil.
  unfold trimOutliers, slice in Hnil. rewrite trimCountOf_div in Hnil.
  rewrite length_drop, length_take in Hnil.
  assert (Hpos : (0 < length sorted)%nat) by (destruct sorted; [congruence | simpl; lia]).
  pose proof (Nat.Div0.mul_div_le (length sorted) 5) as Hdiv.
  destruct (Nat.eqb_spec (length sorted - length sorted / 5) 0) as [E|E]; lia.
Qed.

(** With 10 samples the trimmed set is entries 2 to 7 of the sorted array. *)
Lemma trimOutliers_10 (sorted : list SyncResult) :
  length sorted = 10%nat -> trimOutliers sorted = drop 2 (take 8 sorted).
Proof.
  intros Hlen. unfold trimOutliers, slice. rewrite Hlen. reflexivity.
Qed.

(** C3.  With exactly 10 samples in the ring, [getAverageResult] sorts
    them by [roundTripTime] ascending, leaves out the 2 lowest ([lo]) and
    the 2 highest ([hi]), and returns the mean [roundTripTime] and the mean
    [clockOffset] of the 6 in between ([mid]), each computed on its own.
    With no sample it returns [{roundTripTime: 0, clockOffset: 0}].  On an
    empty trimmed set the code returns the most recent sample (a case that
    [trimOutliers_nonempty] shows is never reached from a non-empty ring). *)
Theorem getAverageResult_trimmed_mean (e : SyncEngine) :
  length (samples e) = 10%nat ->
  (exists lo mid hi : list SyncResult,
     sortBy byRTT (samples e) = lo ++ mid ++ hi /\
     samples e ≡ₚ lo ++ mid ++ hi /\
     StronglySorted rttLe (lo ++ mid ++ hi) /\
     length lo = 2%nat /\ length mid = 6%nat /\ length hi = 2%nat /\
     (forall a b, a ∈ lo -> b ∈ mid -> roundTripTime a <= roundTripTime b) /\
     (forall b c, b ∈ mid -> c ∈ hi -> roundTripTime b <= roundTripTime c) /\
     roundTripTime (getAverageResult e) == Qsum (map roundTripTime mid) / 6 /\
     clockOffset (getAverageResult e) == Qsum (map clockOffset mid) / 6) /\
  (forall e0, samples e0 = [] ->
     getAverageResult e0 = {| roundTripTime := 0; clockOffset := 0 |}) /\
  (forall fallback, averageOrFallback fallback [] = fallback) /\
  (forall e0 newest, last (samples e0) = Some newest ->
     trimOutliers (sortBy byRTT (samples e0)) = [] ->
     getAverageResult e0 = newest).
Proof.
  intros Hlen. split; [| split; [| split]].
  - unfold getAverageResult.
    destruct (samples e) as [|s0 rest] eqn:Hs; [discriminate Hlen |].
    cbv beta iota zeta.
    remember (s0 :: rest) as l eqn:Hl. clear Hl Hs.
    set (sorted := sortBy byRTT l).
    assert (Hslen : length sorted = 10%nat)
      by (unfold sorted; rewrite sortBy_length; exact Hlen).
    assert (Hsplit : sorted = take 2 sorted ++ drop 2 (take 8 sorted) ++ drop 8 sorted).
    { rewrite app_assoc.
      replace (take 2 sorted) with (take 2 (take 8 sorted))
        by (rewrite take_take; reflexivity).
      rewrite !take_drop. reflexivity. }
    assert (Hsorted : StronglySorted rttLe sorted) by apply sortBy_sorted.
    exists (take 2 sorted), (drop 2 (take 8 sorted)), (drop 8 sorted).
    assert (Hmid : length (drop 2 (take 8 sorted)) = 6%nat)
      by (rewrite length_drop, length_take, Hslen; reflexivity).
    rewrite <- Hsplit.
    split; [reflexivity |].
    split; [symmetry; apply sortBy_perm |].
    split; [exact Hsorted |].
    split; [rewrite length_take, Hslen; reflexivity |].
    split; [exact Hmid |].
    split; [rewrite length_drop, Hslen; reflexivity |].
    rewrite Hsplit in Hsorted.
    split; [| split].
    + intros a b Ha Hb.
      apply (StronglySorted_app_1_elem_of rttLe _ _ a b Hsorted Ha).
      apply elem_of_app. left. exact Hb.
    + intros b c Hb Hc.
      apply StronglySorted_app_1_r in Hsorted.
      apply (StronglySorted_app_1_elem_of rttLe _ _ b c Hsorted Hb Hc).
    + rewrite (trimOutliers_10 sorted Hslen).
      unfold averageOrFallback. rewrite Hmid.
      cbn [Nat.eqb roundTripTime clockOffset].
      rewrite !reduceSum_Qsum. split; reflexivity.
  - intros e0 Hnil. unfold getAverageResult. rewrite Hnil. reflexivity.
  - intros fallback. reflexivity.
  - intros e0 newest Hlast Htrim. unfold getAverageResult.
    destruct (samples e0) as [|s0 rest] eqn:Hs; [discriminate Hlast |].
    rewrite Htrim, Hlast. reflexivity.
Qed.

Lemma getAverageResult_trimmed_mean_witness :
  let mk r o := {| roundTripTime := inject_Z r; clockOffset := inject_Z o |} in
  let e := {| samples :=
                [mk 90 1; mk 20 2; mk 70 3; mk 10 4; mk 50 5;
                 mk 100 6; mk 30 7; mk 60 8; mk 40 9; mk 80 10]%Z;
              intervalId := None |} in
  length (samples e) = 10%nat /\
  exists mid : list SyncResult,
    length mid = 6%nat /\
    roundTripTime (getAverageResult e) == Qsum (map roundTripTime mid) / 6 /\
    clockOffset (getAverageResult e) == Qsum (map clockOffset mid) / 6.
Proof.
  intros mk e. split; [reflexivity |].
  destruct (getAverageResult_trimmed_mean e eq_refl)
    as [(lo & mid & hi & _ & _ & _ & _ & Hmid & _ & _ & _ & Hrtt & Hoff) _].
  exists mid. split; [exact Hmid | split; [exact Hrtt | exact Hoff]].
Defined.

(** The aggregate on a concrete ring of 10: the samples with round-trip
    times 10, 20 and 90, 100 are left out, the means are those of the
    other six. *)
Example getAverageResult_example :
  let mk r o := {| roundTripTime := inject_Z r; clockOffset := inject_Z o |} in
  let e := {| samples :=
                [mk 90 1; mk 20 2; mk 70 3; mk 10 4; mk 50 5;
                 mk 100 6; mk 30 7; mk 60 8; mk 40 9; mk 80 10]%Z;
              intervalId := None |} in
  roundTripTime (getAverageResult e) == 55 /\
  clockOffset (getAverageResult e) == 7.
Proof. split; vm_compute; reflexivity. Qed.

(** *** Stopping continuous sync *)

(** A response delivered to the listeners [hs] calls [onSyncComplete] once
    per listener. *)
Lemma deliver_completed (t1 t2 t3 now : Q) (hs : list nat) (w : World) :
  length (completed
    (foldl (fun w' h => handleResponse h (SYNC_RESPONSE t1 t2 t3) now w') w hs)) =
  (length (completed w) + length hs)%nat.
Proof.
  revert w. induction hs as [|h hs IH]; intros w; simpl; [lia |].
  rewrite IH. simpl. rewrite length_app. simpl. lia.
Qed.

(** ... and leaves its sample as the newest entry of the ring. *)
Lemma deliver_last (t1 t2 t3 now : Q) (hs : list nat) (w : World) :
  hs <> [] ->
  last (samples (engine
    (foldl (fun w' h => handleResponse h (SYNC_RESPONSE t1 t2 t3) now w') w hs))) =
  Some (calculateOffset t1 t2 t3 now).
Proof.
  assert (Hkeep : forall hs' w',
    last (samples (engine w')) = Some (calculateOffset t1 t2 t3 now) ->
    last (samples (engine
      (foldl (fun w'' h => handleResponse h (SYNC_RESPONSE t1 t2 t3) now w'') w' hs'))) =
    Some (calculateOffset t1 t2 t3 now)).
  { induction hs' as [|h hs' IH]; intros w' Hw'; simpl; [exact Hw' |].
    apply IH. simpl. apply last_addSample. }
  destruct hs as [|h hs]; [congruence | intros _; simpl].
  apply Hkeep. simpl. apply last_addSample.
Qed.

(** C9 (as the code behaves).  [stopSync()] cancels the repeating interval
    timer and empties the sample ring, and nothing else: the response
    handlers of the probes still in flight, and the timeouts that will
    remove them, stay registered.  A sync response that arrives while such a
    handler [h] is registered is therefore still turned into a sample, which
    becomes the newest entry of the ring, and [onSyncComplete] is called
    once for every handler that was registered. *)
Theorem stopSync_leaves_pending_handlers
    (w : World) (h : nat) (t1 t2 t3 now : Q) :
  h ∈ listeners w ->
  let w' := step w CallStopSync in
  let w'' := step w' (DataArrives (SYNC_RESPONSE t1 t2 t3) now) in
  samples (engine w') = [] /\
  intervalId (engine w') = None /\
  (forall id now', step w' (IntervalFires id now') = w') /\
  listeners w' = listeners w /\
  timeouts w' = timeouts w /\
  last (samples (engine w'')) = Some (calculateOffset t1 t2 t3 now) /\
  length (completed w'') = (length (completed w) + length (listeners w))%nat.
Proof.
  intros Hh w' w''.
  split; [reflexivity |].
  split; [simpl; destruct (intervalId (engine w)); reflexivity |].
  split.
  { intros id now'. simpl. destruct (intervalId (engine w)); reflexivity. }
  split; [reflexivity |].
  split; [reflexivity |].
  subst w''. cbn [step].
  change (listeners w') with (listeners w).
  split.
  - apply deliver_last. intros Hnil. rewrite Hnil in Hh. inversion Hh.
  - rewrite deliver_completed. reflexivity.
Qed.

Lemma stopSync_leaves_pending_handlers_witness :
  let w := run initial [CallStartSync 1000] in
  let w'' := run w [CallStopSync; DataArrives (SYNC_RESPONSE 1000 1050 1060) 1120] in
  0%nat ∈ listeners w /\
  last (samples (engine w'')) = Some (calculateOffset 1000 1050 1060 1120) /\
  length (completed w'') = 1%nat.
Proof.
  intros w w''.
  assert (Hin : 0%nat ∈ listeners w) by (apply list_elem_of_here).
  split; [exact Hin |].
  destruct (stopSync_leaves_pending_handlers w 0%nat 1000 1050 1060 1120 Hin)
    as (_ & _ & _ & _ & _ & Hlast & Hdone).
  split; [exact Hlast | exact Hdone].
Defined.

(** C9 as stated fails.  A probe is issued at time 1000 by [startSync];
    [stopSync] is called; the response to the probe arrives at time 1120,
    before the probe's own timeout (due at 2000) can run.  The response adds
    a sample to the ring that [stopSync] had emptied, and [onSyncComplete]
    is called. *)
Lemma stopSync_stale_response_applied :
  let stopped := run initial [CallStartSync 1000; CallStopSync] in
  let after := step stopped (DataArrives (SYNC_RESPONSE 1000 1050 1060) 1120) in
  sent stopped = [SYNC_REQUEST 1000] /\
  existsb (isDue 0 1120) (timeouts stopped) = false /\
  samples (engine stopped) = [] /\ completed stopped = [] /\
  samples (engine after) = [calculateOffset 1000 1050 1060 1120] /\
  length (completed after) = 1%nat /\
  samples (engine after) <> samples (engine stopped) /\
  completed after <> completed stopped.
Proof.
  intros stopped after.
  repeat split; try reflexivity; discriminate.
Qed.

End SyncEngineProperties.

(** ** Base64 *)

Section Base64Properties.
Import Base64.
Local Open Scope N_scope.

(** [lia] with quotients and remainders by constants. *)
Ltac lia_div := zify; Z.to_euclidean_division_equations; lia.

(** Induction on a byte sequence three bytes at a time. *)
Lemma list_ind3 {A} (P : list A -> Prop) :
  P [] -> (forall x, P [x]) -> (forall x y, P [x; y]) ->
  (forall x y z l, P l -> P (x :: y :: z :: l)) ->
  forall l, P l.
Proof.
  intros H0 H1 H2 H3.
  assert (Hall : forall l, P l /\ (forall x, P (x :: l)) /\ (forall x y, P (x :: y :: l))).
  { induction l as [|a l (IH0 & IH1 & IH2)]; [auto |].
    split; [apply IH1 | split; [intros x; apply IH2 |]].
    intros x y. apply H3, IH0. }
  intros l. apply Hall.
Qed.

Lemma sextetOfChar_charOfSextet (n : N) :
  n < 64 -> sextetOfChar (charOfSextet n) = Some n.
Proof.
  intros Hn.
  assert (Hall : forallb (fun k => match sextetOfChar (charOfSextet k) with
                                   | Some k' => k' =? k | None => false end)
                         (map N.of_nat (seq 0 64)) = true) by (vm_compute; reflexivity).
  rewrite forallb_forall in Hall.
  specialize (Hall n). 
  assert (Hin : In n (map N.of_nat (seq 0 64))).
  { apply in_map_iff. exists (N.to_nat n). split; [lia |]. apply in_seq. lia. }
  specialize (Hall Hin).
  destruct (sextetOfChar (charOfSextet n)) as [k|]; [| discriminate].
  apply N.eqb_eq in Hall. congruence.
Qed.

(** A character of the alphabet is neither whitespace nor [=]. *)
Lemma alphabet_not_special (c : ascii) :
  is_Some (sextetOfChar c) -> isWhitespace c = false /\ Ascii.eqb c "=" = false.
Proof.
  destruct c as [[] [] [] [] [] [] [] []]; vm_compute; intros [k Hk];
    first [discriminate Hk | split; reflexivity].
Qed.

Lemma filter_Forall_id {A} (P : A -> Prop) `{forall x, Decision (P x)} (l : list A) :
  Forall P l -> filter P l = l.
Proof.
  induction 1 as [|x l Hx _ IH]; [reflexivity |].
  rewrite filter_cons_True by exact Hx. rewrite IH. reflexivity.
Qed.

Lemma sextets_bound (bs : list N) :
  Forall (fun b => b < 256) bs -> Forall (fun s => s < 64) (sextets bs).
Proof.
  induction bs as [| x | x y | x y z l IH] using list_ind3; intros Hbs.
  - constructor.
  - inversion_clear Hbs. repeat constructor; lia_div.
  - inversion_clear Hbs as [|? ? Hx Hl]. inversion_clear Hl.
    repeat constructor; lia_div.
  - inversion_clear Hbs as [|? ? Hx Hl]. inversion_clear Hl as [|? ? Hy Hl'].
    inversion_clear Hl' as [|? ? Hz Hl''].
    cbn [sextets]. repeat (constructor; [lia_div |]). apply IH, Hl''.
Qed.

(** The groups of six bits of a byte sequence give the bytes back. *)
Lemma bytesOfSextets_sextets (bs : list N) :
  Forall (fun b => b < 256) bs -> bytesOfSextets (sextets bs) = bs.
Proof.
  induction bs as [| x | x y | x y z l IH] using list_ind3; intros Hbs.
  - reflexivity.
  - inversion_clear Hbs. cbn [sextets bytesOfSextets]. f_equal. lia_div.
  - inversion_clear Hbs as [|? ? Hx Hl]. inversion_clear Hl.
    cbn [sextets bytesOfSextets]. f_equal; [lia_div |]. f_equal. lia_div.
  - inversion_clear Hbs as [|? ? Hx Hl]. inversion_clear Hl as [|? ? Hy Hl'].
    inversion_clear Hl' as [|? ? Hz Hl''].
    cbn [sextets bytesOfSextets]. rewrite (IH Hl'').
    f_equal; [lia_div |]. f_equal; [lia_div |]. f_equal. lia_div.
Qed.

Lemma padding_step (n : nat) : padding (S (S (S n))) = padding n.
Proof.
  unfold padding. replace (S (S (S n)) mod 3)%nat with (n mod 3)%nat by lia_div.
  reflexivity.
Qed.

(** The encoding is a whole number of four-character groups, and what
    precedes the padding is never one character more than that. *)
Lemma sextets_length (bs : list N) :
  (length (encode bs) mod 4 = 0)%nat /\ (length (sextets bs) mod 4 <> 1)%nat.
Proof.
  unfold encode. rewrite length_app, length_map.
  induction bs as [| x | x y | x y z l IH] using list_ind3.
  - split; [reflexivity | discriminate].
  - split; [reflexivity | discriminate].
  - split; [reflexivity | discriminate].
  - cbn [sextets length]. rewrite padding_step.
    destruct IH as [IH1 IH2]. split; lia_div.
Qed.

Lemma stripPadding_body (body : list ascii) :
  Forall (fun c => Ascii.eqb c "=" = false) body ->
  stripPadding body = body /\
  stripPadding (body ++ ["="%char]) = body /\
  stripPadding (body ++ ["="; "="]%char) = body.
Proof.
  intros Hbody.
  assert (Hrev : Forall (fun c => Ascii.eqb c "=" = false) (rev body))
    by (apply Forall_rev, Hbody).
  unfold stripPadding. rewrite !rev_app_distr. cbn [rev app].
  rewrite Ascii.eqb_refl.
  destruct (rev body) as [|c r] eqn:E.
  - apply (f_equal (@rev ascii)) in E. rewrite rev_involutive in E.
    subst body. repeat split; reflexivity.
  - inversion_clear Hrev as [|? ? Hc _]. rewrite Hc.
    rewrite <- E, rev_involutive. repeat split; reflexivity.
Qed.

Lemma encode_body_alphabet (bs : list N) :
  Forall (fun b => b < 256) bs ->
  Forall (fun c => isWhitespace c = false /\ Ascii.eqb c "=" = false)
         (map charOfSextet (sextets bs)).
Proof.
  intros Hbs. apply Forall_map.
  eapply Forall_impl; [apply sextets_bound, Hbs |].
  intros s Hs. apply alphabet_not_special.
  rewrite (sextetOfChar_charOfSextet s Hs). eexists; reflexivity.
Qed.

Lemma stripPadding_encode (bs : list N) :
  Forall (fun b => b < 256) bs ->
  stripPadding (encode bs) = map charOfSextet (sextets bs).
Proof.
  intros Hbs.
  assert (Hbody : Forall (fun c => Ascii.eqb c "=" = false) (map charOfSextet (sextets bs))).
  { eapply Forall_impl; [apply encode_body_alphabet, Hbs |]. intros c [_ Hc]. exact Hc. }
  destruct (stripPadding_body _ Hbody) as (H0 & H1 & H2).
  unfold encode, padding.
  destruct (length bs mod 3)%nat as [|[|[|k]]].
  - rewrite app_nil_r. exact H0.
  - exact H2.
  - exact H1.
  - rewrite app_nil_r. exact H0.
Qed.

Lemma encode_no_whitespace (bs : list N) :
  Forall (fun b => b < 256) bs ->
  filter (fun c => isWhitespace c = false) (encode bs) = encode bs.
Proof.
  intros Hbs. apply filter_Forall_id. unfold encode. apply Forall_app. split.
  - eapply Forall_impl; [apply encode_body_alphabet, Hbs |]. intros c [Hc _]. exact Hc.
  - unfold padding. destruct (length bs mod 3)%nat as [|[|[|k]]];
      repeat constructor.
Qed.

(** Decoding what [btoa] encoded gives the binary string back. *)
Lemma atob_btoa (binary : string) : atob (btoa binary) = Some binary.
Proof.
  unfold atob, btoa. rewrite list_ascii_of_string_of_list_ascii.
  set (bs := map N_of_ascii (list_ascii_of_string binary)).
  assert (Hbs : Forall (fun b => b < 256) bs).
  { unfold bs. apply Forall_map, Forall_forall. intros c _. apply N_ascii_bounded. }
  rewrite (encode_no_whitespace bs Hbs).
  destruct (sextets_length bs) as [Hlen4 Hlen1].
  rewrite Hlen4. cbn [Nat.eqb]. rewrite (stripPadding_encode bs Hbs).
  rewrite length_map.
  destruct (Nat.eqb_spec (length (sextets bs) mod 4) 1) as [E|_]; [contradiction |].
  rewrite mapM_fmap_Forall_Some.
  2:{ eapply Forall_impl; [apply sextets_bound, Hbs |].
      intros s Hs. apply sextetOfChar_charOfSextet, Hs. }
  rewrite (bytesOfSextets_sextets bs Hbs). unfold bs.
  rewrite map_map, (map_ext _ id), map_id by (intros c; apply ascii_N_embedding).
  rewrite string_of_list_ascii_of_string. reflexivity.
Qed.

(** [btoa] of a non-empty binary string is a non-empty string. *)
Lemma btoa_nonempty (binary : string) :
  binary <> EmptyString -> (0 < String.length (btoa binary))%nat.
Proof.
  intros Hne. destruct binary as [|c rest]; [congruence |].
  unfold btoa, encode. cbn [list_ascii_of_string map].
  destruct (map N_of_ascii (list_ascii_of_string rest)) as [|y [|z l]];
    cbn [sextets map app string_of_list_ascii String.length]; lia.
Qed.

End Base64Properties.

(** ** Chunking and reassembly *)

Section ChunkingProperties.
Import Protocol Base64 AudioEngine.

Lemma CHUNK_SIZE_value : N.of_nat CHUNK_SIZE = 16384%N.
Proof. vm_compute. reflexivity. Qed.

Lemma CHUNK_SIZE_pos : 0 < CHUNK_SIZE.
Proof. apply Nat.ltb_lt. vm_compute. reflexivity. Qed.

Opaque CHUNK_SIZE.

Lemma base64ToArrayBuffer_arrayBufferToBase64 (buffer : ArrayBuffer) :
  base64ToArrayBuffer (arrayBufferToBase64 buffer) = Ok buffer.
Proof.
  unfold base64ToArrayBuffer, arrayBufferToBase64. rewrite atob_btoa.
  rewrite list_ascii_of_string_of_list_ascii, map_map.
  rewrite (map_ext _ id), map_id by (intros b; apply byte_of_ascii_of_byte).
  reflexivity.
Qed.

Lemma arrayBufferToBase64_valid (buffer : ArrayBuffer) :
  buffer <> [] -> isValidChunk (Some (arrayBufferToBase64 buffer)) = true.
Proof.
  intros Hne. unfold isValidChunk, arrayBufferToBase64.
  apply Nat.ltb_lt, btoa_nonempty.
  destruct buffer; [congruence | discriminate].
Qed.

(** One turn of the loop of [chunkArrayBuffer]. *)
Lemma chunkLoop_unfold (buffer : ArrayBuffer) (offset : nat) (chunks : list string) :
  chunkLoop buffer offset chunks =
  if decide (offset < length buffer) then
    let chunkSize := CHUNK_SIZE `min` (length buffer - offset) in
    chunkLoop buffer (offset + chunkSize)
      (chunks ++ [arrayBufferToBase64 (slice offset (offset + chunkSize) buffer)])
  else chunks.
Proof.
  rewrite chunkLoop_equation_1.
  destruct (decide (offset < length buffer)); reflexivity.
Qed.

(** The loop appends the encodings of consecutive, non-empty pieces that
    together make up the rest of the buffer; every piece but the last is
    [CHUNK_SIZE] bytes long, and the last is no longer. *)
Lemma chunkLoop_pieces (buffer : ArrayBuffer) (n offset : nat) (chunks : list string) :
  length buffer - offset = n -> offset <= length buffer ->
  exists pieces : list ArrayBuffer,
    chunkLoop buffer offset chunks = chunks ++ map arrayBufferToBase64 pieces /\
    concat pieces = drop offset buffer /\
    Forall (fun p => p <> [] /\ length p <= CHUNK_SIZE) pieces /\
    Forall (fun p => length p = CHUNK_SIZE) (removelast pieces).
Proof.
  revert offset chunks.
  induction n as [n IH] using lt_wf_ind. intros offset chunks Hn Hle.
  rewrite chunkLoop_unfold.
  destruct (decide (offset < length buffer)) as [Hlt|Hge].
  - cbv zeta. pose proof CHUNK_SIZE_pos as Hpos.
    set (chunkSize := CHUNK_SIZE `min` (length buffer - offset)).
    assert (Hsize : 0 < chunkSize /\ chunkSize <= CHUNK_SIZE /\
                    offset + chunkSize <= length buffer) by (unfold chunkSize; lia).
    destruct (IH (length buffer - (offset + chunkSize)) ltac:(lia)
                 (offset + chunkSize)
                 (chunks ++ [arrayBufferToBase64 (slice offset (offset + chunkSize) buffer)])
                 eq_refl ltac:(lia)) as (pieces & Hloop & Hcat & Hall & Hfull).
    assert (Hlen : length (slice offset (offset + chunkSize) buffer) = chunkSize)
      by (unfold slice; rewrite length_drop, length_take; lia).
    exists (slice offset (offset + chunkSize) buffer :: pieces).
    split; [| split; [| split]].
    + rewrite Hloop, <- app_assoc. reflexivity.
    + cbn [concat]. rewrite Hcat. unfold slice.
      apply drop_take_drop. lia.
    + constructor; [| exact Hall].
      split; [| lia].
      intros Hnil. rewrite Hnil in Hlen. simpl in Hlen. lia.
    + destruct pieces as [|p pieces']; [constructor |].
      change (removelast (slice offset (offset + chunkSize) buffer :: p :: pieces'))
        with (slice offset (offset + chunkSize) buffer :: removelast (p :: pieces')).
      constructor; [| exact Hfull].
      (* a further piece exists, so this one did not reach the end *)
      assert (Hmore : offset + chunkSize < length buffer).
      { destruct (decide (offset + chunkSize < length buffer)) as [Hm|Hm]; [exact Hm |].
        rewrite drop_ge in Hcat by lia.
        inversion_clear Hall as [|? ? [Hp _] _].
        cbn [concat] in Hcat. destruct p; [congruence | discriminate Hcat]. }
      rewrite Hlen. unfold chunkSize. lia.
  - exists []. split; [| split; [| split]].
    + rewrite app_nil_r. reflexivity.
    + symmetry. apply drop_ge. lia.
    + constructor.
    + constructor.
Qed.

Lemma chunkArrayBuffer_pieces (buffer : ArrayBuffer) :
  exists pieces : list ArrayBuffer,
    chunkArrayBuffer buffer = map arrayBufferToBase64 pieces /\
    concat pieces = buffer /\
    Forall (fun p => p <> [] /\ length p <= CHUNK_SIZE) pieces /\
    Forall (fun p => length p = CHUNK_SIZE) (removelast pieces).
Proof.
  destruct (chunkLoop_pieces buffer (length buffer - 0) 0 [] eq_refl ltac:(lia))
    as (pieces & Hloop & Hcat & Hall & Hfull).
  exists pieces. repeat split; assumption.
Qed.

Lemma omap_id_Some {A} (l : list A) : omap id (map Some l) = l.
Proof. induction l as [|x l IH]; [reflexivity |]. cbn. rewrite IH. reflexivity. Qed.

Lemma decodeAll_encoded (pieces : list ArrayBuffer) :
  decodeAll (map arrayBufferToBase64 pieces) = Ok pieces.
Proof.
  induction pieces as [|p pieces IH]; [reflexivity |].
  cbn [map decodeAll]. rewrite base64ToArrayBuffer_arrayBufferToBase64, IH.
  reflexivity.
Qed.

(** Reassembling the encodings of non-empty pieces concatenates the pieces. *)
Lemma reassembleChunks_encoded (pieces : list ArrayBuffer) :
  pieces <> [] -> Forall (fun p => p <> []) pieces ->
  reassembleChunks (map Some (map arrayBufferToBase64 pieces)) = Ok (concat pieces).
Proof.
  intros Hne Hall. unfold reassembleChunks.
  rewrite filter_Forall_id.
  2:{ rewrite !Forall_map. eapply Forall_impl; [exact Hall |].
      intros p Hp. apply arrayBufferToBase64_valid, Hp. }
  rewrite omap_id_Some, length_map.
  destruct pieces as [|p pieces]; [congruence |].
  cbn [length Nat.eqb]. rewrite decodeAll_encoded. reflexivity.
Qed.

(** Every non-empty payload survives chunking and reassembly. *)
Lemma roundtrip_nonempty (payload : ArrayBuffer) :
  payload <> [] ->
  reassembleChunks (map Some (chunkArrayBuffer payload)) = Ok payload.
Proof.
  intros Hne.
  destruct (chunkArrayBuffer_pieces payload) as (pieces & Hchunks & Hcat & Hall & _).
  rewrite Hchunks, reassembleChunks_encoded, Hcat; [reflexivity | |].
  - intros Hnil. subst pieces. simpl in Hcat. congruence.
  - eapply Forall_impl; [exact Hall |]. intros p [Hp _]. exact Hp.
Qed.

(** C2 (as the code behaves).  For every payload of [N >= 1] bytes, so
    for [N] any of 1, 16384, 16385 and 100000, [chunkArrayBuffer] encodes
    consecutive pieces of the payload, each of [CHUNK_SIZE = 16384] bytes
    but the last, which may be shorter, and [reassembleChunks] applied to the resulting
    chunk list returns the payload, byte for byte.  For [N = 0],
    [chunkArrayBuffer] returns no chunk and [reassembleChunks] throws
    'No valid audio chunks received'. *)
Theorem chunk_reassemble_roundtrip (payload : ArrayBuffer) :
  let N := N.of_nat (length payload) in
  ((1 <= N)%N ->
     (exists pieces : list ArrayBuffer,
        chunkArrayBuffer payload = map arrayBufferToBase64 pieces /\
        concat pieces = payload /\
        Forall (fun p => 0 < length p <= CHUNK_SIZE) pieces /\
        Forall (fun p => length p = CHUNK_SIZE) (removelast pieces)) /\
     reassembleChunks (map Some (chunkArrayBuffer payload)) = Ok payload) /\
  (N = 0%N ->
     chunkArrayBuffer payload = [] /\
     reassembleChunks (map Some (chunkArrayBuffer payload)) = Throw NoValidChunks).
Proof.
  intros N. split.
  - intros HN. split.
    + destruct (chunkArrayBuffer_pieces payload) as (pieces & Hchunks & Hcat & Hall & Hfull).
      exists pieces. split; [exact Hchunks | split; [exact Hcat | split]].
      * eapply Forall_impl; [exact Hall |]. intros p [Hp Hle].
        split; [| exact Hle].
        destruct p; [congruence | simpl; lia].
      * exact Hfull.
    + apply roundtrip_nonempty. intros Hnil. subst payload N. simpl in HN. lia.
  - intros HN.
    assert (Hnil : payload = [])
      by (destruct payload; [reflexivity | subst N; simpl in HN; lia]).
    subst payload. split; reflexivity.
Qed.

Lemma chunk_reassemble_roundtrip_witness :
  (1 <= N.of_nat (length ["M"; "a"; "n"]%byte))%N /\
  reassembleChunks (map Some (chunkArrayBuffer ["M"; "a"; "n"]%byte)) =
  Ok ["M"; "a"; "n"]%byte /\
  N.of_nat (length (@nil byte)) = 0%N /\
  reassembleChunks (map Some (chunkArrayBuffer [])) = Throw NoValidChunks.
Proof.
  assert (H3 : (1 <= N.of_nat (length ["M"; "a"; "n"]%byte))%N) by (simpl; lia).
  split; [exact H3 |]. split.
  - apply (chunk_reassemble_roundtrip ["M"; "a"; "n"]%byte). exact H3.
  - split; [reflexivity |].
    apply (chunk_reassemble_roundtrip []). reflexivity.
Defined.

(** The round trip at the four sizes of the specification. *)
Corollary roundtrip_listed_sizes (payload : ArrayBuffer) :
  (N.of_nat (length payload) = 1 \/ N.of_nat (length payload) = 16384 \/
   N.of_nat (length payload) = 16385 \/ N.of_nat (length payload) = 100000)%N ->
  reassembleChunks (map Some (chunkArrayBuffer payload)) = Ok payload.
Proof.
  intros HN. apply roundtrip_nonempty. intros Hnil. subst payload.
  simpl in HN. lia.
Qed.

(** Three bytes make one chunk; 40000 bytes make three. *)
Example chunkArrayBuffer_Man : chunkArrayBuffer ["M"; "a"; "n"]%byte = ["TWFu"%string].
Proof. vm_compute. reflexivity. Qed.

Example chunkArrayBuffer_40000 :
  length (chunkArrayBuffer (replicate (40 * 1000) "000"%byte)) = 3.
Proof. vm_compute. reflexivity. Qed.

(** C2 as stated fails for [N = 0]: chunking the empty payload and
    reassembling the result does not return the empty payload, it throws. *)
Lemma chunk_reassemble_empty_throws :
  length (@nil byte) = 0%nat /\
  chunkArrayBuffer [] = [] /\
  reassembleChunks (map Some (chunkArrayBuffer [])) = Throw NoValidChunks /\
  reassembleChunks (map Some (chunkArrayBuffer [])) <> Ok [].
Proof. repeat split; try reflexivity. discriminate. Qed.

End ChunkingProperties.

(** ** Scheduled playback *)

Section SchedulePlayProperties.
Import AudioEngine.
Local Open Scope Q_scope.

(** With the deadline still ahead, [schedulePlay] seeks to [seekPosition]
    and starts the player there after a delay that is positive: the time
    left to the deadline, in seconds. *)
Lemma schedulePlay_future (scheduledTime seekPosition clockOffset now toneNow : Q)
    (a : AudioEngine) (calls : list PlayerCall) :
  player a = Some calls -> isReady a = true ->
  now < scheduledTime - clockOffset ->
  exists delay,
    0 < delay /\ delay == (scheduledTime - clockOffset - now) / 1000 /\
    player (schedulePlay scheduledTime seekPosition clockOffset now toneNow a) =
    Some (calls ++ [PlayerSeek seekPosition;
                    PlayerStart (toneNow + delay) seekPosition]).
Proof.
  intros Hp Hr Hfuture.
  set (x := (scheduledTime - clockOffset - now) / 1000).
  assert (Hx : 0 < x).
  { unfold x, Qdiv. change (/ 1000) with (1 # 1000). lra. }
  exists (Qmax 0 x).
  assert (Hmax : Qmax 0 x == x) by (apply Q.max_r; lra).
  split; [rewrite Hmax; exact Hx | split; [exact Hmax |]].
  unfold schedulePlay. rewrite Hp, Hr. cbn [negb]. fold x.
  assert (Hlt : Qlt_bool 0 (Qmax 0 x) = true)
    by (apply Qlt_bool_true; rewrite Hmax; exact Hx).
  rewrite Hlt. cbn [player]. rewrite <- app_assoc. reflexivity.
Qed.

(** With the deadline passed, by however much, the delay is clamped to 0,
    so [lateBy] is 0 and [adjustedSeek] is [seekPosition]: the player is
    started at once at [seekPosition] when [seekPosition] is below the
    duration, and not started otherwise. *)
Lemma schedulePlay_late (scheduledTime seekPosition clockOffset now toneNow : Q)
    (a : AudioEngine) (calls : list PlayerCall) :
  player a = Some calls -> isReady a = true ->
  scheduledTime - clockOffset <= now ->
  exists pos,
    pos == seekPosition /\
    player (schedulePlay scheduledTime seekPosition clockOffset now toneNow a) =
    Some (calls ++ PlayerSeek seekPosition ::
            (if Qlt_bool seekPosition (getDuration a)
             then [PlayerStart toneNow pos] else [])).
Proof.
  intros Hp Hr Hlate.
  set (x := (scheduledTime - clockOffset - now) / 1000).
  assert (Hx : x <= 0).
  { unfold x, Qdiv. change (/ 1000) with (1 # 1000). lra. }
  assert (Hmax : Qmax 0 x == 0) by (apply Q.max_l; exact Hx).
  exists (seekPosition + - Qmax 0 x).
  split; [rewrite Hmax; lra |].
  unfold schedulePlay. rewrite Hp, Hr. cbn [negb]. fold x.
  assert (Hlt : Qlt_bool 0 (Qmax 0 x) = false)
    by (apply Qlt_bool_false; rewrite Hmax; lra).
  rewrite Hlt. cbn [player].
  destruct (Qlt_bool (seekPosition + - Qmax 0 x) (getDuration a)) eqn:E1;
    destruct (Qlt_bool seekPosition (getDuration a)) eqn:E2.
  - rewrite <- app_assoc. reflexivity.
  - apply Qlt_bool_true in E1. apply Qlt_bool_false in E2.
    rewrite Hmax in E1. exfalso. lra.
  - apply Qlt_bool_false in E1. apply Qlt_bool_true in E2.
    rewrite Hmax in E1. exfalso. lra.
  - reflexivity.
Qed.

(** C7 on two late calls.  The player is ready with 60 s of audio, the
    deadline (1000 on the local clock) has passed by [X = 2000] ms when
    [schedulePlay] runs at 3000.
    - With [seekPosition = 5], [seekPosition + X/1000 = 7 < 60]: the
      player is started at once, at position 5, not at 7.
    - With [seekPosition = 59], [seekPosition + X/1000 = 61 > 60]: the
      player is started all the same, at position 59. *)
Theorem schedulePlay_late_ignores_lateness :
  let a := {| player := Some []; buffer := Some 60; scheduledEventId := None;
              isReady := true; transport := [] |} in
  (exists pos,
     player (schedulePlay 1000 5 0 3000 12 a) =
       Some [PlayerSeek 5; PlayerStart 12 pos] /\
     pos == 5 /\ ~ pos == 5 + 2000 / 1000) /\
  (exists pos,
     player (schedulePlay 1000 59 0 3000 12 a) =
       Some [PlayerSeek 59; PlayerStart 12 pos] /\
     pos == 59 /\ 60 < 59 + 2000 / 1000).
Proof.
  intros a. split.
  - eexists. split; [vm_compute; reflexivity |].
    split; [reflexivity | vm_compute; discriminate].
  - eexists. split; [vm_compute; reflexivity |].
    split; reflexivity.
Qed.

End SchedulePlayProperties.

(** ** The receiver's transfer session *)

Section TransferSessionProperties.
Import Protocol PeerManager.

(** Once the session of a link is closed, the completion sentinel changes
    nothing but the console, where it leaves 'Audio already processed'. *)
Lemma sentinel_after_session_closed (clk : Clocks) (peer : string) (s : System) :
  audioChunks (pm s) !! peer = None ->
  handleMessage clk peer AUDIO_COMPLETE s = log LogAlreadyProcessed s.
Proof. intros Hclosed. unfold handleMessage. rewrite Hclosed. reflexivity. Qed.

(** When [reassembleChunks] returns a buffer, [processReceivedAudio] is
    suspended on the decoding with the session still open: [audioMeta] and
    the link's entry of [audioChunks] are as before. *)
Lemma processReceivedAudio_suspended (peer : string) (snapshot : Store.MeshBeatState)
    (s : System) (meta : AudioMeta) (chunks : list (option string))
    (buffer : list byte) :
  audioMeta (pm s) = Some meta ->
  audioChunks (pm s) !! peer = Some chunks ->
  AudioEngine.reassembleChunks chunks = AudioEngine.Ok buffer ->
  let s' := processReceivedAudio peer snapshot s in
  pm s' = pm s /\ store s' = store s /\ audio s' = audio s /\
  console s' = console s ++ [LogReassembled (length buffer)] /\
  length (loads s') = S (length (loads s)).
Proof.
  intros Hmeta Hchunks Hok. unfold processReceivedAudio.
  rewrite Hmeta, Hchunks, Hok. cbn.
  repeat split; try reflexivity. rewrite length_app. simpl. lia.
Qed.

Lemma reassemblies_log (l : Log) (s : System) :
  reassemblies (log l s) =
  (reassemblies s + if isReassembled l then 1 else 0)%nat.
Proof.
  unfold reassemblies, log. cbn [console].
  rewrite filter_app, length_app. f_equal.
  destruct l; reflexivity.
Qed.

(** The sentinel of a transfer whose chunks have all arrived, handled
    while the load that the last chunk started is still being decoded,
    reassembles the chunks a second time and starts a second load. *)
Lemma sentinel_during_decoding (clk : Clocks) (peer : string) (s : System)
    (meta : AudioMeta) (chunks : list (option string)) (buffer : list byte) :
  audioMeta (pm s) = Some meta ->
  audioChunks (pm s) !! peer = Some chunks ->
  countDefined chunks = meta_totalChunks meta ->
  (0 < meta_totalChunks meta)%nat ->
  AudioEngine.reassembleChunks chunks = AudioEngine.Ok buffer ->
  let suspended := processReceivedAudio peer (store s) s in
  let after := handleMessage clk peer AUDIO_COMPLETE suspended in
  reassemblies suspended = S (reassemblies s) /\
  reassemblies after = S (S (reassemblies s)) /\
  length (loads after) = S (S (length (loads s))).
Proof.
  intros Hmeta Hchunks Hcount Hpos Hok suspended after.
  destruct (processReceivedAudio_suspended peer (store s) s meta chunks buffer
              Hmeta Hchunks Hok) as (Hpm & Hstore & Haudio & Hcons & Hloads).
  fold suspended in Hpm, Hstore, Haudio, Hcons, Hloads.
  assert (Hr1 : reassemblies suspended = S (reassemblies s)).
  { unfold reassemblies. rewrite Hcons, filter_app, length_app. simpl. lia. }
  assert (Hmeta' : audioMeta (pm suspended) = Some meta) by (rewrite Hpm; exact Hmeta).
  assert (Hchunks' : audioChunks (pm suspended) !! peer = Some chunks)
    by (rewrite Hpm; exact Hchunks).
  assert (Hafter : after = processReceivedAudio peer (store suspended) suspended).
  { unfold after, handleMessage. rewrite Hchunks', Hmeta', Hcount.
    destruct (Nat.ltb_spec 0 (meta_totalChunks meta)) as [_|Hle]; [reflexivity | lia]. }
  destruct (processReceivedAudio_suspended peer (store suspended) suspended meta
              chunks buffer Hmeta' Hchunks' Hok) as (_ & _ & _ & Hcons2 & Hloads2).
  rewrite <- Hafter in Hcons2, Hloads2.
  split; [exact Hr1 | split].
  - unfold reassemblies in *. rewrite Hcons2, filter_app, length_app, Hr1. simpl. lia.
  - rewrite Hloads2, Hloads. reflexivity.
Qed.

(** C6 on a transfer of one chunk.  The receiver gets the metadata
    ([totalChunks = 1]), then the chunk, whose arrival fills the last slot
    and triggers reassembly, then the completion sentinel, which arrives
    before the decoding of the reassembled buffer has settled.  Handling
    the sentinel is not a no-op: it reassembles the chunks a second time
    and starts a second load.  Had the decoding settled first, the
    sentinel would have found the session closed and changed nothing but
    the console. *)
Theorem sentinel_before_decode_reassembles_twice :
  let clk := {| dateNow := 0; performanceNow := 0; toneNow := 0 |} in
  let meta := AUDIO_META "song.mp3" 3 180 "audio/mpeg" 1 in
  let chunk := AUDIO_CHUNK 0 1 "TWFu" in
  let received := run initial [Receive clk "host" meta; Receive clk "host" chunk] in
  let after := step received (Receive clk "host" AUDIO_COMPLETE) in
  let settled := step received (DecodeSettles clk 0 (Some 180%Q)) in
  let afterSettled := step settled (Receive clk "host" AUDIO_COMPLETE) in
  (* all the chunks have arrived and the threshold has triggered reassembly *)
  (countDefined <$> audioChunks (pm received) !! "host" = Some 1%nat /\
   console received = [LogAllChunksReceived; LogReassembled 3] /\
   length (loads received) = 1%nat) /\
  (* the sentinel reassembles again *)
  (console after = [LogAllChunksReceived; LogReassembled 3; LogReassembled 3] /\
   reassemblies after = 2%nat /\
   length (loads after) = 2%nat) /\
  (* with the decoding settled first, it does not *)
  (reassemblies afterSettled = 1%nat /\
   pm afterSettled = pm settled /\ store afterSettled = store settled /\
   audio afterSettled = audio settled /\ loads afterSettled = loads settled).
Proof.
  intros clk meta chunk received after settled afterSettled.
  repeat split; vm_compute; reflexivity.
Qed.

Lemma sentinel_during_decoding_witness :
  let clk := {| dateNow := 0; performanceNow := 0; toneNow := 0 |} in
  let s := run initial
    [Receive clk "host" (AUDIO_META "song.mp3" 3 180 "audio/mpeg" 2);
     Receive clk "host" (AUDIO_CHUNK 0 2 "TWFu");
     Receive clk "host" (AUDIO_META "song.mp3" 3 180 "audio/mpeg" 1)] in
  let s := setAudioChunks (<["host" := [Some "TWFu"]]> (audioChunks (pm s))) s in
  reassemblies
    (handleMessage clk "host" AUDIO_COMPLETE (processReceivedAudio "host" (store s) s)) =
  2%nat.
Proof.
  intros clk s0 s.
  apply (sentinel_during_decoding clk "host" s
           {| meta_name := "song.mp3"; meta_size := 3; meta_duration := 180;
              meta_mimeType := "audio/mpeg"; meta_totalChunks := 1 |}
           [Some "TWFu"] ["M"; "a"; "n"]%byte).
  - reflexivity.
  - vm_compute. reflexivity.
  - reflexivity.
  - simpl. lia.
  - vm_compute. reflexivity.
Defined.

End TransferSessionProperties.

(** ** Master handoff *)

Section MasterProperties.
Import Protocol PeerManager.

(** C10.  When [connections] holds a connection to [peerId] (the
    connection is open), [grantMaster(peerId)] sends the grant message on
    that connection, and on no other, and sets the local [isMaster] to
    [false]; nothing else changes.  When it holds none, [grantMaster] sends
    nothing and leaves the whole state, [isMaster] included, as it was. *)
Theorem grantMaster_spec (peerId : string) (s : System) :
  (forall sent : list ProtocolMessage,
     connections (pm s) !! peerId = Some sent ->
     let s' := grantMaster peerId s in
     connections (pm s') !! peerId = Some (sent ++ [GRANT_MASTER peerId]) /\
     (forall other, other <> peerId ->
        connections (pm s') !! other = connections (pm s) !! other) /\
     Store.isMaster (store s') = false /\
     store s' = Store.setIsMaster false (store s) /\
     audioChunks (pm s') = audioChunks (pm s) /\
     audioMeta (pm s') = audioMeta (pm s) /\
     pendingPlaybackState (pm s') = pendingPlaybackState (pm s) /\
     audio s' = audio s /\ loads s' = loads s /\ console s' = console s) /\
  (connections (pm s) !! peerId = None -> grantMaster peerId s = s).
Proof.
  split.
  - intros sent Hconn s'. subst s'. unfold grantMaster. rewrite Hconn.
    cbn. split; [| split; [| repeat split]].
    + rewrite lookup_alter_eq, Hconn. reflexivity.
    + intros other Hne. apply lookup_alter_ne. congruence.
  - intros Hnone. unfold grantMaster. rewrite Hnone. reflexivity.
Qed.

Lemma grantMaster_spec_witness :
  let host := connectionOpened "guest-1" (storeSetIsMaster true initial) in
  (Store.isMaster (store host) = true /\
   connections (pm host) !! "guest-1" = Some [] /\
   connections (pm (grantMaster "guest-1" host)) !! "guest-1" =
     Some [GRANT_MASTER "guest-1"] /\
   Store.isMaster (store (grantMaster "guest-1" host)) = false) /\
  (connections (pm host) !! "guest-2" = None /\
   grantMaster "guest-2" host = host).
Proof.
  intros host.
  assert (H1 : connections (pm host) !! "guest-1" = Some [])
    by (vm_compute; reflexivity).
  assert (H2 : connections (pm host) !! "guest-2" = None)
    by (vm_compute; reflexivity).
  split.
  - destruct (grantMaster_spec "guest-1" host) as [Hopen _].
    destruct (Hopen [] H1) as (Hsent & _ & Hmaster & _).
    split; [reflexivity | split; [exact H1 | split; [exact Hsent | exact Hmaster]]].
  - destruct (grantMaster_spec "guest-2" host) as [_ Hnone].
    split; [exact H2 | exact (Hnone H2)].
Defined.

End MasterProperties.

(** * Further properties *)

(** ** The offset computation and the aggregate *)

Section SyncEngineFurther.
Import Protocol SyncEngine.
Local Open Scope Q_scope.

Ltac qlra := unfold Qdiv in *; change (/ 2) with (1 # 2) in *; lra.

(** The two-way exchange measures what it is meant to.  Let the remote
    clock read the local clock plus [theta]; let the request take [d1] ms
    to travel and the response [d2] ms, and let the responder hold the
    request for [p] ms.  Then the round-trip time computed is [d1 + d2],
    and the offset computed is [theta] plus half the asymmetry of the two
    delays, provided that value is at most 10000 ms in absolute value; with
    equal delays it is [theta]. *)
Theorem calculateOffset_measures_offset (t1 theta d1 d2 p : Q) :
  0 <= d1 -> 0 <= d2 ->
  Qabs (theta + (d1 - d2) / 2) <= 10000 ->
  let t2 := t1 + d1 + theta in
  let t3 := t2 + p in
  let t4 := t1 + d1 + p + d2 in
  roundTripTime (calculateOffset t1 t2 t3 t4) == d1 + d2 /\
  clockOffset (calculateOffset t1 t2 t3 t4) == theta + (d1 - d2) / 2 /\
  (d1 == d2 -> clockOffset (calculateOffset t1 t2 t3 t4) == theta).
Proof.
  intros Hd1 Hd2 Hplausible t2 t3 t4.
  apply Qabs_Qle_condition in Hplausible.
  rewrite calculateOffset_unfold. cbn [roundTripTime clockOffset].
  assert (Hrtt : Qlt_bool (t4 - t1 - (t3 - t2)) 0 = false)
    by (apply Qlt_bool_false; unfold t4, t3, t2; lra).
  assert (Hoff : Qlt_bool 10000 (Qabs ((t2 - t1 + (t3 - t4)) / 2)) = false).
  { apply Qlt_bool_false, Qabs_Qle_condition. unfold t4, t3, t2. split; qlra. }
  rewrite Hrtt, Hoff. unfold t4, t3, t2.
  split; [lra | split; [qlra | intros Heq; qlra]].
Qed.

Lemma calculateOffset_measures_offset_witness :
  roundTripTime (calculateOffset 1000 (1000 + 40 + 250) (1000 + 40 + 250 + 5)
                   (1000 + 40 + 5 + 40)) == 40 + 40 /\
  clockOffset (calculateOffset 1000 (1000 + 40 + 250) (1000 + 40 + 250 + 5)
                 (1000 + 40 + 5 + 40)) == 250.
Proof.
  destruct (calculateOffset_measures_offset 1000 250 40 40 5) as (Hrtt & _ & Hsym).
  - lra.
  - lra.
  - vm_compute. discriminate.
  - split; [exact Hrtt | apply Hsym; reflexivity].
Defined.

(** For a ring of any length [n >= 1] the aggregate leaves out the
    [n / 5] samples of lowest and the [n / 5] samples of highest round-trip
    time and returns the two means of the others, of which there is at
    least one; with fewer than 5 samples none is left out. *)
Theorem getAverageResult_general (e : SyncEngine) :
  samples e <> [] ->
  let n := length (samples e) in
  exists lo mid hi : list SyncResult,
    sortBy byRTT (samples e) = lo ++ mid ++ hi /\
    samples e ≡ₚ lo ++ mid ++ hi /\
    StronglySorted rttLe (lo ++ mid ++ hi) /\
    length lo = (n / 5)%nat /\ length hi = (n / 5)%nat /\
    length mid = (n - 2 * (n / 5))%nat /\ mid <> [] /\
    ((n < 5)%nat -> mid = sortBy byRTT (samples e)) /\
    roundTripTime (getAverageResult e) ==
      Qsum (map roundTripTime mid) / inject_Z (Z.of_nat (length mid)) /\
    clockOffset (getAverageResult e) ==
      Qsum (map clockOffset mid) / inject_Z (Z.of_nat (length mid)).
Proof.
  intros Hne n. unfold getAverageResult.
  destruct (samples e) as [|s0 rest] eqn:Hs; [congruence |].
  cbv beta iota zeta.
  remember (s0 :: rest) as l eqn:Hl.
  assert (Hpos : (0 < n)%nat) by (unfold n; subst l; simpl; lia).
  set (sorted := sortBy byRTT l).
  assert (Hslen : length sorted = n) by (unfold sorted; apply sortBy_length).
  pose proof (Nat.Div0.mul_div_le n 5) as Hdiv.
  set (k := (n / 5)%nat) in *.
  assert (Htrim : trimOutliers sorted = drop k (take (n - k) sorted)).
  { unfold trimOutliers, slice. rewrite Hslen, trimCountOf_div. fold k.
    destruct (Nat.eqb_spec (n - k) 0) as [E|_]; [lia | reflexivity]. }
  assert (Hsplit : sorted = take k sorted ++ drop k (take (n - k) sorted) ++ drop (n - k) sorted).
  { rewrite app_assoc.
    replace (take k sorted) with (take k (take (n - k) sorted))
      by (rewrite take_take; f_equal; lia).
    rewrite !take_drop. reflexivity. }
  assert (Hmid : length (drop k (take (n - k) sorted)) = (n - 2 * k)%nat)
    by (rewrite length_drop, length_take, Hslen; lia).
  exists (take k sorted), (drop k (take (n - k) sorted)), (drop (n - k) sorted).
  rewrite <- Hsplit.
  split; [reflexivity |].
  split; [symmetry; apply sortBy_perm |].
  split; [apply sortBy_sorted |].
  split; [rewrite length_take, Hslen; lia |].
  split; [rewrite length_drop, Hslen; lia |].
  split; [exact Hmid |].
  split.
  { intros Hnil. rewrite Hnil in Hmid. simpl in Hmid. lia. }
  split.
  { intros Hsmall. assert (Hk : k = 0%nat) by (unfold k; apply Nat.div_small; lia).
    rewrite Hk, Nat.sub_0_r, drop_0, <- Hslen, firstn_all. reflexivity. }
  rewrite Htrim. unfold averageOrFallback.
  destruct (Nat.eqb_spec (length (drop k (take (n - k) sorted))) 0) as [E|_]; [lia |].
  cbn [roundTripTime clockOffset]. rewrite !reduceSum_Qsum. split; reflexivity.
Qed.

Lemma getAverageResult_general_witness :
  let mk r o := {| roundTripTime := inject_Z r; clockOffset := inject_Z o |} in
  let e := {| samples := [mk 30 4; mk 10 8; mk 20 6]%Z; intervalId := None |} in
  exists mid : list SyncResult,
    mid = sortBy byRTT (samples e) /\
    roundTripTime (getAverageResult e) ==
      Qsum (map roundTripTime mid) / inject_Z (Z.of_nat (length mid)).
Proof.
  intros mk e.
  destruct (getAverageResult_general e ltac:(discriminate))
    as (lo & mid & hi & _ & _ & _ & _ & _ & _ & _ & Hall & Hrtt & _).
  exists mid. split; [apply Hall; simpl; lia | exact Hrtt].
Defined.

(** *** Every estimate the engine reports is plausible *)

(** A sum of [n] numbers that are at least [a] is at least [n * a]. *)
Lemma Qsum_lower (a : Q) (l : list Q) :
  Forall (fun x => a <= x) l -> inject_Z (Z.of_nat (length l)) * a <= Qsum l.
Proof.
  induction 1 as [|x l Hx _ IH].
  - change (0 * a <= 0). lra.
  - cbn [length Qsum foldr]. fold (Qsum l).
    rewrite Nat2Z.inj_succ. unfold Z.succ. rewrite inject_Z_plus.
    change (inject_Z 1) with 1. rewrite Qmult_plus_distr_l.
    set (m := inject_Z (Z.of_nat (length l)) * _) in *. lra.
Qed.

Lemma Qsum_upper (b : Q) (l : list Q) :
  Forall (fun x => x <= b) l -> Qsum l <= inject_Z (Z.of_nat (length l)) * b.
Proof.
  induction 1 as [|x l Hx _ IH].
  - change (0 <= 0 * b). lra.
  - cbn [length Qsum foldr]. fold (Qsum l).
    rewrite Nat2Z.inj_succ. unfold Z.succ. rewrite inject_Z_plus.
    change (inject_Z 1) with 1. rewrite Qmult_plus_distr_l.
    set (m := inject_Z (Z.of_nat (length l)) * _) in *. lra.
Qed.

Lemma length_pos_Q {A} (l : list A) : l <> [] -> 0 < inject_Z (Z.of_nat (length l)).
Proof.
  intros Hne. destruct l; [congruence |].
  change 0 with (inject_Z 0). rewrite <- Zlt_Qlt. simpl. lia.
Qed.

Lemma mean_lower (a : Q) (l : list Q) :
  l <> [] -> Forall (fun x => a <= x) l ->
  a <= Qsum l / inject_Z (Z.of_nat (length l)).
Proof.
  intros Hne Hall. apply Qle_shift_div_l; [apply length_pos_Q, Hne |].
  rewrite Qmult_comm. apply Qsum_lower, Hall.
Qed.

Lemma mean_upper (b : Q) (l : list Q) :
  l <> [] -> Forall (fun x => x <= b) l ->
  Qsum l / inject_Z (Z.of_nat (length l)) <= b.
Proof.
  intros Hne Hall. apply Qle_shift_div_r; [apply length_pos_Q, Hne |].
  rewrite Qmult_comm. apply Qsum_upper, Hall.
Qed.

(** *** Probes, their handlers and their timeouts *)

Lemma deliver_listeners (data : ProtocolMessage) (now : Q) (hs : list nat)
    (w : World) (x : nat) :
  x ∈ listeners (foldl (fun w' h => handleResponse h data now w') w hs) ->
  x ∈ listeners w.
Proof.
  revert w. induction hs as [|h hs IH]; intros w Hin; simpl in Hin; [exact Hin |].
  apply IH in Hin. destruct data; simpl in Hin; try exact Hin.
  unfold off in Hin. apply list_elem_of_filter in Hin. apply Hin.
Qed.

Lemma deliver_response_listeners (t1 t2 t3 now : Q) (hs : list nat) (w : World) (x : nat) :
  x ∈ listeners (foldl (fun w' h => handleResponse h (SYNC_RESPONSE t1 t2 t3) now w') w hs) ->
  x ∈ listeners w /\ x ∉ hs.
Proof.
  revert w. induction hs as [|h hs IH]; intros w Hin; simpl in Hin.
  - split; [exact Hin | apply not_elem_of_nil].
  - apply IH in Hin as [Hin Hnot]. cbn [listeners] in Hin.
    unfold off in Hin. apply list_elem_of_filter in Hin as [Hne Hin].
    split; [exact Hin |]. intros Hx. apply elem_of_cons in Hx as [->|Hx]; contradiction.
Qed.

Lemma deliver_others (data : ProtocolMessage) (now : Q) (hs : list nat) (w : World) :
  let w' := foldl (fun w' h => handleResponse h data now w') w hs in
  sent w' = sent w /\ timeouts w' = timeouts w /\ nextId w' = nextId w /\
  intervalId (engine w') = intervalId (engine w).
Proof.
  revert w. induction hs as [|h hs IH]; intros w; simpl; [repeat split |].
  destruct (IH (handleResponse h data now w)) as (H1 & H2 & H3 & H4).
  rewrite H1, H2, H3, H4. destruct data; repeat split.
Qed.

(** A sync response is taken by every handler that is pending when it
    arrives: [onSyncComplete] is called once per pending handler, no handler
    remains registered, their timeouts stay pending, and data that arrives
    afterwards changes nothing. *)
Theorem response_consumes_handlers (w : World) (t1 t2 t3 now : Q) :
  let w' := step w (DataArrives (SYNC_RESPONSE t1 t2 t3) now) in
  listeners w' = [] /\
  length (completed w') = (length (completed w) + length (listeners w))%nat /\
  timeouts w' = timeouts w /\
  (forall data now', step w' (DataArrives data now') = w').
Proof.
  intros w'.
  assert (Hnil : listeners w' = []).
  { destruct (listeners w') as [|x l] eqn:E; [reflexivity |].
    assert (Hx : x ∈ listeners w') by (rewrite E; constructor).
    apply deliver_response_listeners in Hx as [Hx Hnot]. contradiction. }
  split; [exact Hnil |].
  split; [apply deliver_completed |].
  split; [apply (deliver_others (SYNC_RESPONSE t1 t2 t3) now (listeners w) w) |].
  intros data now'. cbn [step]. rewrite Hnil. reflexivity.
Qed.

(** A probe whose response has not arrived when its timeout runs is
    abandoned: on an engine with no other probe in flight, once the timeout
    (due 1000 ms after the probe) has run, no handler is registered, and a
    response that arrives later neither adds a sample nor calls
    [onSyncComplete]. *)
Theorem probe_timeout_drops_late_response (w : World) (now now' : Q) :
  listeners w = [] -> now + 1000 <= now' ->
  let probing := performSync now w in
  let expired := step probing (TimeoutFires (nextId w) now') in
  listeners probing = [nextId w] /\
  listeners expired = [] /\
  engine expired = engine w /\ completed expired = completed w /\
  (forall data now'', step expired (DataArrives data now'') = expired).
Proof.
  intros Hidle Hdue probing expired.
  assert (Hfires : existsb (isDue (nextId w) now') (timeouts probing) = true).
  { apply existsb_exists.
    exists {| timeout_listener := nextId w; timeout_due := now + 1000 |}. split.
    - unfold probing, performSync. cbn [timeouts]. apply in_or_app. right. left. reflexivity.
    - unfold isDue. cbn [timeout_listener timeout_due].
      apply andb_true_iff. split; [apply Nat.eqb_refl | apply Qle_bool_iff, Hdue]. }
  assert (Hexp : listeners expired = []).
  { unfold expired. cbn [step]. rewrite Hfires. cbn [listeners].
    unfold probing, performSync. cbn [listeners]. rewrite Hidle.
    unfold off. cbn [app]. rewrite filter_cons_False by (intros H; apply H; reflexivity).
    reflexivity. }
  split; [unfold probing, performSync; cbn [listeners]; rewrite Hidle; reflexivity |].
  split; [exact Hexp |].
  split; [unfold expired; cbn [step]; rewrite Hfires; reflexivity |].
  split; [unfold expired; cbn [step]; rewrite Hfires; reflexivity |].
  intros data now''. cbn [step]. rewrite Hexp. reflexivity.
Qed.

Lemma probe_timeout_drops_late_response_witness :
  let expired := step (performSync 0 initial) (TimeoutFires 0 1000) in
  step expired (DataArrives (SYNC_RESPONSE 0 10 11) 1200) = expired.
Proof.
  intros expired.
  destruct (probe_timeout_drops_late_response initial 0 1000 eq_refl ltac:(lra))
    as (_ & _ & _ & _ & Hdrop).
  apply Hdrop.
Defined.

(** What holds of the engine and its connection after any sequence of
    calls and callbacks. *)
Lemma run_wellformed (evs : list Event) :
  let w := run initial evs in
  (forall h, h ∈ listeners w -> exists t, t ∈ timeouts w /\ timeout_listener t = h) /\
  (forall i, intervalId (engine w) = Some i -> (i < nextId w)%nat).
Proof.
  assert (Hstep : forall w ev,
    ((forall h, h ∈ listeners w -> exists t, t ∈ timeouts w /\ timeout_listener t = h) /\
     (forall i, intervalId (engine w) = Some i -> (i < nextId w)%nat)) ->
    ((forall h, h ∈ listeners (step w ev) ->
        exists t, t ∈ timeouts (step w ev) /\ timeout_listener t = h) /\
     (forall i, intervalId (engine (step w ev)) = Some i -> (i < nextId (step w ev))%nat))).
  { intros w ev [Hl Hi].
    assert (Hperform : forall now e0,
      (forall i, intervalId e0 = Some i -> (i < nextId w)%nat) ->
      let w0 := {| engine := e0; listeners := listeners w; sent := sent w;
                   timeouts := timeouts w; nextId := nextId w;
                   completed := completed w |} in
      (forall h, h ∈ listeners (performSync now w0) ->
         exists t, t ∈ timeouts (performSync now w0) /\ timeout_listener t = h) /\
      (forall i, intervalId (engine (performSync now w0)) = Some i ->
         (i < nextId (performSync now w0))%nat)).
    { intros now e0 He0 w0. unfold performSync. cbn. split.
      - intros h Hh. apply elem_of_app in Hh as [Hh|Hh].
        + destruct (Hl h Hh) as (t & Ht & Hth). exists t.
          split; [apply elem_of_app; left; exact Ht | exact Hth].
        + apply list_elem_of_singleton in Hh. subst h.
          eexists. split; [apply elem_of_app; right; constructor | reflexivity].
      - intros i Hi'. specialize (He0 i Hi'). lia. }
    destruct ev as [now| |id now|h now|data now].
    - cbn [step]. unfold startSync.
      destruct (Hperform now (stopSync (engine w))) as [Hl' _].
      { intros i Hi'. simpl in Hi'. destruct (intervalId (engine w)); discriminate. }
      split; [exact Hl' |]. cbn. intros i Hi'. inversion Hi'. lia.
    - cbn. split; [exact Hl |]. intros i Hi'. destruct (intervalId (engine w)); discriminate.
    - cbn [step]. destruct (decide _); [| split; assumption].
      destruct w as [eng ls snt ts nid cs]. exact (Hperform now eng Hi).
    - cbn [step]. destruct (existsb _ _); [| split; assumption].
      cbn. split; [| exact Hi].
      intros h' Hh'. unfold off in Hh'. apply list_elem_of_filter in Hh' as [Hne Hh'].
      destruct (Hl h' Hh') as (t & Ht & Hth). exists t.
      split; [| exact Hth]. apply list_elem_of_filter. split; [congruence | exact Ht].
    - cbn [step].
      destruct (deliver_others data now (listeners w) w) as (_ & Hts & Hn & Hiv).
      split.
      + intros h Hh. rewrite Hts. apply Hl.
        eapply deliver_listeners, Hh.
      + intros i Hi'. rewrite Hn. apply Hi. rewrite <- Hiv. exact Hi'. }
  induction evs as [|ev evs IH] using rev_ind.
  - cbn. split; [intros h Hh; inversion Hh | intros i Hi; discriminate].
  - unfold run in *. rewrite foldl_app. cbn [foldl]. apply Hstep, IH.
Qed.

(** No handler is left behind: after any sequence of calls and callbacks,
    every handler still registered on the connection has its timeout
    pending, and that timeout, run when due, removes it. *)
Theorem pending_handler_has_timeout (evs : list Event) (h : nat) :
  h ∈ listeners (run initial evs) ->
  exists t,
    t ∈ timeouts (run initial evs) /\ timeout_listener t = h /\
    forall now, timeout_due t <= now ->
      h ∉ listeners (step (run initial evs) (TimeoutFires h now)).
Proof.
  intros Hh. destruct (run_wellformed evs) as [Hl _].
  destruct (Hl h Hh) as (t & Ht & Hth). exists t.
  split; [exact Ht | split; [exact Hth |]].
  intros now Hdue. cbn [step].
  assert (Hfires : existsb (isDue h now) (timeouts (run initial evs)) = true).
  { apply existsb_exists. exists t. split; [apply list_elem_of_In, Ht |].
    unfold isDue. rewrite Hth, Nat.eqb_refl. cbn [andb]. apply Qle_bool_iff, Hdue. }
  rewrite Hfires. cbn [listeners]. unfold off. intros Hin.
  apply list_elem_of_filter in Hin as [Hne _]. apply Hne. reflexivity.
Qed.

Lemma pending_handler_has_timeout_witness :
  let evs := [CallStartSync 0; IntervalFires 1 1000] in
  2%nat ∈ listeners (run initial evs) /\
  exists t, t ∈ timeouts (run initial evs) /\ timeout_listener t = 2%nat.
Proof.
  intros evs.
  assert (Hin : 2%nat ∈ listeners (run initial evs))
    by (apply list_elem_of_further, list_elem_of_here).
  split; [exact Hin |].
  destruct (pending_handler_has_timeout evs 2 Hin) as (t & Ht & Hth & _).
  exists t. split; [exact Ht | exact Hth].
Defined.

End SyncEngineFurther.

(** ** The engine on JavaScript numbers and with its timers *)

Section SyncRuntimeProperties.
Import Protocol SyncRuntime.
Local Open Scope Q_scope.

Lemma sanitizedRTT_plausible (x : Num) :
  nanOrNonNegative (if lt x (Fin 0) then abs x else x).
Proof.
  destruct x as [q| | |]; cbn; try exact I.
  destruct (Qlt_bool q 0) eqn:E; cbn.
  - apply Qabs_nonneg.
  - apply Qlt_bool_false in E. exact E.
Qed.

Lemma sanitizedOffset_plausible (y : Num) :
  nanOrWithin 10000 (if gt (abs y) (Fin 10000) then Fin 0 else y).
Proof.
  destruct y as [q| | |]; cbn; try exact I; try (vm_compute; discriminate).
  destruct (Qlt_bool 10000 (Qabs q)) eqn:E; cbn.
  - vm_compute. discriminate.
  - apply Qlt_bool_false in E. exact E.
Qed.

Lemma calculateOffset_plausible (t1 t2 t3 t4 : Num) :
  nanOrNonNegative (roundTripTime (calculateOffset t1 t2 t3 t4)) /\
  nanOrWithin 10000 (clockOffset (calculateOffset t1 t2 t3 t4)).
Proof.
  unfold calculateOffset. cbn [roundTripTime clockOffset].
  split; [apply sanitizedRTT_plausible | apply sanitizedOffset_plausible].
Qed.

Lemma calculateOffset_finite (q1 q2 q3 q4 : Q) :
  calculateOffset (Fin q1) (Fin q2) (Fin q3) (Fin q4) =
  {| roundTripTime := Fin (SyncEngine.roundTripTime (SyncEngine.calculateOffset q1 q2 q3 q4));
     clockOffset := Fin (SyncEngine.clockOffset (SyncEngine.calculateOffset q1 q2 q3 q4)) |}.
Proof.
  rewrite calculateOffset_unfold. unfold calculateOffset.
  cbn [sub add div abs lt gt SyncEngine.roundTripTime SyncEngine.clockOffset].
  destruct (Qlt_bool (q4 - q1 - (q3 - q2)) 0);
    destruct (Qlt_bool 10000 (Qabs ((q2 - q1 + (q3 - q4)) / 2))); reflexivity.
Qed.

Lemma calculateOffset_NaN (t1 t2 t3 t4 : Num) :
  t1 = NaN \/ t2 = NaN \/ t3 = NaN \/ t4 = NaN ->
  calculateOffset t1 t2 t3 t4 = {| roundTripTime := NaN; clockOffset := NaN |}.
Proof.
  intros [->|[->|[->| ->]]].
  - destruct t2, t3, t4; reflexivity.
  - destruct t1, t3, t4; reflexivity.
  - destruct t1, t2, t4; reflexivity.
  - destruct t1, t2, t3; reflexivity.
Qed.

(** [calculateOffset] on JavaScript numbers.  Whatever its four
    arguments, the round-trip time of the sample is [NaN] or not negative,
    and the offset is [NaN] or of absolute value at most 10000.  On finite
    arguments in range the sample is finite, it is the one computed on the
    rationals, and so its round-trip time is at least 0 and its offset
    within -10000 and 10000.  When an argument is [NaN], as a field missing
    from a response gives, both fields of the sample are [NaN]: neither
    sanity test holds of [NaN], and the bounds hold of finite arguments
    only. *)
Theorem calculateOffset_bounds (t1 t2 t3 t4 : Num) :
  let r := calculateOffset t1 t2 t3 t4 in
  (nanOrNonNegative (roundTripTime r) /\ nanOrWithin 10000 (clockOffset r)) /\
  (forall q1 q2 q3 q4,
     t1 = Fin q1 -> t2 = Fin q2 -> t3 = Fin q3 -> t4 = Fin q4 ->
     inRange t1 -> inRange t2 -> inRange t3 -> inRange t4 ->
     exists rtt offset,
       r = {| roundTripTime := Fin rtt; clockOffset := Fin offset |} /\
       rtt = SyncEngine.roundTripTime (SyncEngine.calculateOffset q1 q2 q3 q4) /\
       offset = SyncEngine.clockOffset (SyncEngine.calculateOffset q1 q2 q3 q4) /\
       0 <= rtt /\ -10000 <= offset <= 10000) /\
  (t1 = NaN \/ t2 = NaN \/ t3 = NaN \/ t4 = NaN ->
     r = {| roundTripTime := NaN; clockOffset := NaN |}).
Proof.
  intros r. split; [apply calculateOffset_plausible | split].
  - intros q1 q2 q3 q4 -> -> -> -> _ _ _ _.
    pose proof (calculateOffset_plausible (Fin q1) (Fin q2) (Fin q3) (Fin q4)) as [Hrtt Hoff].
    unfold r in *. rewrite calculateOffset_finite in *.
    cbn [roundTripTime clockOffset nanOrNonNegative nanOrWithin] in Hrtt, Hoff.
    eexists _, _. split; [reflexivity |].
    split; [reflexivity | split; [reflexivity | split; [exact Hrtt |]]].
    apply Qabs_Qle_condition in Hoff. exact Hoff.
  - apply calculateOffset_NaN.
Qed.

Lemma calculateOffset_bounds_witness :
  (exists rtt offset,
     calculateOffset (Fin 1000) (Fin 1050) (Fin 1060) (Fin 1120) =
       {| roundTripTime := Fin rtt; clockOffset := Fin offset |} /\
     0 <= rtt /\ -10000 <= offset <= 10000) /\
  calculateOffset NaN (Fin 1050) (Fin 1060) (Fin 1120) =
    {| roundTripTime := NaN; clockOffset := NaN |}.
Proof.
  split.
  - destruct (calculateOffset_bounds (Fin 1000) (Fin 1050) (Fin 1060) (Fin 1120))
      as (_ & Hfinite & _).
    destruct (Hfinite 1000 1050 1060 1120 eq_refl eq_refl eq_refl eq_refl)
      as (rtt & offset & Hr & _ & _ & Hrtt & Hoff);
      try (vm_compute; discriminate).
    exists rtt, offset. split; [exact Hr | split; [exact Hrtt | exact Hoff]].
  - destruct (calculateOffset_bounds NaN (Fin 1050) (Fin 1060) (Fin 1120))
      as (_ & _ & Hnan).
    apply Hnan. left. reflexivity.
Defined.

(** *** Sums and means of samples *)

Lemma foldl_add_NaN (xs : list Num) : foldl add NaN xs = NaN.
Proof. induction xs as [|x xs IH]; [reflexivity | exact IH]. Qed.

Lemma sum_Fin (qs : list Q) : forall a,
  foldl add (Fin a) (map Fin qs) = Fin (foldl Qplus a qs).
Proof. induction qs as [|q qs IH]; intros a; [reflexivity | apply IH]. Qed.

Lemma foldl_Qplus (qs : list Q) : forall a,
  foldl Qplus a qs == a + SyncEngine.Qsum qs.
Proof.
  induction qs as [|q qs IH]; intros a; cbn [foldl].
  - unfold SyncEngine.Qsum. simpl. lra.
  - rewrite IH. unfold SyncEngine.Qsum. simpl. lra.
Qed.

Lemma reduceSum_map (f : SyncResult -> Num) (l : list SyncResult) :
  reduceSum f l = foldl add (Fin 0) (map f l).
Proof.
  unfold reduceSum. generalize (Fin 0).
  induction l as [|s l IH]; intros acc; [reflexivity | apply IH].
Qed.

Lemma add_nonNegative (x y : Num) :
  nanOrNonNegative x -> nanOrNonNegative y -> nanOrNonNegative (add x y).
Proof.
  destruct x as [a| | |], y as [b| | |]; cbn; try tauto. intros Ha Hb. lra.
Qed.

Lemma sum_nonNegative (xs : list Num) : forall acc,
  nanOrNonNegative acc -> Forall nanOrNonNegative xs ->
  nanOrNonNegative (foldl add acc xs).
Proof.
  induction xs as [|x xs IH]; intros acc Hacc Hall; [exact Hacc |].
  inversion Hall; subst. apply IH; [apply add_nonNegative |]; assumption.
Qed.

Lemma sum_within (b : Q) (xs : list Num) :
  Forall (nanOrWithin b) xs ->
  (exists qs, xs = map Fin qs /\ Forall (fun q => Qabs q <= b) qs) \/
  (forall a, foldl add (Fin a) xs = NaN).
Proof.
  induction xs as [|x xs IH]; intros Hall.
  - left. exists []. split; [reflexivity | constructor].
  - inversion Hall as [|? ? Hx Hxs]; subst.
    destruct x as [q| | |]; cbn in Hx; try contradiction.
    + destruct (IH Hxs) as [(qs & -> & Hqs)|Hnan].
      * left. exists (q :: qs). split; [reflexivity | constructor; assumption].
      * right. intros a. apply Hnan.
    + right. intros a. apply foldl_add_NaN.
Qed.

Lemma sum_finite (xs : list Num) : forall acc,
  isFinite acc -> Forall isFinite xs -> isFinite (foldl add acc xs).
Proof.
  induction xs as [|x xs IH]; intros acc Hacc Hall; [exact Hacc |].
  inversion Hall as [|? ? Hx Hxs]; subst. apply IH; [| exact Hxs].
  destruct acc, x; cbn in *; tauto.
Qed.

Lemma count_pos {A} (l : list A) : l <> [] -> 0 < inject_Z (Z.of_nat (length l)).
Proof.
  intros Hne. destruct l; [congruence |].
  change 0 with (inject_Z 0). rewrite <- Zlt_Qlt. simpl. lia.
Qed.

Lemma mean_nonNegative (xs : list Num) :
  xs <> [] -> Forall nanOrNonNegative xs ->
  nanOrNonNegative (div (foldl add (Fin 0) xs) (inject_Z (Z.of_nat (length xs)))).
Proof.
  intros Hne Hall.
  pose proof (sum_nonNegative xs (Fin 0) ltac:(cbn; lra) Hall) as Hsum.
  destruct (foldl add (Fin 0) xs) as [a| | |]; cbn in *; try exact Hsum.
  apply Qle_shift_div_l; [apply count_pos, Hne | lra].
Qed.

Lemma mean_within (b : Q) (xs : list Num) :
  xs <> [] -> Forall (nanOrWithin b) xs ->
  nanOrWithin b (div (foldl add (Fin 0) xs) (inject_Z (Z.of_nat (length xs)))).
Proof.
  intros Hne Hall. destruct (sum_within b xs Hall) as [(qs & -> & Hqs)|Hnan].
  - rewrite sum_Fin, length_map. cbn [div nanOrWithin].
    assert (Hqne : qs <> []) by (intros ->; apply Hne; reflexivity).
    rewrite foldl_Qplus, Qplus_0_l.
    apply Qabs_Qle_condition. split.
    + apply mean_lower; [exact Hqne |].
      eapply Forall_impl; [exact Hqs |]. intros q Hq.
      apply Qabs_Qle_condition in Hq. apply Hq.
    + apply mean_upper; [exact Hqne |].
      eapply Forall_impl; [exact Hqs |]. intros q Hq.
      apply Qabs_Qle_condition in Hq. apply Hq.
  - rewrite Hnan. exact I.
Qed.

Lemma mean_finite (xs : list Num) (d : Q) :
  Forall isFinite xs -> isFinite (div (foldl add (Fin 0) xs) d).
Proof.
  intros Hall. pose proof (sum_finite xs (Fin 0) I Hall) as Hsum.
  destruct (foldl add (Fin 0) xs); cbn in *; tauto.
Qed.

(** *** What every event keeps *)

Section Invariant.
Variable sort : list SyncResult -> list SyncResult.
Hypothesis sort_perm : forall l, sort l ≡ₚ l.
Variable P : SyncResult -> Prop.
Variable E : Event -> Prop.
Hypothesis P_zero : P {| roundTripTime := Fin 0; clockOffset := Fin 0 |}.
Hypothesis P_mean : forall l, l <> [] -> Forall P l ->
  P {| roundTripTime :=
         div (reduceSum roundTripTime l) (inject_Z (Z.of_nat (length l)));
       clockOffset :=
         div (reduceSum clockOffset l) (inject_Z (Z.of_nat (length l))) |}.
Hypothesis P_sample : forall t1 t2 t3 now,
  E (DataArrives (Response t1 t2 t3) now) -> P (calculateOffset t1 t2 t3 (Fin now)).

Lemma getAverageResult_keeps (e : SyncEngine) :
  Forall P (samples e) -> P (getAverageResult sort e).
Proof.
  intros Hall. unfold getAverageResult.
  destruct (samples e) as [|s0 rest] eqn:Hs; [exact P_zero |].
  cbv zeta. rewrite <- Hs in *.
  set (sorted := sort (samples e)).
  set (trimmed := SyncEngine.slice _ _ sorted).
  destruct (Nat.eqb_spec (length trimmed) 0) as [E0|E0].
  - destruct (last (samples e)) as [s|] eqn:El; cbn [default].
    + rewrite Forall_forall in Hall. apply Hall.
      apply last_Some in El as [l' ->]. apply elem_of_app. right. constructor.
    + apply last_None in El. congruence.
  - apply P_mean.
    + intros Hnil. rewrite Hnil in E0. simpl in E0. lia.
    + rewrite Forall_forall in *. intros s Hin. apply Hall.
      rewrite <- (sort_perm (samples e)).
      unfold trimmed, SyncEngine.slice in Hin.
      eapply elem_of_sublist; [| apply sublist_take].
      eapply elem_of_sublist; [exact Hin | apply sublist_drop].
Qed.

Lemma addSample_keeps (r : SyncResult) (e : SyncEngine) :
  P r -> Forall P (samples e) -> Forall P (samples (addSample r e)).
Proof.
  intros Hr Hall. unfold addSample. cbn [samples].
  assert (Hpushed : Forall P (samples e ++ [r]))
    by (apply Forall_app; split; [exact Hall | repeat constructor; apply Hr]).
  destruct (SyncEngine.maxSamples <? length (samples e ++ [r]))%nat; [| exact Hpushed].
  destruct (samples e ++ [r]); [constructor |].
  inversion Hpushed; assumption.
Qed.

Lemma step_keeps (w : World) (ev : Event) :
  E ev ->
  Forall P (samples (engine w)) /\ Forall P (completed w) ->
  Forall P (samples (engine (step sort w ev))) /\ Forall P (completed (step sort w ev)).
Proof.
  intros Hev [Hs Hc]. destruct ev as [now| |id now|h now|data now]; simpl.
  - split; [constructor | exact Hc].
  - split; [constructor | exact Hc].
  - destruct (decide _); split; assumption.
  - destruct (existsb _ _); split; assumption.
  - remember (listeners w) as hs eqn:Hhs. clear Hhs. revert w Hs Hc.
    induction hs as [|h hs IH]; intros w Hs Hc; simpl; [split; assumption |].
    apply IH; destruct data as [t1 t2 t3|]; simpl; try assumption.
    + apply addSample_keeps; [apply P_sample, Hev | exact Hs].
    + apply Forall_app. split; [exact Hc |]. constructor; [| constructor].
      apply getAverageResult_keeps, addSample_keeps; [apply P_sample, Hev | exact Hs].
Qed.

Lemma run_keeps (evs : list Event) : forall w,
  Forall E evs ->
  Forall P (samples (engine w)) /\ Forall P (completed w) ->
  Forall P (completed (run sort w evs)).
Proof.
  induction evs as [|ev evs IH]; intros w Hevs Hw; simpl; [apply Hw |].
  inversion Hevs; subst. apply IH; [assumption |]. apply step_keeps; assumption.
Qed.

End Invariant.

Lemma trimCountOf_1 : SyncEngine.trimCountOf 1 = 0%nat.
Proof. vm_compute. reflexivity. Qed.

(** The estimates handed to [onSyncComplete], whatever calls and
    callbacks the engine goes through and whatever arrives on the
    connection, for every order in which the implementation may sort.
    Each estimate has a round-trip time that is [NaN] or not negative, and
    an offset that is [NaN] or of absolute value at most 10000.  When every
    response that arrives carries numbers in range, each estimate is finite,
    with a round-trip time of at least 0 and an offset of absolute value
    at most 10000.  A response with a field that is [NaN] (a missing field)
    is not refused: answered to the first probe, it makes the estimate
    [NaN] in both fields. *)
Theorem reported_estimates_plausible (sort : list SyncResult -> list SyncResult)
    (evs : list Event) :
  (forall l, sort l ≡ₚ l) ->
  (forall r, r ∈ completed (run sort initial evs) ->
     nanOrNonNegative (roundTripTime r) /\ nanOrWithin 10000 (clockOffset r)) /\
  (Forall wellFormed evs ->
   forall r, r ∈ completed (run sort initial evs) ->
     exists rtt offset,
       r = {| roundTripTime := Fin rtt; clockOffset := Fin offset |} /\
       0 <= rtt /\ Qabs offset <= 10000) /\
  (forall now now' t1 t2 t3,
     t1 = NaN \/ t2 = NaN \/ t3 = NaN ->
     completed (run sort initial
                  [CallStartSync now; DataArrives (Response t1 t2 t3) now']) =
     [{| roundTripTime := NaN; clockOffset := NaN |}]).
Proof.
  intros Hsort.
  assert (Hplausible : forall evs' r, r ∈ completed (run sort initial evs') ->
            nanOrNonNegative (roundTripTime r) /\ nanOrWithin 10000 (clockOffset r)).
  { intros evs' r Hin.
    pose proof (run_keeps sort Hsort
      (fun r => nanOrNonNegative (roundTripTime r) /\ nanOrWithin 10000 (clockOffset r))
      (fun _ => True)) as Hrun.
    cbv beta in Hrun.
    assert (Hall : Forall (fun r => nanOrNonNegative (roundTripTime r) /\
                                    nanOrWithin 10000 (clockOffset r))
                          (completed (run sort initial evs'))).
    { apply Hrun.
      - cbn. split; [lra | vm_compute; discriminate].
      - intros l Hne Hall. cbn [roundTripTime clockOffset].
        rewrite !reduceSum_map, <- (length_map roundTripTime l) at 1.
        split.
        + apply mean_nonNegative; [destruct l; [congruence | discriminate] |].
          apply Forall_map. eapply Forall_impl; [exact Hall |]. intros s [H _]. exact H.
        + rewrite <- (length_map clockOffset l).
          apply mean_within; [destruct l; [congruence | discriminate] |].
          apply Forall_map. eapply Forall_impl; [exact Hall |]. intros s [_ H]. exact H.
      - intros t1 t2 t3 now _. apply calculateOffset_plausible.
      - apply Forall_forall. intros; exact I.
      - split; constructor. }
    rewrite Forall_forall in Hall. apply Hall, Hin. }
  split; [apply Hplausible | split].
  - intros Hwell r Hin.
    pose proof (run_keeps sort Hsort
      (fun r => isFinite (roundTripTime r) /\ isFinite (clockOffset r)) wellFormed) as Hrun.
    cbv beta in Hrun.
    assert (Hall : Forall (fun r => isFinite (roundTripTime r) /\ isFinite (clockOffset r))
                          (completed (run sort initial evs))).
    { apply Hrun.
      - split; exact I.
      - intros l Hne Hall. cbn [roundTripTime clockOffset].
        rewrite !reduceSum_map. split; apply mean_finite, Forall_map.
        + eapply Forall_impl; [exact Hall |]. intros s [H _]. exact H.
        + eapply Forall_impl; [exact Hall |]. intros s [_ H]. exact H.
      - intros t1 t2 t3 now (H1 & H2 & H3 & _).
        destruct t1, t2, t3; cbn in H1, H2, H3; try contradiction.
        rewrite calculateOffset_finite. split; exact I.
      - exact Hwell.
      - split; constructor. }
    rewrite Forall_forall in Hall. destruct (Hall r Hin) as [Hf1 Hf2].
    destruct (Hplausible evs r Hin) as [Hrtt Hoff].
    destruct r as [[rtt| | |] [offset| | |]]; cbn in *; try contradiction.
    exists rtt, offset. split; [reflexivity | split; assumption].
  - intros now now' t1 t2 t3 Hnan.
    cbn [run foldl step startSync performSync stopSync initial listeners engine
         completed nextId app handleResponse].
    rewrite (calculateOffset_NaN t1 t2 t3 (Fin now'))
      by (destruct Hnan as [H|[H|H]]; auto).
    unfold getAverageResult.
    match goal with
    | |- context [samples (addSample ?r ?e)] => change (samples (addSample r e)) with [r]
    end.
    pose proof (Hsort [{| roundTripTime := NaN; clockOffset := NaN |}]) as Hone.
    apply Permutation_singleton_r in Hone. rewrite Hone.
    cbn [length]. rewrite trimCountOf_1. reflexivity.
Qed.

Lemma insertByRTT_perm (x : SyncResult) (l : list SyncResult) :
  insertByRTT x l ≡ₚ x :: l.
Proof.
  induction l as [|y l IH]; simpl; [reflexivity |].
  destruct (keepsBefore x y); [reflexivity |].
  rewrite IH. apply Permutation_swap.
Qed.

Lemma sortByRTT_perm (l : list SyncResult) : sortByRTT l ≡ₚ l.
Proof.
  induction l as [|x l IH]; simpl; [reflexivity |].
  rewrite insertByRTT_perm, IH. reflexivity.
Qed.

Lemma reported_estimates_plausible_witness :
  let evs := [CallStartSync 0; DataArrives (Response (Fin 0) (Fin 90000) (Fin 90001)) 50] in
  exists r rtt offset,
    r ∈ completed (run sortByRTT initial evs) /\
    r = {| roundTripTime := Fin rtt; clockOffset := Fin offset |} /\
    0 <= rtt /\ Qabs offset <= 10000.
Proof.
  intros evs.
  destruct (reported_estimates_plausible sortByRTT evs sortByRTT_perm) as (_ & Hfinite & _).
  assert (Hin : getAverageResult sortByRTT
                  (addSample (calculateOffset (Fin 0) (Fin 90000) (Fin 90001) (Fin 50)) new)
                  ∈ completed (run sortByRTT initial evs)) by (apply list_elem_of_here).
  assert (Hwell : Forall wellFormed evs).
  { repeat constructor; vm_compute; discriminate. }
  destruct (Hfinite Hwell _ Hin) as (rtt & offset & Hr & Hrtt & Hoff).
  eexists _, rtt, offset. split; [exact Hin | split; [exact Hr | split; assumption]].
Defined.

(** *** The interval timer *)

Lemma deliver_timers (sort : list SyncResult -> list SyncResult) (data : Data)
    (now : Q) (hs : list nat) : forall w,
  let w' := foldl (fun w' h => handleResponse sort h data now w') w hs in
  intervals w' = intervals w /\ nextId w' = nextId w /\
  intervalId (engine w') = intervalId (engine w) /\ sent w' = sent w.
Proof.
  induction hs as [|h hs IH]; intros w; simpl; [repeat split |].
  destruct (IH (handleResponse sort h data now w)) as (H1 & H2 & H3 & H4).
  rewrite H1, H2, H3, H4. destruct data; repeat split.
Qed.

Lemma run_timers (sort : list SyncResult -> list SyncResult) (evs : list Event) :
  let w := run sort initial evs in
  intervals w = match intervalId (engine w) with Some i => [i] | None => [] end /\
  (forall i, i ∈ intervals w -> (i < nextId w)%nat).
Proof.
  induction evs as [|ev evs IH] using rev_ind.
  - split; [reflexivity |]. intros i Hi. cbn in Hi. apply elem_of_nil in Hi. contradiction.
  - unfold run in *. rewrite foldl_snoc. cbv zeta in IH.
    set (w := foldl (step sort) initial evs) in *.
    destruct IH as [Hone Hlt].
    assert (Hstop : intervals (stopSync w) = []).
    { cbn [stopSync intervals]. rewrite Hone.
      destruct (intervalId (engine w)) as [i|]; [| reflexivity].
      cbn. destruct (decide (i <> i)); [congruence | reflexivity]. }
    destruct ev as [now| |id now|h now|data now]; cbn [step].
    + cbn [startSync intervals engine intervalId nextId performSync].
      rewrite Hstop. split; [reflexivity |].
      intros i Hi. cbn in Hi. apply list_elem_of_singleton in Hi. subst i.
      cbn [stopSync nextId]. lia.
    + rewrite Hstop. split; [reflexivity |].
      intros i Hi. apply elem_of_nil in Hi. contradiction.
    + destruct (decide (id ∈ intervals w)); [| split; assumption].
      cbn [performSync intervals engine nextId]. split; [exact Hone |].
      intros i Hi. specialize (Hlt i Hi). lia.
    + destruct (existsb _ _); split; assumption.
    + destruct (deliver_timers sort data now (listeners w) w) as (H1 & H2 & H3 & _).
      rewrite H1, H2, H3. split; assumption.
Qed.

(** At most one interval timer of the engine is on the event loop at
    any time, and it is the one whose handle the engine holds.
    [stopSync] leaves none.  [startSync] clears the timer of the run
    before, so that it does nothing if it was about to come due, and sets a
    new one, with another handle, which does run a probe when it comes due;
    the sample ring starts empty and a first probe has been sent. *)
Theorem startSync_supersedes_interval (sort : list SyncResult -> list SyncResult)
    (evs : list Event) (now now' : Q) :
  let w := run sort initial evs in
  let w' := step sort w (CallStartSync now) in
  intervals w = match intervalId (engine w) with Some i => [i] | None => [] end /\
  intervals (step sort w CallStopSync) = [] /\
  (exists j,
     intervalId (engine w') = Some j /\ intervals w' = [j] /\
     (forall i, i ∈ intervals w -> j <> i) /\
     step sort w' (IntervalFires j now') = performSync now' w') /\
  (forall i, i ∈ intervals w ->
     (i ∉ intervals w') /\ step sort w' (IntervalFires i now') = w') /\
  samples (engine w') = [] /\
  last (sent w') = Some (SYNC_REQUEST now).
Proof.
  intros w w'. destruct (run_timers sort evs) as [Hone Hlt]. fold w in Hone, Hlt.
  assert (Hstop : intervals (stopSync w) = []).
  { cbn [stopSync intervals]. rewrite Hone.
    destruct (intervalId (engine w)) as [i|]; [| reflexivity].
    cbn. destruct (decide (i <> i)); [congruence | reflexivity]. }
  assert (Hnew : intervals w' = [S (nextId w)]).
  { unfold w'. cbn [step startSync intervals performSync nextId stopSync].
    change (match intervalId (engine w) with
            | Some id => filter (fun i => i <> id) (intervals w)
            | None => intervals w
            end) with (intervals (stopSync w)).
    rewrite Hstop. reflexivity. }
  split; [exact Hone | split; [exact Hstop | split; [| split; [| split]]]].
  - exists (S (nextId w)). split; [reflexivity | split; [exact Hnew | split]].
    + intros i Hi. specialize (Hlt i Hi). lia.
    + cbn [step]. rewrite Hnew.
      destruct (decide (S (nextId w) ∈ [S (nextId w)])) as [_|Hn]; [reflexivity |].
      exfalso. apply Hn. apply list_elem_of_singleton. reflexivity.
  - intros i Hi. specialize (Hlt i Hi).
    assert (Hnot : i ∉ intervals w').
    { rewrite Hnew. intros Hin. apply list_elem_of_singleton in Hin. lia. }
    split; [exact Hnot |]. cbn [step].
    destruct (decide (i ∈ intervals w')); [contradiction | reflexivity].
  - reflexivity.
  - unfold w'. cbn. apply last_snoc.
Qed.

End SyncRuntimeProperties.

(** ** Base64 chunks *)

(** One turn of the loop of [chunkArrayBuffer] (as [chunkLoop_unfold],
    under a name that the names of the [AudioEngine] module do not hide). *)
Lemma chunkLoop_turn (buffer : AudioEngine.ArrayBuffer) (offset : nat)
    (chunks : list string) :
  AudioEngine.chunkLoop buffer offset chunks =
  if decide (offset < length buffer) then
    let chunkSize := Protocol.CHUNK_SIZE `min` (length buffer - offset) in
    AudioEngine.chunkLoop buffer (offset + chunkSize)
      (chunks ++ [AudioEngine.arrayBufferToBase64
                    (AudioEngine.slice offset (offset + chunkSize) buffer)])
  else chunks.
Proof. exact (chunkLoop_unfold buffer offset chunks). Qed.

Section ChunkingFurther.
Import Protocol Base64 AudioEngine.

Ltac lia_div := zify; Z.to_euclidean_division_equations; lia.

Lemma length_string_of_list_ascii (l : list ascii) :
  String.length (string_of_list_ascii l) = length l.
Proof. induction l as [|c l IH]; [reflexivity |]. simpl. rewrite IH. reflexivity. Qed.

Lemma length_encode (bs : list N) : length (encode bs) = 4 * ((length bs + 2) / 3).
Proof.
  unfold encode. rewrite length_app, length_map.
  induction bs as [| x | x y | x y z l IH] using list_ind3.
  - reflexivity.
  - reflexivity.
  - reflexivity.
  - cbn [sextets length]. rewrite padding_step.
    replace ((S (S (S (length l))) + 2) / 3) with (S ((length l + 2) / 3)) by lia_div.
    lia.
Qed.

(** Encoding a buffer to Base64 and decoding the result gives the buffer
    back, for every buffer; so two buffers with the same encoding are the
    same buffer; and the encoding of [n] bytes is [4 * ceil(n / 3)]
    characters long. *)
Theorem arrayBufferToBase64_roundtrip (buffer : ArrayBuffer) :
  base64ToArrayBuffer (arrayBufferToBase64 buffer) = Ok buffer /\
  (forall other, arrayBufferToBase64 other = arrayBufferToBase64 buffer -> other = buffer) /\
  String.length (arrayBufferToBase64 buffer) = 4 * ((length buffer + 2) / 3).
Proof.
  split; [apply base64ToArrayBuffer_arrayBufferToBase64 | split].
  - intros other Heq.
    pose proof (base64ToArrayBuffer_arrayBufferToBase64 other) as Ho.
    rewrite Heq, base64ToArrayBuffer_arrayBufferToBase64 in Ho. congruence.
  - unfold arrayBufferToBase64, btoa.
    rewrite length_string_of_list_ascii, length_encode, length_map.
    rewrite list_ascii_of_string_of_list_ascii, length_map. reflexivity.
Qed.

Lemma stripPadding_keeps (c : ascii) (data : list ascii) :
  c ∈ data -> Ascii.eqb c "=" = false -> c ∈ stripPadding data.
Proof.
  intros Hin Hc. unfold stripPadding.
  destruct (rev data) as [|c1 r1] eqn:E; [exact Hin |].
  assert (Hdata : data = rev r1 ++ [c1]).
  { rewrite <- (rev_involutive data), E. reflexivity. }
  destruct (Ascii.eqb_spec c1 "=") as [Hc1|_]; [| exact Hin].
  assert (Hr1 : c ∈ rev r1).
  { rewrite Hdata in Hin. apply elem_of_app in Hin as [Hin|Hin]; [exact Hin |].
    apply list_elem_of_singleton in Hin. subst. rewrite Ascii.eqb_refl in Hc. discriminate. }
  destruct r1 as [|c2 r2]; [exact Hr1 |].
  destruct (Ascii.eqb_spec c2 "=") as [Hc2|_]; [| exact Hr1].
  cbn [rev] in Hr1. apply elem_of_app in Hr1 as [Hr1|Hr1]; [exact Hr1 |].
  apply list_elem_of_singleton in Hr1. subst. rewrite Ascii.eqb_refl in Hc. discriminate.
Qed.

Lemma atob_rejects (base64 : string) (c : ascii) :
  c ∈ list_ascii_of_string base64 ->
  isWhitespace c = false -> c <> "="%char -> sextetOfChar c = None ->
  atob base64 = None.
Proof.
  intros Hin Hws Hpad Hbad. unfold atob.
  set (data1 := filter (fun c => isWhitespace c = false) (list_ascii_of_string base64)).
  assert (H1 : c ∈ data1) by (apply list_elem_of_filter; split; assumption).
  set (data2 := if length data1 mod 4 =? 0 then stripPadding data1 else data1).
  assert (H2 : c ∈ data2).
  { unfold data2. destruct (length data1 mod 4 =? 0); [| exact H1].
    apply stripPadding_keeps; [exact H1 | apply Ascii.eqb_neq, Hpad]. }
  destruct (length data2 mod 4 =? 1); [reflexivity |].
  rewrite mapM_None_2; [reflexivity |].
  apply Exists_exists. exists c. split; [exact H2 | exact Hbad].
Qed.

Lemma decodeAll_throws (l : list string) :
  Exists (fun s => atob s = None) l -> decodeAll l = Throw InvalidBase64.
Proof.
  induction l as [|s l IH]; intros Hex; [inversion Hex |].
  cbn [decodeAll]. unfold base64ToArrayBuffer at 1.
  destruct (atob s) as [binary|] eqn:E; [| reflexivity].
  inversion Hex as [? ? Hs|? ? Hl]; subst; [congruence |].
  rewrite (IH Hl). reflexivity.
Qed.

(** A chunk that holds a character that is neither of the Base64
    alphabet, nor whitespace, nor [=] is refused: [base64ToArrayBuffer]
    throws 'Invalid Base64 audio data' on it, and so does [reassembleChunks]
    on any chunk list that holds it, whatever the other chunks. *)
Theorem invalid_chunk_throws (chunks : list (option string)) (base64 : string) (c : ascii) :
  Some base64 ∈ chunks ->
  c ∈ list_ascii_of_string base64 ->
  isWhitespace c = false -> c <> "="%char -> sextetOfChar c = None ->
  base64ToArrayBuffer base64 = Throw InvalidBase64 /\
  reassembleChunks chunks = Throw InvalidBase64.
Proof.
  intros Hchunk Hin Hws Hpad Hbad.
  pose proof (atob_rejects base64 c Hin Hws Hpad Hbad) as Hatob.
  split; [unfold base64ToArrayBuffer; rewrite Hatob; reflexivity |].
  unfold reassembleChunks.
  set (validChunks := omap id (filter (fun c => isValidChunk c = true) chunks)).
  assert (Hvalid : base64 ∈ validChunks).
  { unfold validChunks. apply list_elem_of_omap. exists (Some base64).
    split; [| reflexivity]. apply list_elem_of_filter. split; [| exact Hchunk].
    unfold isValidChunk. apply Nat.ltb_lt.
    destruct base64; [inversion Hin | simpl; lia]. }
  destruct (Nat.eqb_spec (length validChunks) 0) as [E|_].
  - destruct validChunks; [inversion Hvalid | discriminate E].
  - rewrite decodeAll_throws; [reflexivity |].
    apply Exists_exists. exists base64. split; [exact Hvalid | exact Hatob].
Qed.

Lemma invalid_chunk_throws_witness :
  reassembleChunks [Some "TWFu"; Some "ab!d"; None] = Throw InvalidBase64.
Proof.
  apply (invalid_chunk_throws [Some "TWFu"; Some "ab!d"; None] "ab!d" "!"%char).
  - apply list_elem_of_further, list_elem_of_here.
  - apply list_elem_of_further, list_elem_of_further, list_elem_of_here.
  - reflexivity.
  - discriminate.
  - reflexivity.
Defined.

Lemma validChunks_encoded (slots : list (option ArrayBuffer)) :
  Forall (fun p => p <> []) (omap id slots) ->
  omap id (filter (fun c => isValidChunk c = true) (fmap arrayBufferToBase64 <$> slots)) =
  map arrayBufferToBase64 (omap id slots).
Proof.
  induction slots as [|[p|] slots IH]; intros Hall; [reflexivity | |].
  - cbn in Hall. inversion_clear Hall as [|? ? Hp Hrest].
    cbn [fmap list_fmap option_fmap option_map].
    rewrite filter_cons_True by (apply arrayBufferToBase64_valid, Hp).
    cbn. f_equal. apply IH, Hrest.
  - cbn [fmap list_fmap option_fmap option_map].
    rewrite filter_cons_False by (cbn; discriminate).
    cbn. apply IH, Hall.
Qed.

Lemma reassembleChunks_present (slots : list (option (list byte))) :
  Forall (fun p => p <> []) (omap (M:=list) id slots) ->
  omap (M:=list) id slots <> [] ->
  reassembleChunks (fmap (M:=option) arrayBufferToBase64 <$> slots) =
  Ok (concat (omap (M:=list) id slots)).
Proof.
  intros Hall Hne. unfold reassembleChunks.
  rewrite (validChunks_encoded slots Hall), length_map.
  match goal with
  | |- context [(?n =? 0)] => destruct (Nat.eqb_spec n 0) as [E0|_]
  end.
  - exfalso. apply Hne, length_zero_iff_nil. exact E0.
  - rewrite decodeAll_encoded. reflexivity.
Qed.

(** Reassembly skips the missing slots.  For an array of slots of which
    some hold the encoding of a non-empty piece and the others are holes,
    [reassembleChunks] returns the pieces present, concatenated in index
    order, provided at least one is present; on an array in which no slot
    holds a non-empty string it throws 'No valid audio chunks received'. *)
Theorem reassembleChunks_skips_holes (slots : list (option (list byte)))
    (chunks : list (option string)) :
  (Forall (fun p => p <> []) (omap (M:=list) id slots) ->
   omap (M:=list) id slots <> [] ->
     reassembleChunks (fmap (M:=option) arrayBufferToBase64 <$> slots) =
     Ok (concat (omap (M:=list) id slots))) /\
  (Forall (fun c => isValidChunk c = false) chunks ->
     reassembleChunks chunks = Throw NoValidChunks).
Proof.
  split.
  - apply reassembleChunks_present.
  - intros Hnone. unfold reassembleChunks.
    replace (filter (fun c => isValidChunk c = true) chunks) with (@nil (option string));
      [reflexivity |].
    symmetry. induction Hnone as [|c l Hc _ IH]; [reflexivity |].
    rewrite filter_cons_False by congruence. exact IH.
Qed.

Lemma reassembleChunks_skips_holes_witness :
  reassembleChunks
    (fmap (M:=option) arrayBufferToBase64 <$>
       [Some ["M"; "a"; "n"]%byte; None; Some ["!"%byte]]) =
  Ok ["M"; "a"; "n"; "!"]%byte /\
  reassembleChunks [None; Some ""; None] = Throw NoValidChunks.
Proof.
  split.
  - apply (reassembleChunks_skips_holes
             [Some ["M"; "a"; "n"]%byte; None; Some ["!"%byte]] []).
    + repeat constructor; discriminate.
    + discriminate.
  - apply (reassembleChunks_skips_holes [] [None; Some ""; None]).
    repeat constructor.
Defined.

Opaque CHUNK_SIZE.

Lemma chunkLoop_prefix (buffer : ArrayBuffer) (offset : nat) (chunks : list string) :
  exists more, chunkLoop buffer offset chunks = chunks ++ more.
Proof.
  destruct (decide (offset <= length buffer)) as [Hle|Hgt].
  - destruct (chunkLoop_pieces buffer _ offset chunks eq_refl Hle) as (pieces & H & _).
    eexists. exact H.
  - exists []. rewrite chunkLoop_turn.
    destruct (decide (offset < length buffer)); [lia |]. rewrite app_nil_r. reflexivity.
Qed.

Lemma chunkLoop_lookup (buffer : ArrayBuffer) (n offset : nat) (chunks : list string)
    (i : nat) :
  length buffer - offset = n ->
  chunkLoop buffer offset chunks !! (length chunks + i) =
  if decide (offset + i * CHUNK_SIZE < length buffer)
  then Some (arrayBufferToBase64
               (slice (offset + i * CHUNK_SIZE) (offset + i * CHUNK_SIZE + CHUNK_SIZE) buffer))
  else None.
Proof.
  revert offset chunks i.
  induction n as [n IH] using lt_wf_ind. intros offset chunks i Hn.
  pose proof CHUNK_SIZE_pos as Hpos.
  rewrite chunkLoop_turn.
  destruct (decide (offset < length buffer)) as [Hlt|Hge].
  - cbv zeta.
    set (chunkSize := CHUNK_SIZE `min` (length buffer - offset)).
    set (piece := arrayBufferToBase64 (slice offset (offset + chunkSize) buffer)).
    assert (Hpiece : piece = arrayBufferToBase64 (slice offset (offset + CHUNK_SIZE) buffer)).
    { unfold piece, slice. f_equal. f_equal.
      destruct (decide (chunkSize = CHUNK_SIZE)) as [->|Hne]; [reflexivity |].
      rewrite !take_ge by (unfold chunkSize in *; lia). reflexivity. }
    destruct i as [|i].
    + rewrite Nat.add_0_r. cbn [Nat.mul]. rewrite Nat.add_0_r.
      destruct (decide (offset < length buffer)); [| lia].
      destruct (chunkLoop_prefix buffer (offset + chunkSize) (chunks ++ [piece]))
        as (more & ->).
      rewrite <- app_assoc. rewrite lookup_app_r by lia.
      rewrite Nat.sub_diag. cbn. rewrite Hpiece. reflexivity.
    + replace (length chunks + S i) with (length (chunks ++ [piece]) + i)
        by (rewrite length_app; simpl; lia).
      rewrite (IH (length buffer - (offset + chunkSize)) ltac:(unfold chunkSize; lia)
                  (offset + chunkSize) (chunks ++ [piece]) i eq_refl).
      cbn [Nat.mul].
      destruct (decide (chunkSize = CHUNK_SIZE)) as [Heq|Hne].
      * rewrite Heq.
        replace (offset + CHUNK_SIZE + i * CHUNK_SIZE)
          with (offset + (CHUNK_SIZE + i * CHUNK_SIZE)) by lia.
        reflexivity.
      * assert (Hend : offset + chunkSize = length buffer) by (unfold chunkSize in *; lia).
        assert (Hshort : length buffer - offset < CHUNK_SIZE) by (unfold chunkSize in *; lia).
        destruct (decide (offset + chunkSize + i * CHUNK_SIZE < length buffer)); [lia |].
        destruct (decide (offset + (CHUNK_SIZE + i * CHUNK_SIZE) < length buffer)); [lia |].
        reflexivity.
  - destruct (decide (offset + i * CHUNK_SIZE < length buffer)); [lia |].
    apply lookup_ge_None. lia.
Qed.

Lemma chunkArrayBuffer_nth (buffer : ArrayBuffer) (j : nat) :
  chunkArrayBuffer buffer !! j =
  if decide (j * CHUNK_SIZE < length buffer)
  then Some (arrayBufferToBase64
               (slice (j * CHUNK_SIZE) (j * CHUNK_SIZE + CHUNK_SIZE) buffer))
  else None.
Proof.
  unfold chunkArrayBuffer.
  exact (chunkLoop_lookup buffer (length buffer - 0) 0 [] j eq_refl).
Qed.

(** What [chunkArrayBuffer] returns, chunk by chunk: chunk [i] is the
    encoding of the bytes from [i * CHUNK_SIZE] up to
    [(i + 1) * CHUNK_SIZE] (or up to the end of the buffer, for the last
    chunk), and there is a chunk [i] exactly when [i * CHUNK_SIZE] is below
    the length of the buffer; so the number of chunks is the length divided
    by [CHUNK_SIZE], rounded up. *)
Theorem chunkArrayBuffer_lookup (buffer : ArrayBuffer) (i : nat) :
  chunkArrayBuffer buffer !! i =
    (if decide (i * CHUNK_SIZE < length buffer)
     then Some (arrayBufferToBase64
                  (slice (i * CHUNK_SIZE) (i * CHUNK_SIZE + CHUNK_SIZE) buffer))
     else None) /\
  length buffer <= length (chunkArrayBuffer buffer) * CHUNK_SIZE /\
  length (chunkArrayBuffer buffer) * CHUNK_SIZE < length buffer + CHUNK_SIZE.
Proof.
  pose proof (chunkArrayBuffer_nth buffer) as Hlookup.
  pose proof CHUNK_SIZE_pos as Hpos.
  split; [apply Hlookup | split].
  - pose proof (Hlookup (length (chunkArrayBuffer buffer))) as Hend.
    rewrite lookup_ge_None_2 in Hend by lia.
    destruct (decide (length (chunkArrayBuffer buffer) * CHUNK_SIZE < length buffer));
      [discriminate | lia].
  - destruct (length (chunkArrayBuffer buffer)) as [|k] eqn:Ek; [simpl; lia |].
    pose proof (Hlookup k) as Hlast.
    destruct (decide (k * CHUNK_SIZE < length buffer)) as [Hk|Hk]; [simpl; lia |].
    apply lookup_ge_None in Hlast. lia.
Qed.

End ChunkingFurther.

(** ** The slots of a transfer session *)

Section SlotProperties.
Import Protocol PeerManager.

Context {A : Type}.
Implicit Types (array : list (option A)) (value : A) (i j : nat).

Lemma length_arraySet i value array :
  length (arraySet i value array) = length array `max` S i.
Proof.
  unfold arraySet. destruct (Nat.ltb_spec i (length array)) as [Hlt|Hge].
  - rewrite length_insert. lia.
  - rewrite !length_app, length_replicate. simpl. lia.
Qed.

Lemma lookup_arraySet_eq i value array :
  arraySet i value array !! i = Some (Some value).
Proof.
  unfold arraySet. destruct (Nat.ltb_spec i (length array)) as [Hlt|Hge].
  - apply list_lookup_insert_eq, Hlt.
  - rewrite lookup_app_r by lia.
    rewrite lookup_app_r by (rewrite length_replicate; lia).
    rewrite length_replicate, Nat.sub_diag. reflexivity.
Qed.

Lemma lookup_arraySet_ne i j value array :
  j <> i ->
  arraySet i value array !! j =
  if decide (j < length array) then array !! j
  else if decide (j < i) then Some None else None.
Proof.
  intros Hne. unfold arraySet.
  destruct (Nat.ltb_spec i (length array)) as [Hlt|Hge].
  - rewrite list_lookup_insert_ne by congruence.
    destruct (decide (j < length array)) as [_|Hj]; [reflexivity |].
    rewrite lookup_ge_None_2 by lia.
    destruct (decide (j < i)); [lia | reflexivity].
  - destruct (decide (j < length array)) as [Hj|Hj].
    + apply lookup_app_l, Hj.
    + rewrite lookup_app_r by lia.
      destruct (decide (j < i)) as [Hji|Hji].
      * rewrite lookup_app_l by (rewrite length_replicate; lia).
        apply lookup_replicate_2. lia.
      * apply lookup_ge_None_2. rewrite length_app, length_replicate. simpl. lia.
Qed.

Lemma countDefined_app array1 array2 :
  countDefined (array1 ++ array2) = countDefined array1 + countDefined array2.
Proof. unfold countDefined. rewrite filter_app, length_app. reflexivity. Qed.

Lemma countDefined_holes n : countDefined (replicate n (@None A)) = 0.
Proof.
  induction n as [|n IH]; [reflexivity |].
  unfold countDefined in *. cbn [replicate].
  rewrite filter_cons_False by (intros [x Hx]; discriminate). exact IH.
Qed.

Lemma countDefined_cons_Some value array :
  countDefined (Some value :: array) = S (countDefined array).
Proof. unfold countDefined. rewrite filter_cons_True by (eexists; reflexivity). reflexivity. Qed.

Lemma countDefined_cons_None array :
  countDefined (None :: array) = countDefined array.
Proof.
  unfold countDefined. rewrite filter_cons_False by (intros [x Hx]; discriminate).
  reflexivity.
Qed.

Lemma countDefined_arraySet i value array :
  countDefined (arraySet i value array) =
  match array !! i with
  | Some (Some _) => countDefined array
  | _ => S (countDefined array)
  end.
Proof.
  unfold arraySet. destruct (Nat.ltb_spec i (length array)) as [Hlt|Hge].
  - destruct (lookup_lt_is_Some_2 array i Hlt) as [old Hold]. rewrite Hold.
    rewrite insert_take_drop by exact Hlt.
    assert (Harr : countDefined array =
                   countDefined (take i array ++ old :: drop (S i) array))
      by (rewrite (take_drop_middle array i old Hold); reflexivity).
    destruct old as [v|]; cbv iota; rewrite Harr, !countDefined_app, countDefined_cons_Some;
      [rewrite countDefined_cons_Some | rewrite countDefined_cons_None]; lia.
  - rewrite lookup_ge_None_2 by lia.
    rewrite !countDefined_app, countDefined_holes, countDefined_cons_Some.
    change (countDefined (@nil (option A))) with 0. lia.
Qed.


End SlotProperties.


(** ** A transfer, whatever the order of its chunks *)

Section TransferAnyOrder.
Import Protocol PeerManager.

Variables (clk : Clocks) (peer : string) (payload : list byte) (name : string)
          (duration : Q) (s : System).

Local Abbreviation chunks := (AudioEngine.chunkArrayBuffer payload).
Local Abbreviation total := (length (AudioEngine.chunkArrayBuffer payload)).
Local Abbreviation savedMeta :=
  {| meta_name := name; meta_size := length payload; meta_duration := duration;
     meta_mimeType := "audio/mpeg"; meta_totalChunks := total |}.
Local Abbreviation chunkMessage :=
  (fun i => AUDIO_CHUNK i total (default ""%string (chunks !! i))).

(** The session while the chunks of the indices [received] have arrived
    and others are still to come. *)
Local Abbreviation receiving received st :=
  (audioMeta (pm st) = Some savedMeta /\
   (exists array : list (option string),
      audioChunks (pm st) !! peer = Some array /\
      length array <= total /\
      countDefined array = length received /\
      (forall i, i ∈ received%list -> array !! i = Some (chunks !! i)) /\
      (forall i, i ∉ received%list -> array !! i = None \/ array !! i = Some None)) /\
   pendingPlaybackState (pm st) = pendingPlaybackState (pm s) /\
   loads st = loads s /\ console st = console s /\
   store st = Store.setPlaybackState Store.loading (store s) /\
   audio st = audio s).

(** The session once the last chunk has arrived. *)
Local Abbreviation reassembled st :=
  (audioMeta (pm st) = Some savedMeta /\
   audioChunks (pm st) !! peer = Some (Some <$> chunks) /\
   pendingPlaybackState (pm st) = pendingPlaybackState (pm s) /\
   loads st = loads s ++
     [{| load_peerId := peer; load_savedMeta := savedMeta; load_buffer := payload;
         load_clockOffset := Store.clockOffset (store s) |}] /\
   console st = console s ++ [LogAllChunksReceived; LogReassembled (length payload)] /\
   store st = Store.setPlaybackState Store.loading (store s) /\
   audio st = audio s).

Lemma chunkMessages_seq :
  chunkMessages chunks = chunkMessage <$> seq 0 total.
Proof.
  apply list_eq. intros i. unfold chunkMessages.
  rewrite list_lookup_imap, list_lookup_fmap.
  destruct (chunks !! i) as [c|] eqn:E.
  - rewrite lookup_seq_lt by (eapply lookup_lt_Some, E). cbn. rewrite E. reflexivity.
  - rewrite lookup_seq_ge by (apply lookup_ge_None, E). reflexivity.
Qed.

Lemma after_meta :
  receiving (@nil nat)
    (handleMessage clk peer (AUDIO_META name (length payload) duration "audio/mpeg" total) s).
Proof.
  cbn. split; [reflexivity |]. split; [| repeat split].
  exists []. rewrite lookup_insert_eq.
  split; [reflexivity |]. split; [simpl; lia |]. split; [reflexivity |].
  split; [intros i Hi; inversion Hi | intros i _; left; reflexivity].
Qed.

Lemma chunk_arrives (received todo : list nat) (j : nat) (st : System) :
  payload <> [] ->
  receiving received st ->
  received ++ j :: todo ≡ₚ seq 0 total ->
  (todo <> [] -> receiving (received ++ [j]) (handleMessage clk peer (chunkMessage j) st)) /\
  (todo = [] -> reassembled (handleMessage clk peer (chunkMessage j) st)).
Proof.
  intros Hpayload (Hmeta & (array & Harray & Hlen & Hcount & Hin & Hout) & Hpend & Hloads &
                   Hcons & Hstore & Haudio) Hperm.
  assert (Hnodup : NoDup (received ++ j :: todo)) by (rewrite Hperm; apply NoDup_seq).
  apply NoDup_app in Hnodup as (_ & Hdisj & Hjtodo).
  assert (Hj : j < total).
  { assert (Hjin : j ∈ seq 0 total)
      by (rewrite <- Hperm; apply elem_of_app; right; constructor).
    apply elem_of_seq in Hjin. lia. }
  assert (Hjnew : j ∉ received) by (intros Hjr; apply (Hdisj j Hjr); constructor).
  assert (Hsize : length received + S (length todo) = total).
  { apply Permutation_length in Hperm.
    rewrite length_app, length_seq in Hperm. simpl in Hperm. exact Hperm. }
  destruct (lookup_lt_is_Some_2 chunks j Hj) as [c Hc].
  set (array1 := arraySet j c array).
  assert (Hcount1 : countDefined array1 = S (length received)).
  { unfold array1. rewrite countDefined_arraySet.
    destruct (Hout j Hjnew) as [-> | ->]; rewrite Hcount; reflexivity. }
  assert (Hlen1 : length array1 <= total)
    by (unfold array1; rewrite length_arraySet; lia).
  assert (Hin1 : forall i, i ∈ received ++ [j] -> array1 !! i = Some (chunks !! i)).
  { intros i Hi. apply elem_of_app in Hi as [Hi|Hi].
    - assert (Hne : i <> j) by (intros ->; contradiction).
      unfold array1. rewrite lookup_arraySet_ne by exact Hne.
      pose proof (Hin i Hi) as Hi'.
      destruct (decide (i < length array)) as [_|Hge]; [exact Hi' |].
      apply lookup_lt_Some in Hi'. lia.
    - apply list_elem_of_singleton in Hi. subst i.
      unfold array1. rewrite lookup_arraySet_eq, Hc. reflexivity. }
  assert (Hout1 : forall i, i ∉ received ++ [j] ->
                            array1 !! i = None \/ array1 !! i = Some None).
  { intros i Hi.
    assert (Hne : i <> j) by (intros ->; apply Hi, elem_of_app; right; constructor).
    assert (Hnr : i ∉ received) by (intros Hr; apply Hi, elem_of_app; left; exact Hr).
    unfold array1. rewrite lookup_arraySet_ne by exact Hne.
    destruct (decide (i < length array)); [apply Hout, Hnr |].
    destruct (decide (i < j)); [right | left]; reflexivity. }
  assert (Hstep : handleMessage clk peer (chunkMessage j) st =
    let s1 := setAudioChunks (<[peer := array1]> (audioChunks (pm st))) st in
    if (countDefined array1 =? total)%nat
    then processReceivedAudio peer (store st) (log LogAllChunksReceived s1)
    else s1).
  { unfold handleMessage. rewrite Harray, Hmeta, Hc. reflexivity. }
  rewrite Hstep, Hcount1. cbv zeta. split.
  - intros Htodo.
    destruct (Nat.eqb_spec (S (length received)) total) as [E|_].
    { destruct todo; [congruence | simpl in Hsize; lia]. }
    cbn. split; [exact Hmeta |]. split; [| repeat split; assumption].
    exists array1. rewrite lookup_insert_eq.
    split; [reflexivity |]. split; [exact Hlen1 |].
    split; [rewrite length_app; simpl; lia |].
    split; [exact Hin1 | exact Hout1].
  - intros Htodo. subst todo. simpl in Hsize.
    destruct (Nat.eqb_spec (S (length received)) total) as [_|E]; [| lia].
    assert (Hfull : array1 = Some <$> chunks).
    { apply list_eq. intros i. rewrite list_lookup_fmap.
      destruct (decide (i < total)) as [Hi|Hi].
      - rewrite Hin1.
        + destruct (lookup_lt_is_Some_2 chunks i Hi) as [ci ->]. reflexivity.
        + assert (Hseq : i ∈ seq 0 total) by (apply elem_of_seq; lia).
          rewrite <- Hperm in Hseq. exact Hseq.
      - rewrite !lookup_ge_None_2 by lia. reflexivity. }
    unfold processReceivedAudio. cbn [pm log setAudioChunks withPm audioMeta audioChunks].
    rewrite Hmeta, lookup_insert_eq, Hfull.
    change (Some <$> chunks) with (map Some chunks).
    rewrite (roundtrip_nonempty payload Hpayload).
    cbn. rewrite lookup_insert_eq, Hstore.
    repeat split; try assumption; try congruence.
    + rewrite Hloads. reflexivity.
    + rewrite Hcons, <- app_assoc. reflexivity.
Qed.

Lemma chunks_arrive (todo received : list nat) (st : System) :
  payload <> [] -> todo <> [] ->
  receiving received st ->
  received ++ todo ≡ₚ seq 0 total ->
  reassembled (run st (Receive clk peer <$> (chunkMessage <$> todo))).
Proof.
  intros Hpayload. revert received st.
  induction todo as [|j todo IH]; intros received st Hne Hrecv Hperm; [congruence |].
  destruct (chunk_arrives received todo j st Hpayload Hrecv Hperm) as [Hmore Hlast].
  cbn [fmap list_fmap run foldl step].
  destruct todo as [|j' todo'].
  - apply Hlast. reflexivity.
  - apply (IH (received ++ [j])); [discriminate | apply Hmore; discriminate |].
    rewrite <- app_assoc. exact Hperm.
Qed.

Lemma chunks_nonempty : payload <> [] -> chunks <> [].
Proof.
  intros Hpayload Hnil.
  destruct (chunkArrayBuffer_pieces payload) as (pieces & Hchunks & Hcat & _).
  rewrite Hnil in Hchunks. symmetry in Hchunks. apply map_eq_nil in Hchunks.
  subst pieces. simpl in Hcat. congruence.
Qed.

(** A transfer survives any order of delivery.  The receiver is sent a
    non-empty payload by [streamAudioToPeer]; it gets the metadata first and
    then the chunk messages in any order whatever.  None of the chunks but
    the last to arrive triggers anything; when the last one arrives the
    chunks are reassembled, once, into exactly the payload that was sent,
    and its decoding is started; until then the playback state is
    [loading].  When the decoding succeeds (and no play instruction is
    queued), the payload and its metadata are in the store, the playback
    state is [stopped], and the session is closed. *)
Theorem transfer_any_order (delivered : list ProtocolMessage) (clk' : Clocks)
    (decodedDuration : Q) :
  payload <> [] ->
  delivered ≡ₚ chunkMessages (AudioEngine.chunkArrayBuffer payload) ->
  pendingPlaybackState (pm s) = None ->
  let meta := AUDIO_META name (length payload) duration "audio/mpeg" total in
  let received := run s (Receive clk peer <$> (meta :: delivered)) in
  let loaded :=
    step received (DecodeSettles clk' (length (loads s)) (Some decodedDuration)) in
  hd_error (streamedMessages payload name duration) = Some meta /\
  (loads received = loads s ++
     [{| load_peerId := peer; load_savedMeta := savedMeta; load_buffer := payload;
         load_clockOffset := Store.clockOffset (store s) |}] /\
   reassemblies received = S (reassemblies s) /\
   Store.playbackState (store received) = Store.loading) /\
  (Store.audioFile (store loaded) =
     Some {| Store.file_name := name; Store.file_size := length payload;
             Store.file_duration := duration; Store.file_buffer := payload |} /\
   Store.playbackState (store loaded) = Store.stopped /\
   AudioEngine.isReady (audio loaded) = true /\
   loads loaded = loads s /\
   audioMeta (pm loaded) = None /\ audioChunks (pm loaded) !! peer = None).
Proof.
  intros Hpayload Hperm Hnopending meta received loaded.
  split; [reflexivity |].
  rewrite chunkMessages_seq in Hperm.
  apply Permutation_map_inv in Hperm as (order & Hdelivered & Horder).
  assert (Horder_ne : order <> []).
  { intros Hnil. subst order. apply Permutation_nil_r in Horder.
    apply (f_equal length) in Horder. rewrite length_seq in Horder.
    apply chunks_nonempty in Hpayload. destruct chunks; [congruence | discriminate]. }
  assert (Hfinal : reassembled received).
  { unfold received. subst delivered. cbn [fmap list_fmap run foldl step].
    apply (chunks_arrive order []); [exact Hpayload | exact Horder_ne | apply after_meta |].
    symmetry. exact Horder. }
  destruct Hfinal as (Hmeta & Harray & Hpend & Hloads & Hcons & Hstore & Haudio).
  split.
  - split; [exact Hloads | split].
    + unfold reassemblies. rewrite Hcons, filter_app, length_app. simpl. lia.
    + rewrite Hstore. reflexivity.
  - unfold loaded. clearbody received.
    destruct received as [[conns chs meta0 pend] st0 au lds cons0].
    cbn [pm store audio loads console audioMeta audioChunks pendingPlaybackState]
      in Hmeta, Harray, Hpend, Hloads, Hstore, Haudio.
    subst meta0 pend lds st0 au.
    cbn [step loads]. rewrite lookup_app_r by lia.
    rewrite Nat.sub_diag. cbn [lookup list_lookup].
    rewrite <- (app_nil_r (loads s)) at 1.
    rewrite (delete_middle (loads s) [] _), app_nil_r.
    unfold processReceivedAudio_settled. rewrite Hnopending. cbn.
    rewrite lookup_delete_eq. repeat split.
Qed.

End TransferAnyOrder.

Lemma transfer_any_order_witness :
  let clk := {| PeerManager.dateNow := 0; PeerManager.performanceNow := 0;
                PeerManager.toneNow := 0 |} in
  let payload := ["M"; "a"; "n"]%byte in
  let received :=
    PeerManager.run PeerManager.initial
      [PeerManager.Receive clk "host" (Protocol.AUDIO_META "a.mp3" 3 1 "audio/mpeg" 1);
       PeerManager.Receive clk "host" (Protocol.AUDIO_CHUNK 0 1 "TWFu")] in
  PeerManager.reassemblies received = 1 /\
  Store.playbackState (PeerManager.store received) = Store.loading.
Proof.
  intros clk payload received.
  destruct (transfer_any_order clk "host" payload "a.mp3" 1 PeerManager.initial
              [Protocol.AUDIO_CHUNK 0 1 "TWFu"] clk 1)
    as (_ & (_ & Hcount & Hstate) & _).
  - discriminate.
  - vm_compute. reflexivity.
  - reflexivity.
  - split; [exact Hcount | exact Hstate].
Defined.

(** ** The receiver's session, the queued play instruction, the master flag *)

Section PeerManagerFurther.
Import Protocol PeerManager.

Lemma countDefined_encoded (slots : list (option (list byte))) :
  countDefined (fmap (M:=option) AudioEngine.arrayBufferToBase64 <$> slots) =
  length (omap (M:=list) id slots).
Proof.
  induction slots as [|[p|] slots IH]; [reflexivity | |].
  - cbn [fmap list_fmap option_fmap option_map]. rewrite countDefined_cons_Some.
    cbn. f_equal. exact IH.
  - cbn [fmap list_fmap option_fmap option_map]. rewrite countDefined_cons_None.
    cbn. exact IH.
Qed.

(** The completion sentinel on an open session.  When chunks are missing
    but some have arrived, the sentinel reassembles what has arrived, the
    pieces present in index order, and starts decoding it; the session stays
    open until the decoding settles.  When no chunk has arrived at all, it
    sets the playback state to [stopped] and starts nothing. *)
Theorem sentinel_on_open_session (clk : Clocks) (peer : string) (s : System)
    (meta : AudioMeta) (array : list (option string)) :
  audioMeta (pm s) = Some meta ->
  audioChunks (pm s) !! peer = Some array ->
  let s' := handleMessage clk peer AUDIO_COMPLETE s in
  (forall slots : list (option (list byte)),
     array = fmap (M:=option) AudioEngine.arrayBufferToBase64 <$> slots ->
     Forall (fun p => p <> []) (omap (M:=list) id slots) ->
     omap (M:=list) id slots <> [] ->
     loads s' = loads s ++
       [{| load_peerId := peer; load_savedMeta := meta;
           load_buffer := concat (omap (M:=list) id slots);
           load_clockOffset := Store.clockOffset (store s) |}] /\
     reassemblies s' = S (reassemblies s) /\
     pm s' = pm s /\ store s' = store s) /\
  (countDefined array = 0 ->
     Store.playbackState (store s') = Store.stopped /\
     loads s' = loads s /\ reassemblies s' = reassemblies s /\
     console s' = console s ++ [LogNoChunksReceived]).
Proof.
  intros Hmeta Harray s'. split.
  - intros slots Hslots Hall Hne.
    assert (Hcount : (0 <? countDefined array) = true).
    { apply Nat.ltb_lt. rewrite Hslots, countDefined_encoded.
      destruct (omap (M:=list) id slots); [congruence | simpl; lia]. }
    assert (Hok : AudioEngine.reassembleChunks array =
                  AudioEngine.Ok (concat (omap (M:=list) id slots))).
    { rewrite Hslots. apply reassembleChunks_present; assumption. }
    unfold s', handleMessage. rewrite Harray, Hmeta, Hcount.
    unfold processReceivedAudio. rewrite Hmeta, Harray, Hok. cbn.
    split; [reflexivity | split; [| split; reflexivity]].
    unfold reassemblies. cbn. rewrite filter_app, length_app. simpl. lia.
  - intros Hzero. unfold s', handleMessage. rewrite Harray, Hmeta, Hzero. cbn.
    split; [reflexivity | split; [reflexivity | split; [| reflexivity]]].
    unfold reassemblies. cbn. rewrite filter_app, length_app. simpl. lia.
Qed.

Lemma sentinel_on_open_session_witness :
  let clk := {| dateNow := 0; performanceNow := 0; toneNow := 0 |} in
  let s := run initial
    [Receive clk "host" (AUDIO_META "a.mp3" 4 1 "audio/mpeg" 3);
     Receive clk "host" (AUDIO_CHUNK 2 3 "IQ==");
     Receive clk "host" (AUDIO_CHUNK 0 3 "TWFu")] in
  exists l, last (loads (handleMessage clk "host" AUDIO_COMPLETE s)) = Some l /\
            load_buffer l = ["M"; "a"; "n"; "!"]%byte.
Proof.
  intros clk s.
  destruct (sentinel_on_open_session clk "host" s
              {| meta_name := "a.mp3"; meta_size := 4; meta_duration := 1;
                 meta_mimeType := "audio/mpeg"; meta_totalChunks := 3 |}
              [Some "TWFu"; None; Some "IQ=="] eq_refl ltac:(vm_compute; reflexivity))
    as [Hgaps _].
  destruct (Hgaps [Some ["M"; "a"; "n"]%byte; None; Some ["!"%byte]])
    as (Hloads & _).
  - vm_compute. reflexivity.
  - repeat constructor; discriminate.
  - discriminate.
  - eexists. rewrite Hloads. split; [apply last_snoc | reflexivity].
Defined.

(** The session is always discarded when the decoding settles, whether it
    succeeded or failed: no metadata is kept and the link has no slot array
    any more, so that a sentinel or a chunk that arrives afterwards on that
    link changes nothing but the console.  After a failed decoding the
    playback state is [stopped] and the store holds the audio file it held
    before. *)
Theorem session_discarded_when_settled (clk : Clocks) (l : PendingLoad)
    (decoded : option Q) (s : System) :
  let s' := processReceivedAudio_settled clk l decoded s in
  audioMeta (pm s') = None /\
  audioChunks (pm s') !! load_peerId l = None /\
  (forall clk', handleMessage clk' (load_peerId l) AUDIO_COMPLETE s' =
                log LogAlreadyProcessed s') /\
  (forall clk' i n data, handleMessage clk' (load_peerId l) (AUDIO_CHUNK i n data) s' =
                         log LogNoMetaOrStorage s') /\
  (decoded = None ->
     Store.playbackState (store s') = Store.stopped /\
     Store.audioFile (store s') = Store.audioFile (store s) /\
     audio s' = audio s).
Proof.
  intros s'.
  assert (Hmeta : audioMeta (pm s') = None).
  { unfold s', processReceivedAudio_settled.
    destruct (AudioEngine.loadFromArrayBuffer_settled decoded (audio s)) as [a1 loaded].
    reflexivity. }
  assert (Hchunks : audioChunks (pm s') !! load_peerId l = None).
  { unfold s', processReceivedAudio_settled.
    destruct (AudioEngine.loadFromArrayBuffer_settled decoded (audio s)) as [a1 loaded].
    cbn. apply lookup_delete_eq. }
  split; [exact Hmeta | split; [exact Hchunks |]].
  split; [intros clk'; unfold handleMessage; rewrite Hchunks; reflexivity |].
  split; [intros clk' i n data; unfold handleMessage; rewrite Hchunks; reflexivity |].
  intros ->. unfold s', processReceivedAudio_settled. cbn. repeat split.
Qed.



(** The master handoff, end to end.  When the host grants master to a
    guest it has a connection to, the message goes out on that connection
    and the host gives up its own flag; the guest named in the message sets
    its flag when it handles it; a participant with another id that handles
    the same message is left as it was. *)
Theorem master_handoff (clk : Clocks) (hostId guestId : string)
    (host guest other : System) (sent : list ProtocolMessage) :
  connections (pm host) !! guestId = Some sent ->
  Store.peerId (store guest) = Some guestId ->
  Store.peerId (store other) <> Some guestId ->
  let host' := grantMaster guestId host in
  connections (pm host') !! guestId = Some (sent ++ [GRANT_MASTER guestId]) /\
  Store.isMaster (store host') = false /\
  Store.isMaster (store (handleMessage clk hostId (GRANT_MASTER guestId) guest)) = true /\
  handleMessage clk hostId (GRANT_MASTER guestId) other = other.
Proof.
  intros Hconn Hguest Hother host'.
  split; [| split; [| split]].
  - unfold host', grantMaster. rewrite Hconn. cbn.
    rewrite lookup_alter_eq, Hconn. reflexivity.
  - unfold host', grantMaster. rewrite Hconn. reflexivity.
  - unfold handleMessage. rewrite Hguest.
    destruct (decide (Some guestId = Some guestId)); [reflexivity | congruence].
  - unfold handleMessage.
    destruct (decide (Some guestId = Store.peerId (store other))); [congruence | reflexivity].
Qed.

Lemma master_handoff_witness :
  let clk := {| dateNow := 0; performanceNow := 0; toneNow := 0 |} in
  let host := connectionOpened "g1" (storeSetIsMaster true initial) in
  let guest := withStore
    {| Store.peerId := Some "g1"; Store.connectedPeers := ∅; Store.audioFile := None;
       Store.playbackState := Store.stopped; Store.isMaster := false;
       Store.clockOffset := 0 |} initial in
  Store.isMaster (store (grantMaster "g1" host)) = false /\
  Store.isMaster (store (handleMessage clk "h" (GRANT_MASTER "g1") guest)) = true.
Proof.
  intros clk host guest.
  destruct (master_handoff clk "h" "g1" host guest initial [])
    as (_ & Hhost & Hguest & _).
  - vm_compute. reflexivity.
  - reflexivity.
  - discriminate.
  - split; [exact Hhost | exact Hguest].
Defined.

(** A broadcast play starts every participant at the same instant.  The
    host broadcasts at host time [T] and every open connection gets the
    instruction to start at [T + 300]; the host's own player, scheduled
    [e] ms later, is started after [(300 - e) / 1000] seconds.  A guest whose
    offset to the host is [theta] (its clock reads the host's minus [theta])
    and that handles the instruction [tau] ms after the broadcast starts its
    player after [(300 - tau) / 1000] seconds: both players start when the
    host's clock reads [T + 300]. *)
Theorem broadcastPlay_synchronised (clkH clkH' clkG : Clocks) (hostId guestId : string)
    (host guest : System) (sent : list ProtocolMessage)
    (callsH callsG : list AudioEngine.PlayerCall) (seekPosition theta e tau : Q) :
  connections (pm host) !! guestId = Some sent ->
  AudioEngine.player (audio host) = Some callsH ->
  AudioEngine.isReady (audio host) = true ->
  AudioEngine.player (audio guest) = Some callsG ->
  AudioEngine.isReady (audio guest) = true ->
  Store.clockOffset (store guest) = theta ->
  (performanceNow clkH' == performanceNow clkH + e)%Q -> (e < 300)%Q ->
  (performanceNow clkG == performanceNow clkH + tau - theta)%Q -> (tau < 300)%Q ->
  let host' := broadcastPlay clkH clkH' seekPosition host in
  let message := SCHEDULE_PLAY (performanceNow clkH + 300)%Q seekPosition in
  let guest' := handleMessage clkG hostId message guest in
  connections (pm host') !! guestId = Some (sent ++ [message]) /\
  Store.playbackState (store host') = Store.playing /\
  Store.playbackState (store guest') = Store.playing /\
  exists delayH delayG,
    (delayH == (300 - e) / 1000)%Q /\ (delayG == (300 - tau) / 1000)%Q /\
    AudioEngine.player (audio host') =
      Some (callsH ++ [AudioEngine.PlayerSeek seekPosition;
                       AudioEngine.PlayerStart (toneNow clkH' + delayH)%Q seekPosition]) /\
    AudioEngine.player (audio guest') =
      Some (callsG ++ [AudioEngine.PlayerSeek seekPosition;
                       AudioEngine.PlayerStart (toneNow clkG + delayG)%Q seekPosition]).
Proof.
  intros Hconn HpH HrH HpG HrG Htheta HclkH He HclkG Htau host' message guest'.
  destruct (schedulePlay_future (performanceNow clkH + SCHEDULE_BUFFER)%Q seekPosition 0
              (performanceNow clkH') (toneNow clkH') (audio host) callsH HpH HrH)
    as (delayH & _ & HdelayH & HplayerH).
  { unfold SCHEDULE_BUFFER. lra. }
  destruct (schedulePlay_future (performanceNow clkH + 300)%Q seekPosition theta
              (performanceNow clkG) (toneNow clkG) (audio guest) callsG HpG HrG)
    as (delayG & _ & HdelayG & HplayerG).
  { lra. }
  split; [| split; [| split]].
  - unfold host', broadcastPlay, sendToAll. cbn.
    rewrite lookup_fmap, Hconn. reflexivity.
  - reflexivity.
  - unfold guest', message, handleMessage, AudioEngine.getIsReady. rewrite HrG. reflexivity.
  - exists delayH, delayG.
    split; [| split; [| split]].
    + rewrite HdelayH. unfold SCHEDULE_BUFFER, Qdiv. change (/ 1000)%Q with (1 # 1000)%Q. lra.
    + rewrite HdelayG. unfold Qdiv. change (/ 1000)%Q with (1 # 1000)%Q. lra.
    + exact HplayerH.
    + unfold guest', message, handleMessage, AudioEngine.getIsReady. rewrite HrG.
      cbn. rewrite Htheta. exact HplayerG.
Qed.

Lemma broadcastPlay_synchronised_witness :
  let ready := {| AudioEngine.player := Some []; AudioEngine.buffer := Some 60%Q;
                  AudioEngine.scheduledEventId := None; AudioEngine.isReady := true;
                  AudioEngine.transport := [] |} in
  let host := withAudio ready (connectionOpened "g1" initial) in
  let guest := withAudio ready
    (withStore (Store.setClockOffset 40 Store.initialState) initial) in
  let clkH := {| dateNow := 0; performanceNow := 1000; toneNow := 3 |} in
  let clkG := {| dateNow := 0; performanceNow := 980; toneNow := 9 |} in
  Store.playbackState (store (broadcastPlay clkH clkH 0 host)) = Store.playing /\
  Store.playbackState
    (store (handleMessage clkG "h" (SCHEDULE_PLAY (1000 + 300)%Q 0) guest)) = Store.playing.
Proof.
  intros ready host guest clkH clkG.
  destruct (broadcastPlay_synchronised clkH clkH clkG "h" "g1" host guest [] [] [] 0 40 0 20)
    as (_ & HH & HG & _); try reflexivity.
  split; [exact HH | exact HG].
Defined.

(** *** The retry policy *)

Ltac outcome :=
  repeat match goal with
         | |- (_, _) = (_, _) => apply pair_equal_spec; split
         end;
  try reflexivity; try (f_equal; lia); try lia.

Lemma retryFrom_success {T E} (operation : nat -> T + E) (baseDelayMs : nat) (value : T) :
  forall k attempt remaining slept,
    k <= remaining ->
    operation (attempt + k) = inl value ->
    (forall i, i < k -> exists e, operation (attempt + i) = inr e) ->
    retryFrom operation baseDelayMs attempt remaining slept =
    (inl value, S (attempt + k), slept + k * baseDelayMs).
Proof.
  induction k as [|k IH]; intros attempt remaining slept Hle Hok Hfail.
  - rewrite Nat.add_0_r in *. destruct remaining; simpl; rewrite Hok; outcome.
  - destruct (Hfail 0 ltac:(lia)) as [e He]. rewrite Nat.add_0_r in He.
    destruct remaining as [|remaining]; [lia |].
    simpl. rewrite He.
    rewrite (IH (S attempt) remaining (slept + baseDelayMs)).
    + outcome.
    + lia.
    + rewrite <- Hok. f_equal. lia.
    + intros i Hi. destruct (Hfail (S i) ltac:(lia)) as [e' He']. exists e'.
      rewrite <- He'. f_equal. lia.
Qed.

Lemma retryFrom_exhausted {T E} (operation : nat -> T + E) (baseDelayMs : nat) :
  forall remaining attempt slept,
    (forall i, i <= remaining -> exists e, operation (attempt + i) = inr e) ->
    exists e, operation (attempt + remaining) = inr e /\
      retryFrom operation baseDelayMs attempt remaining slept =
      (inr e, S (attempt + remaining), slept + remaining * baseDelayMs).
Proof.
  induction remaining as [|remaining IH]; intros attempt slept Hfail.
  - destruct (Hfail 0 ltac:(lia)) as [e He]. exists e. split; [exact He |].
    rewrite Nat.add_0_r in *. simpl. rewrite He. outcome.
  - destruct (Hfail 0 ltac:(lia)) as [e He]. rewrite Nat.add_0_r in He.
    destruct (IH (S attempt) (slept + baseDelayMs)) as (e' & He' & Hrun).
    { intros i Hi. destruct (Hfail (S i) ltac:(lia)) as [e'' He'']. exists e''.
      rewrite <- He''. f_equal. lia. }
    exists e'. split; [rewrite <- He'; f_equal; lia |].
    simpl. rewrite He, Hrun. outcome.
Qed.

Lemma retryFrom_calls {T E} (operation : nat -> T + E) (baseDelayMs : nat) :
  forall remaining attempt slept,
    snd (fst (retryFrom operation baseDelayMs attempt remaining slept)) <=
    S (attempt + remaining).
Proof.
  induction remaining as [|remaining IH]; intros attempt slept; simpl.
  - destruct (operation attempt); simpl; lia.
  - destruct (operation attempt); simpl; [lia |].
    specialize (IH (S attempt) (slept + baseDelayMs)). lia.
Qed.

(** [withRetry] calls the operation at most [maxRetries + 1] times.  It
    settles with the value of the first call that succeeds, having waited
    [baseDelayMs] after each failure before it; when all [maxRetries + 1]
    calls fail it settles with the error of the last call, having waited
    [maxRetries] times, and not after the last failure. *)
Theorem withRetry_policy {T E} (operation : nat -> T + E) (maxRetries baseDelayMs : nat) :
  snd (fst (withRetry operation maxRetries baseDelayMs)) <= S maxRetries /\
  (forall k value,
     k <= maxRetries -> operation k = inl value ->
     (forall i, i < k -> exists e, operation i = inr e) ->
     withRetry operation maxRetries baseDelayMs = (inl value, S k, k * baseDelayMs)) /\
  ((forall i, i <= maxRetries -> exists e, operation i = inr e) ->
     exists e, operation maxRetries = inr e /\
       withRetry operation maxRetries baseDelayMs =
       (inr e, S maxRetries, maxRetries * baseDelayMs)).
Proof.
  split; [apply (retryFrom_calls operation baseDelayMs maxRetries 0 0) | split].
  - intros k value Hk Hok Hfail.
    exact (retryFrom_success operation baseDelayMs value k 0 maxRetries 0 Hk Hok Hfail).
  - intros Hfail.
    exact (retryFrom_exhausted operation baseDelayMs maxRetries 0 0 Hfail).
Qed.

Lemma withRetry_policy_witness :
  let flaky := fun k : nat => if (k <? 2) then inr "timeout"%string else inl k in
  let dead := fun k : nat => @inr nat string "timeout"%string in
  withRetry flaky 2 500 = (inl 2, 3, 1000) /\
  exists e, withRetry dead 2 500 = (inr e, 3, 1000).
Proof.
  intros flaky dead.
  destruct (withRetry_policy flaky 2 500) as (_ & Hfirst & _).
  destruct (withRetry_policy dead 2 500) as (_ & _ & Hall).
  split.
  - apply (Hfirst 2 2); [lia | reflexivity |].
    intros i Hi. exists "timeout"%string.
    destruct i as [|[|i]]; [reflexivity | reflexivity | lia].
  - destruct Hall as (e & _ & Hrun).
    + intros i _. exists "timeout"%string. reflexivity.
    + exists e. exact Hrun.
Defined.

End PeerManagerFurther.

(** ** Scheduling before the deadline *)

Section SchedulePlayFurther.
Import AudioEngine.
Local Open Scope Q_scope.

(** [schedulePlay] on an engine that is not ready, or has no player, does
    nothing at all.  On a ready engine, with the deadline
    [scheduledTime - clockOffset] still ahead on the local clock, it cancels
    what was scheduled, seeks, and starts the player at [seekPosition] after
    the time left to the deadline, in seconds, which is more than 0. *)
Theorem schedulePlay_before_deadline
    (scheduledTime seekPosition clockOffset now toneNow : Q) (a : AudioEngine) :
  ((player a = None \/ isReady a = false) ->
     schedulePlay scheduledTime seekPosition clockOffset now toneNow a = a) /\
  (forall calls,
     player a = Some calls -> isReady a = true ->
     now < scheduledTime - clockOffset ->
     let a' := schedulePlay scheduledTime seekPosition clockOffset now toneNow a in
     scheduledEventId a' = None /\ buffer a' = buffer a /\ isReady a' = true /\
     exists delay,
       0 < delay /\ delay == (scheduledTime - clockOffset - now) / 1000 /\
       player a' = Some (calls ++ [PlayerSeek seekPosition;
                                   PlayerStart (toneNow + delay) seekPosition])).
Proof.
  split.
  - intros [Hnone|Hnot]; unfold schedulePlay.
    + rewrite Hnone. reflexivity.
    + destruct (player a); [rewrite Hnot |]; reflexivity.
  - intros calls Hp Hr Hfuture a'.
    destruct (schedulePlay_future scheduledTime seekPosition clockOffset now toneNow
                a calls Hp Hr Hfuture) as (delay & Hpos & Hdelay & Hplayer).
    assert (Hrest : scheduledEventId a' = None /\ buffer a' = buffer a /\ isReady a' = true).
    { unfold a', schedulePlay. rewrite Hp, Hr. cbn [negb].
      unfold cancelScheduled. destruct (scheduledEventId a) eqn:E; cbn; rewrite ?E; auto. }
    destruct Hrest as (H1 & H2 & H3).
    split; [exact H1 | split; [exact H2 | split; [exact H3 |]]].
    exists delay. split; [exact Hpos | split; [exact Hdelay | exact Hplayer]].
Qed.

Lemma schedulePlay_before_deadline_witness :
  let a := {| player := Some []; buffer := Some 60; scheduledEventId := Some 4%nat;
              isReady := true; transport := [] |} in
  exists delay,
    delay == (5300 - 40 - 5000) / 1000 /\
    player (schedulePlay 5300 12 40 5000 7 a) =
      Some [PlayerSeek 12; PlayerStart (7 + delay) 12].
Proof.
  intros a.
  destruct (schedulePlay_before_deadline 5300 12 40 5000 7 a) as [_ Hready].
  destruct (Hready [] eq_refl eq_refl ltac:(lra)) as (_ & _ & _ & delay & _ & Hd & Hp).
  exists delay. split; [exact Hd | exact Hp].
Defined.

End SchedulePlayFurther.

(** ** What the message handling leaves alone, and what the sender sends *)

Section FrameProperties.
Import Protocol PeerManager.

Lemma processReceivedAudio_frame (peerId : string) (snapshot : Store.MeshBeatState)
    (s : System) :
  let s' := processReceivedAudio peerId snapshot s in
  Store.peerId (store s') = Store.peerId (store s) /\
  Store.clockOffset (store s') = Store.clockOffset (store s) /\
  Store.connectedPeers (store s') = Store.connectedPeers (store s) /\
  connections (pm s') = connections (pm s) /\
  Store.isMaster (store s') = Store.isMaster (store s).
Proof.
  unfold processReceivedAudio.
  destruct (audioMeta (pm s)), (audioChunks (pm s) !! peerId); try (cbn; auto 6).
  destruct (AudioEngine.reassembleChunks l); cbn; auto 6.
Qed.

Lemma processReceivedAudio_settled_frame (clk : Clocks) (l : PendingLoad)
    (decoded : option Q) (s : System) :
  let s' := processReceivedAudio_settled clk l decoded s in
  Store.peerId (store s') = Store.peerId (store s) /\
  Store.clockOffset (store s') = Store.clockOffset (store s) /\
  Store.connectedPeers (store s') = Store.connectedPeers (store s) /\
  connections (pm s') = connections (pm s) /\
  Store.isMaster (store s') = Store.isMaster (store s).
Proof.
  unfold processReceivedAudio_settled.
  destruct decoded; cbn; [| auto 6].
  destruct (pendingPlaybackState (pm s)) as [p|]; cbn; [| auto 6].
  destruct (isPlaying p); cbn; auto 6.
Qed.

Ltac frame_solve :=
  cbn; repeat split; auto;
  try apply dom_alter_L; try (apply dom_insert_lookup_L; eauto);
  try (intros Hgrant Hrevoke; exfalso;
       first [eapply Hgrant; reflexivity | eapply Hrevoke; reflexivity]).

Ltac frame_via H :=
  destruct H as (Hf1 & Hf2 & Hf3 & Hf4 & Hf5); cbv zeta in Hf1, Hf2, Hf3, Hf4, Hf5;
  rewrite Hf1, Hf2, Hf3, Hf4, Hf5; clear Hf1 Hf2 Hf3 Hf4 Hf5; frame_solve.

Lemma step_frame (s : System) (ev : Event) :
  Store.peerId (store (step s ev)) = Store.peerId (store s) /\
  Store.clockOffset (store (step s ev)) = Store.clockOffset (store s) /\
  dom (Store.connectedPeers (store (step s ev))) = dom (Store.connectedPeers (store s)) /\
  dom (connections (pm (step s ev))) = dom (connections (pm s)) /\
  ((forall clk peer id, ev <> Receive clk peer (GRANT_MASTER id)) ->
   (forall clk peer, ev <> Receive clk peer REVOKE_MASTER) ->
   Store.isMaster (store (step s ev)) = Store.isMaster (store s)).
Proof.
  destruct ev as [clk peer message | clk i decoded].
  - destruct message; cbn [step]; unfold handleMessage.
    + (* SYNC_REQUEST *) frame_solve.
    + (* SYNC_RESPONSE *) frame_solve.
    + (* AUDIO_META *) frame_solve.
    + (* AUDIO_CHUNK *)
      destruct (audioChunks (pm s) !! peer) as [chunkArray|]; [| frame_solve].
      destruct (audioMeta (pm s)) as [meta|]; [| frame_solve].
      destruct (_ =? _)%nat; [| frame_solve].
      frame_via (processReceivedAudio_frame peer (store s)
        (log LogAllChunksReceived
           (setAudioChunks (<[peer:=arraySet chunkIndex data chunkArray]>
                              (audioChunks (pm s))) s))).
    + (* AUDIO_COMPLETE *)
      destruct (audioChunks (pm s) !! peer) as [chunkArray|]; [| frame_solve].
      destruct (audioMeta (pm s)) as [meta|]; [| frame_solve].
      destruct (_ <? _)%nat; [| frame_solve].
      frame_via (processReceivedAudio_frame peer (store s) s).
    + (* SCHEDULE_PLAY *) destruct (negb _); frame_solve.
    + (* SCHEDULE_PAUSE *) frame_solve.
    + (* SCHEDULE_STOP *) frame_solve.
    + (* SCHEDULE_SEEK *) frame_solve.
    + (* REQUEST_MASTER *) frame_solve.
    + (* GRANT_MASTER *) destruct (decide _); frame_solve.
    + (* REVOKE_MASTER *) frame_solve.
    + (* PEER_INFO *)
      destruct (Store.connectedPeers (store s) !! peer) eqn:E; frame_solve.
    + (* HEARTBEAT *)
      unfold Store.updatePeerLatency.
      destruct (Store.connectedPeers (store s) !! peer) eqn:E; frame_solve.
    + (* PLAYBACK_STATE *)
      destruct (negb _); [frame_solve |].
      match goal with b : bool |- _ => destruct b end; frame_solve.
  - cbn [step]. destruct (loads s !! i) as [l|]; [| frame_solve].
    frame_via (processReceivedAudio_settled_frame clk l decoded
                 (withLoads (delete i (loads s)) s)).
Qed.

(** Whatever a guest's connection delivers, in whatever order, and
    however the pending decodings settle, the guest keeps its own peer id,
    and no peer and no connection is added or removed: a message can only
    update the entry of a peer that is already known.  The clock offset in
    the store is written by the callback of the sync engine and by nothing
    else: it is the offset of the last estimate the callback was given, and
    what it was before when there was none; no message handler and no
    settled decoding changes it.  Unless one of the messages is
    [GRANT_MASTER] or [REVOKE_MASTER], the master flag is left as it was;
    [REQUEST_MASTER] in particular changes nothing. *)
Theorem messages_keep_identity (s : System) (gevs : list GuestEvent) :
  let s' := guestRun s gevs in
  Store.peerId (store s') = Store.peerId (store s) /\
  dom (Store.connectedPeers (store s')) = dom (Store.connectedPeers (store s)) /\
  dom (connections (pm s')) = dom (connections (pm s)) /\
  Store.clockOffset (store s') =
    default (Store.clockOffset (store s)) (last (omap estimateOf gevs)) /\
  (forall ev, Store.clockOffset (store (step s ev)) = Store.clockOffset (store s)) /\
  ((forall clk peer id, Handled (Receive clk peer (GRANT_MASTER id)) ∉ gevs) ->
   (forall clk peer, Handled (Receive clk peer REVOKE_MASTER) ∉ gevs) ->
   Store.isMaster (store s') = Store.isMaster (store s)) /\
  (forall clk peer id, handleMessage clk peer (REQUEST_MASTER id) s = s).
Proof.
  assert (Hstep : forall s0 gev,
    Store.peerId (store (guestStep s0 gev)) = Store.peerId (store s0) /\
    dom (Store.connectedPeers (store (guestStep s0 gev))) =
      dom (Store.connectedPeers (store s0)) /\
    dom (connections (pm (guestStep s0 gev))) = dom (connections (pm s0)) /\
    Store.clockOffset (store (guestStep s0 gev)) =
      default (Store.clockOffset (store s0)) (estimateOf gev) /\
    ((forall clk peer id, gev <> Handled (Receive clk peer (GRANT_MASTER id))) ->
     (forall clk peer, gev <> Handled (Receive clk peer REVOKE_MASTER)) ->
     Store.isMaster (store (guestStep s0 gev)) = Store.isMaster (store s0))).
  { intros s0 [ev|result]; cbn [guestStep estimateOf default].
    - destruct (step_frame s0 ev) as (H1 & H2 & H3 & H4 & H5).
      split; [exact H1 | split; [exact H3 | split; [exact H4 | split; [exact H2 |]]]].
      intros Hgrant Hrevoke. apply H5.
      + intros clk peer id ->. apply (Hgrant clk peer id). reflexivity.
      + intros clk peer ->. apply (Hrevoke clk peer). reflexivity.
    - repeat split. }
  intros s'. unfold s'. clear s'.
  split; [| split; [| split; [| split; [| split; [| split]]]]].
  1-4, 6: induction gevs as [|gev gevs IH] using rev_ind;
    [try reflexivity; intros; reflexivity |];
    unfold guestRun in *; rewrite foldl_snoc;
    destruct (Hstep (foldl guestStep s gevs) gev) as (H1 & H2 & H3 & H4 & H5).
  - rewrite H1. exact IH.
  - rewrite H2. exact IH.
  - rewrite H3. exact IH.
  - rewrite H4, IH, omap_app. cbn [omap list_omap].
    destruct (estimateOf gev) as [q|]; cbn [default].
    + rewrite last_snoc. reflexivity.
    + rewrite app_nil_r. reflexivity.
  - intros Hgrant Hrevoke. rewrite H5.
    + apply IH.
      * intros clk peer id Hin. apply (Hgrant clk peer id), elem_of_app. left. exact Hin.
      * intros clk peer Hin. apply (Hrevoke clk peer), elem_of_app. left. exact Hin.
    + intros clk peer id ->. apply (Hgrant clk peer id), elem_of_app. right. constructor.
    + intros clk peer ->. apply (Hrevoke clk peer), elem_of_app. right. constructor.
  - intros ev. apply (step_frame s ev).
  - reflexivity.
Qed.

Lemma messages_keep_identity_witness :
  let clk := {| dateNow := 9; performanceNow := 0; toneNow := 0 |} in
  let s := storeSetIsMaster true initial in
  let s' := guestRun s
    [Handled (Receive clk "h" (REQUEST_MASTER "g"));
     SyncCompleted {| SyncEngine.roundTripTime := 80; SyncEngine.clockOffset := 250 |};
     Handled (Receive clk "h" (HEARTBEAT 5));
     Handled (Receive clk "h" SCHEDULE_STOP)] in
  Store.isMaster (store s') = true /\ Store.clockOffset (store s') = 250%Q.
Proof.
  intros clk s s'.
  destruct (messages_keep_identity s
    [Handled (Receive clk "h" (REQUEST_MASTER "g"));
     SyncCompleted {| SyncEngine.roundTripTime := 80; SyncEngine.clockOffset := 250 |};
     Handled (Receive clk "h" (HEARTBEAT 5));
     Handled (Receive clk "h" SCHEDULE_STOP)]) as (_ & _ & _ & Hoffset & _ & Hmaster & _).
  split; [| exact Hoffset].
  unfold s'. rewrite Hmaster; [reflexivity | |].
  - intros c p id Hin.
    repeat (apply elem_of_cons in Hin as [Hin|Hin]; [discriminate |]).
    apply elem_of_nil in Hin. exact Hin.
  - intros c p Hin.
    repeat (apply elem_of_cons in Hin as [Hin|Hin]; [discriminate |]).
    apply elem_of_nil in Hin. exact Hin.
Defined.

(** *** The sender *)

Lemma send_all (peer : string) (messages sent : list ProtocolMessage) :
  forall s,
    connections (pm s) !! peer = Some sent ->
    let s' := foldl (fun s' message => send peer message s') s messages in
    connections (pm s') !! peer = Some (sent ++ messages) /\
    (forall other, other <> peer ->
       connections (pm s') !! other = connections (pm s) !! other) /\
    audioChunks (pm s') = audioChunks (pm s) /\ audioMeta (pm s') = audioMeta (pm s) /\
    store s' = store s /\ audio s' = audio s /\ loads s' = loads s.
Proof.
  revert sent. induction messages as [|m messages IH]; intros sent s Hconn.
  - cbn. rewrite app_nil_r. auto 8.
  - cbn [foldl].
    destruct (IH (sent ++ [m]) (send peer m s)) as (H1 & H2 & H3 & H4 & H5 & H6 & H7).
    { cbn. rewrite lookup_alter_eq, Hconn. reflexivity. }
    cbv zeta in *. rewrite H1, H3, H4, H5, H6, H7, <- app_assoc.
    split; [reflexivity | split; [| cbn; auto 8]].
    intros other Hother. rewrite (H2 other Hother). cbn.
    apply lookup_alter_ne. congruence.
Qed.

(** What [streamAudioToPeer] puts on the connection, and nothing else: the
    metadata, announcing the size of the buffer and the number of chunks;
    then, for every [i] with [i * CHUNK_SIZE] inside the buffer, in position
    [i] after the metadata, the chunk message of index [i], which carries
    the Base64 text of the bytes from [i * CHUNK_SIZE] up to
    [(i + 1) * CHUNK_SIZE]; then the completion sentinel.  The other
    connections, the store and the audio engine are left as they were. *)
Theorem streamAudioToPeer_sends (peer : string) (buffer : list byte) (name : string)
    (duration : Q) (s : System) (sent : list ProtocolMessage) :
  connections (pm s) !! peer = Some sent ->
  let s' := streamAudioToPeer peer buffer name duration s in
  let total := length (AudioEngine.chunkArrayBuffer buffer) in
  exists streamed,
    connections (pm s') !! peer = Some (sent ++ streamed) /\
    length streamed = total + 2 /\
    streamed !! 0 = Some (AUDIO_META name (length buffer) duration "audio/mpeg" total) /\
    (forall i, i * CHUNK_SIZE < length buffer ->
       streamed !! (S i) =
       Some (AUDIO_CHUNK i total
               (AudioEngine.arrayBufferToBase64
                  (AudioEngine.slice (i * CHUNK_SIZE) (i * CHUNK_SIZE + CHUNK_SIZE)
                     buffer)))) /\
    streamed !! (S total) = Some AUDIO_COMPLETE /\
    (forall other, other <> peer ->
       connections (pm s') !! other = connections (pm s) !! other) /\
    store s' = store s /\ audio s' = audio s.
Proof.
  intros Hconn s' total.
  destruct (send_all peer (streamedMessages buffer name duration) sent s Hconn)
    as (H1 & H2 & _ & _ & H5 & H6 & _).
  exists (streamedMessages buffer name duration).
  split; [exact H1 |].
  assert (Hlen : length (chunkMessages (AudioEngine.chunkArrayBuffer buffer)) = total).
  { unfold chunkMessages. apply length_imap. }
  split; [| split; [reflexivity | split; [| split; [| split; [exact H2 | split; assumption]]]]].
  - unfold streamedMessages. cbn [length]. rewrite length_app, Hlen. cbn. lia.
  - intros i Hi. unfold streamedMessages.
    pose proof (chunkArrayBuffer_nth buffer i) as Hchunk.
    destruct (decide (i * CHUNK_SIZE < length buffer)); [| lia].
    rewrite lookup_cons_ne_0 by lia. cbn [Nat.pred].
    rewrite lookup_app_l.
    + unfold chunkMessages. rewrite list_lookup_imap, Hchunk. reflexivity.
    + rewrite Hlen. apply lookup_lt_Some in Hchunk. exact Hchunk.
  - unfold streamedMessages.
    rewrite lookup_cons_ne_0 by lia. cbn [Nat.pred].
    rewrite lookup_app_r by lia. rewrite Hlen, Nat.sub_diag. reflexivity.
Qed.

Lemma streamAudioToPeer_sends_witness :
  exists streamed,
    connections (pm (streamAudioToPeer "g1" ["M"; "a"; "n"]%byte "a.mp3" 1
                       (connectionOpened "g1" initial))) !! "g1" = Some streamed /\
    length streamed = 3 /\ streamed !! 1 = Some (AUDIO_CHUNK 0 1 "TWFu").
Proof.
  destruct (streamAudioToPeer_sends "g1" ["M"; "a"; "n"]%byte "a.mp3" 1
              (connectionOpened "g1" initial) [])
    as (streamed & Hsent & Hlength & _ & Hchunks & _); [vm_compute; reflexivity |].
  specialize (Hchunks 0 ltac:(vm_compute; lia)).
  exists streamed. split; [exact Hsent | split].
  - vm_compute in Hlength. exact Hlength.
  - rewrite Hchunks. vm_compute. reflexivity.
Defined.

End FrameProperties.
